(** * WocabeeHelper: a shallow embedding of the learning engine

    The development follows the three source files of the engine:
    [utils/state.js] (the word store), [utils/dom.js] (question location,
    UI-text filter, exercise classification) and [content/observer.js]
    (the feedback tracker).  JavaScript strings are sequences of UTF-16
    code units, a [Map] is an insertion-ordered association list, and the
    page is reached through a query interface. *)

From Stdlib Require Import String Ascii DecimalString List NArith ZArith Arith Bool Lia QArith.
Import ListNotations.
Close Scope Q_scope.
Close Scope Z_scope.

Set Implicit Arguments.
Set Warnings "-register-all".

(** * JavaScript strings as sequences of UTF-16 code units *)

Module JS.

Definition jsstring := list N.

(** Source literals are written as UTF-8 text and decoded to code units. *)
Fixpoint decode_utf8 (bs : list N) : jsstring :=
  match bs with
  | [] => []
  | b1 :: r1 =>
    if (b1 <? 0x80)%N then b1 :: decode_utf8 r1
    else match r1 with
    | [] => [0xFFFD%N]
    | b2 :: r2 =>
      if (b1 <? 0xE0)%N
      then ((b1 mod 32) * 64 + b2 mod 64)%N :: decode_utf8 r2
      else match r2 with
      | [] => [0xFFFD%N]
      | b3 :: r3 =>
        if (b1 <? 0xF0)%N
        then ((b1 mod 16) * 4096 + (b2 mod 64) * 64 + b3 mod 64)%N
               :: decode_utf8 r3
        else match r3 with
        | [] => [0xFFFD%N]
        | b4 :: r4 =>
          let cp := ((b1 mod 8) * 262144 + (b2 mod 64) * 4096
                     + (b3 mod 64) * 64 + b4 mod 64 - 0x10000)%N in
          (0xD800 + cp / 1024)%N :: (0xDC00 + cp mod 1024)%N
            :: decode_utf8 r4
        end
      end
    end
  end.

Definition lit (s : string) : jsstring :=
  decode_utf8 (map N_of_ascii (list_ascii_of_string s)).

Fixpoint eqb (s t : jsstring) : bool :=
  match s, t with
  | [], [] => true
  | c :: s', d :: t' => (c =? d)%N && eqb s' t'
  | _, _ => false
  end.

(** [!s] on a string: only the empty string is falsy. *)
Definition isEmpty (s : jsstring) : bool :=
  match s with [] => true | _ :: _ => false end.

(** [Array.prototype.includes] on an array of strings. *)
Definition includes (l : list jsstring) (x : jsstring) : bool :=
  existsb (eqb x) l.

(** ECMAScript WhiteSpace and LineTerminator code units: what [trim]
    strips and what [\s] matches. *)
Definition isWhiteSpace (c : N) : bool :=
  ((c =? 9) || (c =? 10) || (c =? 11) || (c =? 12) || (c =? 13)
   || (c =? 32) || (c =? 0xA0) || (c =? 0x1680)
   || ((0x2000 <=? c) && (c <=? 0x200A))
   || (c =? 0x2028) || (c =? 0x2029) || (c =? 0x202F)
   || (c =? 0x205F) || (c =? 0x3000) || (c =? 0xFEFF))%N.

Fixpoint dropWhile (A : Type) (p : A -> bool) (l : list A) : list A :=
  match l with
  | [] => []
  | x :: r => if p x then dropWhile p r else l
  end.

Definition trimStart (s : jsstring) : jsstring := dropWhile isWhiteSpace s.
Definition trimEnd (s : jsstring) : jsstring :=
  rev (dropWhile isWhiteSpace (rev s)).
Definition trim (s : jsstring) : jsstring := trimEnd (trimStart s).

(** [s.replace(/\s+/g, ' ')]: every maximal run of white space becomes one
    space.  The flag records that the previous code unit was white space. *)
Fixpoint collapse_from (inRun : bool) (s : jsstring) : jsstring :=
  match s with
  | [] => []
  | c :: r =>
    if isWhiteSpace c
    then (if inRun then collapse_from true r else 32%N :: collapse_from true r)
    else c :: collapse_from false r
  end.

Definition collapseWhitespace (s : jsstring) : jsstring :=
  collapse_from false s.

(** [\d] is the ASCII digits. *)
Definition isDigit (c : N) : bool := ((48 <=? c) && (c <=? 57))%N.

Fixpoint takeWhile (A : Type) (p : A -> bool) (l : list A) : list A :=
  match l with
  | [] => []
  | x :: r => if p x then x :: takeWhile p r else []
  end.

(** [/^\d+$/.test(s)] *)
Definition allDigits (s : jsstring) : bool :=
  negb (Nat.eqb (length s) 0) && forallb isDigit s.

(** [/^\d{10,}/.test(s)]: ten or more digits at the start. *)
Definition startsWithTenDigits (s : jsstring) : bool :=
  10 <=? length (takeWhile isDigit s).

(** [/^\d{10,}$/.test(s)] *)
Definition tenOrMoreDigitsOnly (s : jsstring) : bool :=
  forallb isDigit s && (10 <=? length s).

Fixpoint isPrefixOf (p s : jsstring) : bool :=
  match p, s with
  | [], _ => true
  | c :: p', d :: s' => (c =? d)%N && isPrefixOf p' s'
  | _ :: _, [] => false
  end.

(** [hay.includes(needle)] on strings. *)
Fixpoint str_includes (hay needle : jsstring) : bool :=
  isPrefixOf needle hay ||
  match hay with
  | [] => false
  | _ :: r => str_includes r needle
  end.

(** The letter class shared by [addWord] and [isUIText]:
    [[a-zA-ZáčďéěíňóřšťúůýžÁČĎÉĚÍŇÓŘŠŤÚŮÝŽäöüßÄÖÜ]]. *)
Definition accentedLetters : jsstring :=
  lit "áčďéěíňóřšťúůýžÁČĎÉĚÍŇÓŘŠŤÚŮÝŽäöüßÄÖÜ".

Definition isLetter (c : N) : bool :=
  ((97 <=? c) && (c <=? 122))%N || ((65 <=? c) && (c <=? 90))%N
  || existsb (N.eqb c) accentedLetters.

Definition count (p : N -> bool) (s : jsstring) : nat :=
  length (filter p s).

(** [String.prototype.toLowerCase] is the platform's; the engine only needs
    it to be a function on strings that agrees with [trim] and leaves a
    lower-cased, white-space-collapsed string alone. *)
Class CaseMapping := {
  toLowerCase : jsstring -> jsstring;
  toLowerCase_trim : forall s, toLowerCase (trim s) = trim (toLowerCase s);
  toLowerCase_collapse : forall s,
    toLowerCase (collapseWhitespace (toLowerCase s))
    = collapseWhitespace (toLowerCase s)
}.

(** A case mapping for Latin text: Basic Latin, Latin-1 Supplement and
    Latin Extended-A, by code unit.  U+0130 lowers to two code units. *)
Definition lowerLatin (c : N) : jsstring :=
  if ((65 <=? c) && (c <=? 90))%N then [(c + 32)%N]
  else if ((0xC0 <=? c) && (c <=? 0xDE) && negb (c =? 0xD7))%N then [(c + 32)%N]
  else if (c =? 0x130)%N then [0x69%N; 0x307%N]
  else if (c =? 0x178)%N then [0xFF%N]
  else if (((0x100 <=? c) && (c <=? 0x12F)) || ((0x132 <=? c) && (c <=? 0x137))
           || ((0x14A <=? c) && (c <=? 0x177)))%N
  then (if N.even c then [(c + 1)%N] else [c])
  else if (((0x139 <=? c) && (c <=? 0x148)) || ((0x179 <=? c) && (c <=? 0x17E)))%N
  then (if N.odd c then [(c + 1)%N] else [c])
  else [c].

Definition toLowerCaseLatin (s : jsstring) : jsstring := flat_map lowerLatin s.

End JS.

(** * The JavaScript [Map] keyed by strings

    Entries keep their insertion order; [set] on a present key replaces the
    value in place, [set] on an absent key appends.  Pushing onto an array
    held in the map is a [set] of the extended array at its key. *)

Module JSMap.
Import JS.

Definition t (V : Type) := list (jsstring * V).

Fixpoint get (V : Type) (m : t V) (k : jsstring) : option V :=
  match m with
  | [] => None
  | (k', v) :: r => if eqb k k' then Some v else get r k
  end.

Definition has (V : Type) (m : t V) (k : jsstring) : bool :=
  match get m k with Some _ => true | None => false end.

Fixpoint set (V : Type) (m : t V) (k : jsstring) (v : V) : t V :=
  match m with
  | [] => [(k, v)]
  | (k', v') :: r => if eqb k k' then (k, v) :: r else (k', v') :: set r k v
  end.

Definition keys (V : Type) (m : t V) : list jsstring := map fst m.

Definition size (V : Type) (m : t V) : nat := length m.

End JSMap.

(** * JavaScript values and the JSON codec

    The values that [JSON.parse] can produce.  The program never inspects a
    number beyond [typeof], so a number keeps the text of its literal.  An
    object holds its own properties in enumeration order. *)

Module Json.
Import JS.

Inductive value :=
| VNull
| VBool (b : bool)
| VNum (lexeme : jsstring)
| VStr (s : jsstring)
| VArr (elems : list value)
| VObj (props : list (jsstring * value)).

(** ** Objects: property creation and enumeration order *)

(** [CreateDataProperty]: a repeated key keeps its place and takes the new
    value, as [Map.prototype.set] does. *)
Definition defineProperty (A : Type) (k : jsstring) (v : A)
    (props : list (jsstring * A)) : list (jsstring * A) :=
  JSMap.set props k v.

Definition decimalValue (s : jsstring) : N :=
  fold_left (fun acc d => (acc * 10 + (d - 48))%N) s 0%N.

(** An array index is a canonical numeric string below 2^32 - 1. *)
Definition arrayIndex (k : jsstring) : option N :=
  match k with
  | [] => None
  | c :: r =>
    if forallb isDigit k && (negb (c =? 48)%N || Nat.eqb (length r) 0)
       && (length k <=? 10) && (decimalValue k <? 4294967295)%N
    then Some (decimalValue k) else None
  end.

Fixpoint insertByIndex (A : Type) (i : N) (p : jsstring * A)
    (l : list (N * (jsstring * A))) : list (N * (jsstring * A)) :=
  match l with
  | [] => [(i, p)]
  | (j, q) :: r =>
    if (i <? j)%N then (i, p) :: l else (j, q) :: insertByIndex i p r
  end.

Fixpoint indexedProps (A : Type) (props : list (jsstring * A))
    : list (N * (jsstring * A)) :=
  match props with
  | [] => []
  | (k, v) :: r =>
    match arrayIndex k with
    | Some i => insertByIndex i (k, v) (indexedProps r)
    | None => indexedProps r
    end
  end.

Definition isNamedProp (A : Type) (p : jsstring * A) : bool :=
  match arrayIndex (fst p) with Some _ => false | None => true end.

(** [OrdinaryOwnPropertyKeys]: array indices in ascending order, then the
    other keys in creation order. *)
Definition ownPropertyOrder (A : Type) (props : list (jsstring * A))
    : list (jsstring * A) :=
  map snd (indexedProps props) ++ filter (@isNamedProp A) props.

(** The object built by defining the given properties one after the other. *)
Definition createObject (A : Type) (kvs : list (jsstring * A))
    : list (jsstring * A) :=
  ownPropertyOrder
    (fold_left (fun o kv => defineProperty (fst kv) (snd kv) o) kvs []).

(** ** [JSON.stringify(v, null, 2)] *)

Definition hexDigit (n : N) : N :=
  if (n <? 10)%N then (48 + n)%N else (87 + n)%N.

Definition unicodeEscape (c : N) : jsstring :=
  [92%N; 117%N; hexDigit (c / 4096); hexDigit ((c / 256) mod 16);
   hexDigit ((c / 16) mod 16); hexDigit (c mod 16)].

Definition isHighSurrogate (c : N) : bool :=
  ((0xD800 <=? c) && (c <=? 0xDBFF))%N.
Definition isLowSurrogate (c : N) : bool :=
  ((0xDC00 <=? c) && (c <=? 0xDFFF))%N.

Definition quoteUnit (c : N) : jsstring :=
  if (c =? 8)%N then [92%N; 98%N]
  else if (c =? 9)%N then [92%N; 116%N]
  else if (c =? 10)%N then [92%N; 110%N]
  else if (c =? 12)%N then [92%N; 102%N]
  else if (c =? 13)%N then [92%N; 114%N]
  else if (c =? 34)%N then [92%N; 34%N]
  else if (c =? 92)%N then [92%N; 92%N]
  else if (c <? 32)%N then unicodeEscape c
  else if isHighSurrogate c || isLowSurrogate c then unicodeEscape c
  else [c].

(** [QuoteJSONString] without the enclosing quotes: a well-formed surrogate
    pair is copied, a lone surrogate is escaped. *)
Fixpoint quoteBody (s : jsstring) : jsstring :=
  match s with
  | [] => []
  | c :: r =>
    if isHighSurrogate c then
      match r with
      | d :: r' =>
        if isLowSurrogate d then c :: d :: quoteBody r'
        else quoteUnit c ++ quoteBody r
      | [] => quoteUnit c
      end
    else quoteUnit c ++ quoteBody r
  end.

Definition quoteJSONString (s : jsstring) : jsstring :=
  34%N :: quoteBody s ++ [34%N].

Definition spaces (n : nat) : jsstring := repeat 32%N n.

(** Items of a non-empty array or object, one per line. *)
Fixpoint joinItems (items : list jsstring) : jsstring :=
  match items with
  | [] => []
  | [x] => x
  | x :: r => x ++ [44%N; 10%N] ++ joinItems r
  end.

Fixpoint stringifyAt (indent : nat) (v : value) : jsstring :=
  match v with
  | VNull => lit "null"
  | VBool true => lit "true"
  | VBool false => lit "false"
  | VNum lexeme => lexeme
  | VStr s => quoteJSONString s
  | VArr [] => lit "[]"
  | VArr elems =>
    [91%N; 10%N]
    ++ joinItems (map (fun x => spaces (indent + 2) ++ stringifyAt (indent + 2) x)
                      elems)
    ++ [10%N] ++ spaces indent ++ [93%N]
  | VObj [] => lit "{}"
  | VObj props =>
    [123%N; 10%N]
    ++ joinItems (map (fun kx => spaces (indent + 2) ++ quoteJSONString (fst kx)
                                 ++ [58%N; 32%N]
                                 ++ stringifyAt (indent + 2) (snd kx))
                      props)
    ++ [10%N] ++ spaces indent ++ [125%N]
  end.

Definition JSON_stringify (v : value) : jsstring := stringifyAt 0 v.

(** ** [JSON.parse] *)

Inductive token :=
| TLBrace | TRBrace | TLBracket | TRBracket | TColon | TComma
| TString (s : jsstring)
| TNumber (lexeme : jsstring)
| TTrue | TFalse | TNull.

Definition hexValue (c : N) : option N :=
  if isDigit c then Some (c - 48)%N
  else if ((97 <=? c) && (c <=? 102))%N then Some (c - 87)%N
  else if ((65 <=? c) && (c <=? 70))%N then Some (c - 55)%N
  else None.

Definition unescape (e : N) : option N :=
  if (e =? 34)%N then Some 34%N
  else if (e =? 92)%N then Some 92%N
  else if (e =? 47)%N then Some 47%N
  else if (e =? 98)%N then Some 8%N
  else if (e =? 102)%N then Some 12%N
  else if (e =? 110)%N then Some 10%N
  else if (e =? 114)%N then Some 13%N
  else if (e =? 116)%N then Some 9%N
  else None.

(** The code unit written by four hexadecimal digits. *)
Definition hex4 (h1 h2 h3 h4 : N) : option N :=
  match hexValue h1, hexValue h2, hexValue h3, hexValue h4 with
  | Some a, Some b, Some c, Some d => Some (a * 4096 + b * 256 + c * 16 + d)%N
  | _, _, _, _ => None
  end.

Definition consUnit (c : N) (r : option (jsstring * jsstring))
    : option (jsstring * jsstring) :=
  match r with
  | Some (s, rest) => Some (c :: s, rest)
  | None => None
  end.

(** The characters of a string literal after its opening quote, up to and
    including the closing quote. *)
Fixpoint lexString (s : jsstring) : option (jsstring * jsstring) :=
  match s with
  | [] => None
  | c :: r =>
    if (c =? 34)%N then Some ([], r)
    else if (c =? 92)%N then
      match r with
      | [] => None
      | e :: r1 =>
        if (e =? 117)%N then
          match r1 with
          | h1 :: h2 :: h3 :: h4 :: r2 =>
            match hex4 h1 h2 h3 h4 with
            | Some u => consUnit u (lexString r2)
            | None => None
            end
          | _ => None
          end
        else
          match unescape e with
          | Some u => consUnit u (lexString r1)
          | None => None
          end
      end
    else if (c <? 32)%N then None
    else consUnit c (lexString r)
  end.

(** One or more digits. *)
Definition lexDigits (s : jsstring) : option (jsstring * jsstring) :=
  match takeWhile isDigit s with
  | [] => None
  | ds => Some (ds, dropWhile isDigit s)
  end.

(** A number literal: an optional minus sign, an integer part without a
    leading zero, an optional fraction and an optional exponent. *)
Definition lexNumber (s : jsstring) : option (jsstring * jsstring) :=
  let (sign, s1) :=
    match s with
    | c :: r => if (c =? 45)%N then ([45%N], r) else ([], s)
    | [] => ([], s)
    end in
  match s1 with
  | [] => None
  | c :: r =>
    let intPart :=
      if (c =? 48)%N then Some ([48%N], r)
      else if isDigit c then Some (c :: takeWhile isDigit r, dropWhile isDigit r)
      else None in
    match intPart with
    | None => None
    | Some (ip, s2) =>
      let fracPart :=
        match s2 with
        | d :: r2 =>
          if (d =? 46)%N then
            match lexDigits r2 with
            | Some (ds, s3) => Some (46%N :: ds, s3)
            | None => None
            end
          else Some ([], s2)
        | [] => Some ([], s2)
        end in
      match fracPart with
      | None => None
      | Some (fp, s3) =>
        let expPart :=
          match s3 with
          | e :: r3 =>
            if ((e =? 101) || (e =? 69))%N then
              let (esign, s4) :=
                match r3 with
                | g :: r4 =>
                  if ((g =? 43) || (g =? 45))%N then ([g], r4) else ([], r3)
                | [] => ([], r3)
                end in
              match lexDigits s4 with
              | Some (ds, s5) => Some (e :: esign ++ ds, s5)
              | None => None
              end
            else Some ([], s3)
          | [] => Some ([], s3)
          end in
        match expPart with
        | None => None
        | Some (ep, s4) => Some (sign ++ ip ++ fp ++ ep, s4)
        end
      end
    end
  end.

Definition isJsonSpace (c : N) : bool :=
  ((c =? 32) || (c =? 9) || (c =? 10) || (c =? 13))%N.

Definition consToken (t : token) (r : option (list token))
    : option (list token) :=
  match r with
  | Some ts => Some (t :: ts)
  | None => None
  end.

Fixpoint tokenize (fuel : nat) (s : jsstring) : option (list token) :=
  match fuel with
  | O => None
  | S f =>
    match s with
    | [] => Some []
    | c :: r =>
      if isJsonSpace c then tokenize f r
      else if (c =? 123)%N then consToken TLBrace (tokenize f r)
      else if (c =? 125)%N then consToken TRBrace (tokenize f r)
      else if (c =? 91)%N then consToken TLBracket (tokenize f r)
      else if (c =? 93)%N then consToken TRBracket (tokenize f r)
      else if (c =? 58)%N then consToken TColon (tokenize f r)
      else if (c =? 44)%N then consToken TComma (tokenize f r)
      else if (c =? 34)%N then
        match lexString r with
        | Some (str, r') => consToken (TString str) (tokenize f r')
        | None => None
        end
      else if isPrefixOf (lit "true") s
      then consToken TTrue (tokenize f (skipn 4 s))
      else if isPrefixOf (lit "false") s
      then consToken TFalse (tokenize f (skipn 5 s))
      else if isPrefixOf (lit "null") s
      then consToken TNull (tokenize f (skipn 4 s))
      else
        match lexNumber s with
        | Some (lexeme, r') => consToken (TNumber lexeme) (tokenize f r')
        | None => None
        end
    end
  end.

Fixpoint parseValue (fuel : nat) (ts : list token)
    : option (value * list token) :=
  match fuel with
  | O => None
  | S f =>
    match ts with
    | TNull :: r => Some (VNull, r)
    | TTrue :: r => Some (VBool true, r)
    | TFalse :: r => Some (VBool false, r)
    | TNumber lexeme :: r => Some (VNum lexeme, r)
    | TString s :: r => Some (VStr s, r)
    | TLBracket :: TRBracket :: r => Some (VArr [], r)
    | TLBracket :: r =>
      match parseElements f r with
      | Some (vs, r') => Some (VArr vs, r')
      | None => None
      end
    | TLBrace :: TRBrace :: r => Some (VObj [], r)
    | TLBrace :: r =>
      match parseMembers f r with
      | Some (kvs, r') => Some (VObj (createObject kvs), r')
      | None => None
      end
    | _ => None
    end
  end
with parseElements (fuel : nat) (ts : list token)
    : option (list value * list token) :=
  match fuel with
  | O => None
  | S f =>
    match parseValue f ts with
    | Some (v, TComma :: r) =>
      match parseElements f r with
      | Some (vs, r') => Some (v :: vs, r')
      | None => None
      end
    | Some (v, TRBracket :: r) => Some ([v], r)
    | _ => None
    end
  end
with parseMembers (fuel : nat) (ts : list token)
    : option (list (jsstring * value) * list token) :=
  match fuel with
  | O => None
  | S f =>
    match ts with
    | TString k :: TColon :: r =>
      match parseValue f r with
      | Some (v, TComma :: r1) =>
        match parseMembers f r1 with
        | Some (kvs, r') => Some ((k, v) :: kvs, r')
        | None => None
        end
      | Some (v, TRBrace :: r1) => Some ([(k, v)], r1)
      | _ => None
      end
    | _ => None
    end
  end.

(** [JSON.parse(text)]: [None] is a thrown [SyntaxError]. *)
Definition JSON_parse (text : jsstring) : option value :=
  match tokenize (S (length text)) text with
  | Some ts =>
    match parseValue (2 * length ts + 1) ts with
    | Some (v, []) => Some v
    | _ => None
    end
  | None => None
  end.

End Json.

(** * The word store ([utils/state.js]) *)

Module WocabeeState.
Import JS Json.

Record State := {
  wordDatabase : JSMap.t (list jsstring);
  reverseDatabase : JSMap.t (list jsstring);
  wordsIndexed : N;
  answersHelped : N
}.

(** The store at process start. *)
Definition emptyState : State :=
  {| wordDatabase := []; reverseDatabase := [];
     wordsIndexed := 0; answersHelped := 0 |}.

(** Exceptions are explicit: a body either completes or throws. *)
Inductive exn := SyntaxError | TypeError.

Inductive completion (A : Type) :=
| Normal (a : A)
| Throw (e : exn).
Arguments Throw {A} e.

(** [uiWords] of [addWord]. *)
Definition uiWords : list jsstring :=
  map lit ["learning mode"; "wocabee"; "seznam"; "balíků"; "settings";
           "menu"; "next"; "back"; "indexed"; "words known"]%string.

(** [!v || typeof v !== 'string'] fails exactly for a non-empty string. *)
Definition isNonEmptyString (v : value) : bool :=
  match v with
  | VStr (_ :: _) => true
  | _ => false
  end.

Definition getOr (m : JSMap.t (list jsstring)) (k : jsstring)
    : list jsstring :=
  match JSMap.get m k with Some l => l | None => [] end.

(** [[...new Set(l)]]: first occurrences, in order. *)
Fixpoint dedupe (seen l : list jsstring) : list jsstring :=
  match l with
  | [] => []
  | x :: r => if includes seen x then dedupe seen r
              else x :: dedupe (x :: seen) r
  end.

(** Decimal spelling of an array position. *)
Definition decimalString (n : nat) : jsstring :=
  map N_of_ascii
      (list_ascii_of_string (DecimalString.NilZero.string_of_uint (Nat.to_uint n))).

Fixpoint indexedFrom (A : Type) (i : nat) (l : list A) : list (jsstring * A) :=
  match l with
  | [] => []
  | x :: r => (decimalString i, x) :: indexedFrom (S i) r
  end.

(** [Object.entries(v)] on a parsed JSON value. *)
Definition Object_entries (v : value) : completion (list (jsstring * value)) :=
  match v with
  | VNull => Throw TypeError
  | VBool _ => Normal []
  | VNum _ => Normal []
  | VStr s => Normal (indexedFrom 0 (map (fun c => VStr [c]) s))
  | VArr elems => Normal (indexedFrom 0 elems)
  | VObj props => Normal props
  end.

(** [Object.fromEntries(wordDatabase)] *)
Definition Object_fromEntries (m : JSMap.t (list jsstring)) : value :=
  VObj (createObject (map (fun kl => (fst kl, VArr (map VStr (snd kl)))) m)).

Section WithCaseMapping.
Context {CM : CaseMapping}.

(** [normalizeWord] *)
Definition normalizeWord (word : value) : jsstring :=
  match word with
  | VStr (c :: r) => collapseWhitespace (toLowerCase (trim (c :: r)))
  | _ => []
  end.

(** The guards of [addWord], in source order; [true] when none rejects. *)
Definition passesValidation (source0 target0 : value) : bool :=
  if negb (isNonEmptyString source0) || negb (isNonEmptyString target0)
  then false else
  let source := normalizeWord source0 in
  let target := normalizeWord target0 in
  if isEmpty source || isEmpty target then false else
  if eqb source target then false else
  if allDigits source || allDigits target then false else
  if startsWithTenDigits source || startsWithTenDigits target then false else
  let sourceLetters := count isLetter source in
  let targetLetters := count isLetter target in
  if (sourceLetters <? 2) || (targetLetters <? 2) then false else
  let lowerSource := toLowerCase source in
  let lowerTarget := toLowerCase target in
  if existsb (fun w => str_includes lowerSource w || str_includes lowerTarget w)
             uiWords
  then false else true.

(** The second half of [addWord]: the update of both maps for a normalized
    pair that passed the guards. *)
Definition commitPair (source target : jsstring) (st : State) : State * bool :=
  let db := if JSMap.has st.(wordDatabase) source then st.(wordDatabase)
            else JSMap.set st.(wordDatabase) source [] in
  let translations := getOr db source in
  if negb (includes translations target) then
    let db' := JSMap.set db source (translations ++ [target]) in
    let rv := if JSMap.has st.(reverseDatabase) target then st.(reverseDatabase)
              else JSMap.set st.(reverseDatabase) target [] in
    let rv' := if negb (includes (getOr rv target) source)
               then JSMap.set rv target (getOr rv target ++ [source])
               else rv in
    ({| wordDatabase := db'; reverseDatabase := rv';
        wordsIndexed := st.(wordsIndexed) + 1;
        answersHelped := st.(answersHelped) |}, true)
  else
    ({| wordDatabase := db; reverseDatabase := st.(reverseDatabase);
        wordsIndexed := st.(wordsIndexed);
        answersHelped := st.(answersHelped) |}, false).

(** [addWord(source, target)] *)
Definition addWord (source target : value) (st : State) : State * bool :=
  if passesValidation source target
  then commitPair (normalizeWord source) (normalizeWord target) st
  else (st, false).

(** [addWords(wordPairs)] *)
Definition addWords (wordPairs : list (value * value)) (st : State)
    : State * nat :=
  fold_left
    (fun acc pair =>
       let (st', added) := addWord (fst pair) (snd pair) (fst acc) in
       (st', if added then S (snd acc) else snd acc))
    wordPairs (st, 0).

(** [findPartialMatch(word)] *)
Definition findPartialMatch (word : jsstring) (st : State)
    : option (list jsstring) :=
  let lowerWord := toLowerCase word in
  let scan (m : JSMap.t (list jsstring)) :=
    flat_map (fun kv =>
                if str_includes (toLowerCase (fst kv)) lowerWord
                   || str_includes lowerWord (toLowerCase (fst kv))
                then snd kv else []) m in
  let matches := scan st.(wordDatabase) ++ scan st.(reverseDatabase) in
  match matches with
  | [] => None
  | _ :: _ => Some (dedupe [] matches)
  end.

(** [findTranslation(word)] *)
Definition findTranslation (word0 : value) (st : State)
    : option (list jsstring) :=
  let word := normalizeWord word0 in
  match JSMap.get st.(wordDatabase) word with
  | Some l => Some l
  | None =>
    match JSMap.get st.(reverseDatabase) word with
    | Some l => Some l
    | None => findPartialMatch word st
    end
  end.

(** [getStats()]: the two sizes of the primary mapping. *)
Definition totalWords (st : State) : nat := JSMap.size st.(wordDatabase).

Definition totalTranslations (st : State) : nat :=
  fold_left (fun sum kv => sum + length (snd kv)) st.(wordDatabase) 0.

(** [rebuildReverseDatabase()]: every stored value of this model is an
    array, so only the array branch of the source runs. *)
Definition rebuildReverseDatabase (st : State) : State :=
  let rv :=
    fold_left
      (fun rv kv =>
         fold_left
           (fun rv target =>
              let rv1 := if JSMap.has rv target then rv
                         else JSMap.set rv target [] in
              JSMap.set rv1 target (getOr rv1 target ++ [fst kv]))
           (snd kv) rv)
      st.(wordDatabase) [] in
  {| wordDatabase := st.(wordDatabase); reverseDatabase := rv;
     wordsIndexed := st.(wordsIndexed); answersHelped := st.(answersHelped) |}.

(** [clearDatabase()] *)
Definition clearDatabase (st : State) : State :=
  {| wordDatabase := []; reverseDatabase := [];
     wordsIndexed := 0; answersHelped := 0 |}.

(** [exportDatabase()] *)
Definition exportDatabase (st : State) : jsstring :=
  JSON_stringify (Object_fromEntries st.(wordDatabase)).

(** The two nested loops of [importDatabase]. *)
Definition importTargets (source : jsstring) (targetArray : list value)
    (acc : State * nat) : State * nat :=
  fold_left
    (fun acc target =>
       let (st', added) := addWord (VStr source) target (fst acc) in
       (st', if added then S (snd acc) else snd acc))
    targetArray acc.

Definition importEntries (entries : list (jsstring * value))
    (acc : State * nat) : State * nat :=
  fold_left
    (fun acc entry =>
       let targetArray :=
         match snd entry with
         | VArr elems => elems
         | other => [other]
         end in
       importTargets (fst entry) targetArray acc)
    entries acc.

(** The [try] block of [importDatabase]. *)
Definition importBody (jsonString : jsstring) (st : State)
    : State * completion nat :=
  match JSON_parse jsonString with
  | None => (st, Throw SyntaxError)
  | Some data =>
    match Object_entries data with
    | Throw e => (st, Throw e)
    | Normal entries =>
      let (st', imported) := importEntries entries (st, 0) in
      (st', Normal imported)
    end
  end.

(** [importDatabase(jsonString)]: the [catch] turns any exception of the
    body into the result 0. *)
Definition importDatabase (jsonString : jsstring) (st : State) : State * nat :=
  match importBody jsonString st with
  | (st', Normal imported) => (st', imported)
  | (st', Throw _) => (st', 0)
  end.

End WithCaseMapping.

End WocabeeState.


(** * Selectors and constants ([config.js]) *)

Module WocabeeConfig.

Open Scope string_scope.

Definition dq : string := String (ascii_of_nat 34) EmptyString.

(** An attribute selector with a quoted value, such as the one that tests
    whether the class attribute contains a word. *)
Definition attr (name op val : string) : string :=
  "[" ++ name ++ op ++ dq ++ val ++ dq ++ "]".

Definition classHas (val : string) : string := attr "class" "*=" val.

Definition questionWord : string :=
  ".word, .question, h1, h2, h3, .big, .large, .main, "
  ++ classHas "word" ++ ":not(input):not(button):not("
  ++ classHas "password" ++ ")".

Definition answerOptions : string :=
  ".answer, .choice, .option, .btn, button:not("
  ++ attr "type" "=" "submit" ++ "), "
  ++ classHas "answer" ++ ", " ++ classHas "choice" ++ ", "
  ++ classHas "option".

Definition answerInput : string :=
  "input" ++ attr "type" "=" "text" ++ ", input" ++ attr "type" "=" "search"
  ++ ", input:not(" ++ attr "type" "=" "hidden" ++ "):not("
  ++ attr "type" "=" "submit" ++ "):not(" ++ attr "type" "=" "checkbox"
  ++ "):not(" ++ attr "type" "=" "radio" ++ "):not("
  ++ attr "type" "=" "password" ++ "), textarea, #answer, "
  ++ attr "name" "*=" "answer" ++ ", " ++ attr "id" "*=" "answer".

Definition correctFeedback : string :=
  ".correct, .success, .right, .good, .green, "
  ++ classHas "correct" ++ ", " ++ classHas "success" ++ ", "
  ++ classHas "right" ++ ", " ++ classHas "good".

Definition incorrectFeedback : string :=
  ".incorrect, .wrong, .error, .bad, .red, "
  ++ classHas "incorrect" ++ ", " ++ classHas "wrong" ++ ", "
  ++ classHas "error" ++ ", " ++ classHas "bad".

Definition revealedAnswer : string :=
  ".correct-answer, .right-answer, .solution, .reveal, .show-answer, "
  ++ classHas "solution" ++ ", " ++ classHas "reveal" ++ ", "
  ++ classHas "correct-answer".

Definition wordPair : string :=
  ".word-pair, .vocabulary-item, .vocab-item, .pair, tr, li, .row, .item".

Definition sourceWord : string :=
  ".source, .original, .from, .left, td:first-child, span:first-child".

Definition targetWord : string :=
  ".target, .translation, .to, .right, td:last-child, span:last-child".

Definition gameContainer : string :=
  ".game, " ++ classHas "game" ++ ", #game".

Definition testContainer : string :=
  ".test, .exam, .quiz, " ++ classHas "test" ++ ", " ++ classHas "exam"
  ++ ", " ++ classHas "quiz".

(** Selector lists written inline in [observer.js]. *)
Definition highlightedCorrect : string :=
  ".wh-correct, .selected.correct, .correct.selected, "
  ++ classHas "correct" ++ classHas "selected".

Definition activeAnswer : string :=
  ".active, .selected, " ++ attr "aria-selected" "=" "true" ++ ", .clicked".

Definition correctOption : string :=
  ".correct:not(.selected), " ++ classHas "correct" ++ ":not("
  ++ classHas "in" ++ "), .right-answer, .solution".

End WocabeeConfig.

(** * The page, as the engine reaches it ([utils/dom.js])

    The engine reads the page through selector queries, bounding boxes,
    computed font sizes and text.  Numbers are the platform's doubles; the
    engine compares them and scales them by constants, so they are kept
    behind an interface whose values are the doubles that are not NaN
    (no operation of the engine produces one). *)

Module WocabeeDom.
Import JS.

Class NumberOps := {
  num : Type;
  zero : num;
  twelve : num;
  times2 : num -> num;
  times1_5 : num -> num;
  half : num -> num;
  gt : num -> num -> bool
}.

Inductive ExerciseType := Selection | Typing | Game | Test | Vocabulary.

(** Splitting a selector list at its commas and trimming the pieces. *)
Fixpoint splitComma (s : string) : list string :=
  match s with
  | EmptyString => [EmptyString]
  | String c r =>
    if Ascii.eqb c ","%char then EmptyString :: splitComma r
    else match splitComma r with
         | [] => [String c EmptyString]
         | h :: t => String c h :: t
         end
  end.

Definition isSpaceChar (c : ascii) : bool :=
  isWhiteSpace (N_of_ascii c).

Fixpoint dropSpaces (s : string) : string :=
  match s with
  | EmptyString => EmptyString
  | String c r => if isSpaceChar c then dropSpaces r else s
  end.

Fixpoint dropTrailingSpaces (s : string) : string :=
  match s with
  | EmptyString => EmptyString
  | String c r =>
    match dropTrailingSpaces r with
    | EmptyString => if isSpaceChar c then EmptyString else String c EmptyString
    | r' => String c r'
    end
  end.

Definition trimSelector (s : string) : string :=
  dropTrailingSpaces (dropSpaces s).

Definition splitSelectors (selectors : string) : list string :=
  map trimSelector (splitComma selectors).

(** [uiPatterns] of [isUIText]. *)
Definition uiPatterns : list jsstring :=
  map lit
    ["next"; "continue"; "skip"; "submit"; "check"; "ok"; "cancel";
     "correct"; "wrong"; "right"; "error"; "success";
     "loading"; "please wait"; "score"; "points"; "progress";
     "login"; "logout"; "sign"; "register"; "password";
     "menu"; "home"; "back"; "settings"; "help";
     "wocabee"; "copyright"; "©"; "cookie"; "privacy";
     "click"; "tap"; "press"; "select"; "choose";
     "learning mode"; "wocabeehelper"; "indexed"; "words known";
     "hint"; "answer"; "translation";
     "seznam"; "balíků"; "balík"; "nastavení"; "odhlásit";
     "přihlásit"; "pokračovat"; "zpět"; "další"; "hotovo";
     "správně"; "špatně"; "chyba"; "body"; "skóre"]%string.

(** The regular expression [/word|question|vocab/i] on a class name. *)
Definition asciiUpper (c : N) : N :=
  if ((97 <=? c) && (c <=? 122))%N then (c - 32)%N else c.

Definition includesIgnoreCase (hay : jsstring) (needle : string) : bool :=
  str_includes (map asciiUpper hay) (map asciiUpper (lit needle)).

Definition matchesWordClass (className : jsstring) : bool :=
  includesIgnoreCase className "word"
  || includesIgnoreCase className "question"
  || includesIgnoreCase className "vocab".

(** [/^H[1-6]$/] on a tag name. *)
Definition isHeadingTag (tag : string) : bool :=
  existsb (String.eqb tag) ["H1"; "H2"; "H3"; "H4"; "H5"; "H6"]%string.

Section WithPlatform.
Context {CM : CaseMapping} {NO : NumberOps}.

Definition ge (a b : num) : bool := negb (gt b a).
Definition lt (a b : num) : bool := gt b a.
(** [a === b] on numbers that are not NaN. *)
Definition same (a b : num) : bool := negb (gt a b) && negb (gt b a).

Record Element := {
  nodeId : nat;
  tagName : string;
  childCount : nat;
  textContent : jsstring;
  innerText : jsstring;
  className : jsstring;
  classList : list jsstring;
  inputValue : option jsstring;
  dataCorrect : option jsstring;
  rectWidth : num;
  rectHeight : num;
  rectTop : num;
  fontSize : option num
}.

(** A page snapshot.  [querySelectorAll parent selector] is [None] when the
    selector throws; [parent] is [None] for the document itself.  The two
    queries the source makes outside a [try] block use constant selectors
    and are fields of their own: [allElements] is
    [document.querySelectorAll('*')] in document order, [cellsOf item] is
    [item.querySelectorAll('td, .cell, .word')], and [hasCorrectMark opt]
    tells whether [opt.querySelector] finds a node marked correct. *)
Record Document := {
  querySelectorAll : option Element -> string -> option (list Element);
  allElements : list Element;
  cellsOf : Element -> list Element;
  hasCorrectMark : Element -> bool;
  innerHeight : num
}.

(** [find(selectors, parent)] *)
Definition find (doc : Document) (selectors : string)
    (parent : option Element) : option Element :=
  (fix first (sels : list string) : option Element :=
     match sels with
     | [] => None
     | selector :: rest =>
       match querySelectorAll doc parent selector with
       | Some (element :: _) => Some element
       | _ => first rest
       end
     end) (splitSelectors selectors).

Fixpoint dedupeNodes (seen : list nat) (l : list Element) : list Element :=
  match l with
  | [] => []
  | e :: r =>
    if existsb (Nat.eqb (nodeId e)) seen then dedupeNodes seen r
    else e :: dedupeNodes (nodeId e :: seen) r
  end.

(** [findAll(selectors, parent)] *)
Definition findAll (doc : Document) (selectors : string)
    (parent : option Element) : list Element :=
  dedupeNodes []
    (flat_map (fun selector =>
                 match querySelectorAll doc parent selector with
                 | Some elements => elements
                 | None => []
                 end)
              (splitSelectors selectors)).

(** [getText(element)] *)
Definition getText (element : Element) : jsstring :=
  trim (if isEmpty (textContent element) then innerText element
        else textContent element).

(** [isUIText(text)] *)
Definition isUIText (text : jsstring) : bool :=
  if isEmpty text then true else
  let lowerText := trim (toLowerCase text) in
  if allDigits (trim text) then true else
  if tenOrMoreDigitsOnly (trim text) then true else
  let letterCount := count isLetter text in
  if letterCount <? 2 then true else
  let digitCount := count isDigit text in
  if letterCount <? digitCount then true else
  if includes uiPatterns lowerText then true else
  existsb (fun pattern => str_includes lowerText pattern) uiPatterns.

(** ** [findCurrentQuestion] *)

Definition prominentSelectors : list string :=
  ["h1"; "h2"; "h3"; ".word"; ".question"; ".vocab";
   WocabeeConfig.classHas "word"; WocabeeConfig.classHas "question";
   ".big"; ".large"; ".main"; ".primary"; "strong"; "b"; "em"]%string.

Definition tagIs (el : Element) (tags : list string) : bool :=
  existsb (String.eqb (tagName el)) tags.

(** The body of the inner loop of the first strategy: the text to return
    for this element, if it qualifies. *)
Definition prominentText (el : Element) : option jsstring :=
  if tagIs el ["INPUT"; "BUTTON"; "A"]%string then None else
  if 3 <? childCount el then None else
  let text := getText el in
  if negb (isEmpty text) && (1 <=? length text) && (length text <? 100) then
    if isUIText (toLowerCase text) then None else
    if gt (rectWidth el) zero && gt (rectHeight el) zero then Some text
    else None
  else None.

Fixpoint firstSome (A B : Type) (f : A -> option B) (l : list A) : option B :=
  match l with
  | [] => None
  | x :: r => match f x with Some y => Some y | None => firstSome f r end
  end.

Definition prominentScan (doc : Document) : option jsstring :=
  firstSome (fun sel =>
               match querySelectorAll doc None sel with
               | Some elements => firstSome prominentText elements
               | None => None
               end)
            prominentSelectors.

(** The filters of the second strategy: the text of an element that takes
    part in the scoring. *)
Definition scoringText (el : Element) : option jsstring :=
  if tagIs el ["SCRIPT"; "STYLE"; "INPUT"; "BUTTON"; "A"; "HTML"; "BODY";
               "HEAD"]%string then None else
  if 2 <? childCount el then None else
  let text := getText el in
  if isEmpty text || (length text <? 2) || (100 <? length text) then None else
  if isUIText (toLowerCase text) then None else
  if same (rectWidth el) zero || same (rectHeight el) zero then None else
  Some text.

(** The score of an element. *)
Definition score (doc : Document) (el : Element) : num :=
  let fontSize :=
    match fontSize el with
    | Some px => if same px zero then twelve else px
    | None => twelve
    end in
  let isInViewport :=
    ge (rectTop el) zero && lt (rectTop el) (half (innerHeight doc)) in
  let s0 := fontSize in
  let s1 := if isInViewport then times2 s0 else s0 in
  let s2 := if isHeadingTag (tagName el) then times1_5 s1 else s1 in
  if negb (isEmpty (className el)) && matchesWordClass (className el)
  then times2 s2 else s2.

(** One iteration of the scoring loop on [(bestCandidate, bestScore)]. *)
Definition scoreStep (doc : Document) (best : option jsstring * num)
    (el : Element) : option jsstring * num :=
  match scoringText el with
  | None => best
  | Some text =>
    if gt (score doc el) (snd best) then (Some text, score doc el) else best
  end.

Definition scoreScan (doc : Document) : option jsstring :=
  fst (fold_left (scoreStep doc) (allElements doc) (None, zero)).

Definition configuredQuestion (doc : Document) : option jsstring :=
  match find doc WocabeeConfig.questionWord None with
  | Some question =>
    let text := getText question in
    if negb (isEmpty text) && negb (isUIText (toLowerCase text))
    then Some text else None
  | None => None
  end.

Definition findCurrentQuestion (doc : Document) : option jsstring :=
  match prominentScan doc with
  | Some text => Some text
  | None =>
    match scoreScan doc with
    | Some text => Some text
    | None => configuredQuestion doc
    end
  end.

(** ** Exercise classification *)

(** [findAnswerOptions()] *)
Definition findAnswerOptions (doc : Document) : list Element :=
  filter (fun opt =>
            let text := getText opt in
            negb (isEmpty text) && (0 <? length text) && (length text <? 200))
         (findAll doc WocabeeConfig.answerOptions None).

(** [findAnswerInput()] *)
Definition findAnswerInput (doc : Document) : option Element :=
  find doc WocabeeConfig.answerInput None.

(** [extractWordPairs()] *)
Definition extractWordPairs (doc : Document) : list (jsstring * jsstring) :=
  flat_map
    (fun item =>
       match find doc WocabeeConfig.sourceWord (Some item),
             find doc WocabeeConfig.targetWord (Some item) with
       | Some source, Some target =>
         let sourceText := getText source in
         let targetText := getText target in
         if negb (isEmpty sourceText) && negb (isEmpty targetText)
         then [(sourceText, targetText)] else []
       | _, _ =>
         match cellsOf doc item with
         | c0 :: c1 :: _ =>
           let sourceText := getText c0 in
           let targetText := getText c1 in
           if negb (isEmpty sourceText) && negb (isEmpty targetText)
           then [(sourceText, targetText)] else []
         | _ => []
         end
       end)
    (findAll doc WocabeeConfig.wordPair None).

Definition present (A : Type) (o : option A) : bool :=
  match o with Some _ => true | None => false end.

(** [detectExerciseType()]; [None] is the source's [null]. *)
Definition detectExerciseType (doc : Document) : option ExerciseType :=
  let options := findAnswerOptions doc in
  if 2 <=? length options then Some Selection else
  let input := findAnswerInput doc in
  if present input then Some Typing else
  if present (find doc WocabeeConfig.gameContainer None) then Some Game else
  if present (find doc WocabeeConfig.testContainer None) then Some Test else
  let pairs := extractWordPairs doc in
  if 0 <? length pairs then Some Vocabulary else
  None.

End WithPlatform.

End WocabeeDom.

(** * The feedback tracker ([content/observer.js]) *)

Module WocabeeObserver.
Import JS Json WocabeeState WocabeeDom.

(** ** The regular expressions of the answer extractors

    A small backtracking matcher in continuation-passing style: enough for
    sequences, alternatives, greedy options and greedy repetition of a
    character class, which is all the source's patterns use. *)

Inductive regex :=
| REps
| RChar (p : N -> bool)
| RSeq (r1 r2 : regex)
| RAlt (r1 r2 : regex)
| ROpt (r : regex)
| RStar (p : N -> bool).

Section Matcher.
Variable A : Type.

Fixpoint starClass (p : N -> bool) (s : jsstring)
    (k : jsstring -> option A) : option A :=
  match s with
  | c :: s' =>
    if p c then
      match starClass p s' k with
      | Some x => Some x
      | None => k s
      end
    else k s
  | [] => k s
  end.

Fixpoint matchRe (r : regex) (s : jsstring)
    (k : jsstring -> option A) : option A :=
  match r with
  | REps => k s
  | RChar p =>
    match s with
    | c :: s' => if p c then k s' else None
    | [] => None
    end
  | RSeq r1 r2 => matchRe r1 s (fun s' => matchRe r2 s' k)
  | RAlt r1 r2 =>
    match matchRe r1 s k with
    | Some x => Some x
    | None => matchRe r2 s k
    end
  | ROpt r1 =>
    match matchRe r1 s k with
    | Some x => Some x
    | None => k s
    end
  | RStar p => starClass p s k
  end.

(** The leftmost match, as [String.prototype.match] finds it. *)
Fixpoint searchRe (r : regex) (s : jsstring)
    (k : jsstring -> option A) : option A :=
  match matchRe r s k with
  | Some x => Some x
  | None =>
    match s with
    | [] => None
    | _ :: s' => searchRe r s' k
    end
  end.

End Matcher.

(** The code units that match a pattern character under the [i] flag, for
    the characters that occur in the source's patterns. *)
Definition caseVariants (p : N) : list N :=
  if ((97 <=? p) && (p <=? 122))%N then [p; (p - 32)%N]
  else if (p =? 0xE2)%N then [0xE2%N; 0xC2%N]
  else if (p =? 0x153)%N then [0x153%N; 0x152%N]
  else [p].

Definition matchesIgnoreCase (p c : N) : bool :=
  existsb (N.eqb c) (caseVariants p).

Definition ciLit (s : string) : regex :=
  fold_right (fun p r => RSeq (RChar (matchesIgnoreCase p)) r) REps (lit s).

Definition colonOrSpace (c : N) : bool := (c =? 58)%N || isWhiteSpace c.

Definition plusClass (p : N -> bool) : regex := RSeq (RChar p) (RStar p).

Definition isLineTerminator (c : N) : bool :=
  ((c =? 10) || (c =? 13) || (c =? 0x2028) || (c =? 0x2029))%N.

(** The final group [(.+)]: greedy, so it takes the rest of the line. *)
Definition captureRest (s : jsstring) : option jsstring :=
  match takeWhile (fun c => negb (isLineTerminator c)) s with
  | [] => None
  | capture => Some capture
  end.

(** The five patterns of [findRevealedAnswer], each up to its final group. *)
Definition revealPatterns : list regex :=
  [ RSeq (ciLit "correct")
      (RSeq (RStar isWhiteSpace)
         (RSeq (ROpt (ciLit "answer"))
            (RSeq (ROpt (RSeq (RStar isWhiteSpace) (ciLit "is")))
               (plusClass colonOrSpace))));
    RSeq (ciLit "right")
      (RSeq (RStar isWhiteSpace)
         (RSeq (ROpt (ciLit "answer"))
            (RSeq (ROpt (RSeq (RStar isWhiteSpace) (ciLit "is")))
               (plusClass colonOrSpace))));
    RSeq (ciLit "should")
      (RSeq (RStar isWhiteSpace)
         (RSeq (RAlt (ciLit "be") (ciLit "have been"))
            (plusClass colonOrSpace)));
    RSeq (ciLit "answer") (plusClass colonOrSpace);
    RSeq (ciLit "solution") (plusClass colonOrSpace) ].

(** The alternatives of the pattern that [findCorrectAnswer] deletes from
    the feedback text, in source order. *)
Definition feedbackWords : list jsstring :=
  map lit ["correct"; "right"; "good"; "great"; "excellent"; "super";
           "âœ“"; "âœ”"; "!"]%string.

Fixpoint isPrefixIgnoreCase (alt s : jsstring) : bool :=
  match alt, s with
  | [], _ => true
  | p :: alt', c :: s' => matchesIgnoreCase p c && isPrefixIgnoreCase alt' s'
  | _ :: _, [] => false
  end.

Definition matchedWord (s : jsstring) : option jsstring :=
  List.find (fun alt => isPrefixIgnoreCase alt s) feedbackWords.

(** [text.replace(/(...)/gi, '')]: [skip] counts the code units of the match
    in progress that are still to be dropped. *)
Fixpoint removeFeedbackWords (skip : nat) (s : jsstring) : jsstring :=
  match s with
  | [] => []
  | c :: r =>
    match skip with
    | S n => removeFeedbackWords n r
    | O =>
      match matchedWord s with
      | Some alt => removeFeedbackWords (length alt - 1) r
      | None => c :: removeFeedbackWords 0 r
      end
    end
  end.

Section WithPlatform.
Context {CM : CaseMapping} {NO : NumberOps}.

(** ** [findCorrectAnswer] and [findRevealedAnswer]

    [None] is the source's [null]; an element without text gives the empty
    string. *)

Definition answerFromInput (doc : Document) : option jsstring :=
  match findAnswerInput doc with
  | Some input =>
    match inputValue input with
    | Some v =>
      if negb (isEmpty v) && (0 <? length (trim v)) then Some (trim v)
      else None
    | None => None
    end
  | None => None
  end.

Definition answerFromActive (doc : Document) : option jsstring :=
  match WocabeeDom.find doc WocabeeConfig.activeAnswer None with
  | Some activeAnswer =>
    let answer := getText activeAnswer in
    if negb (isEmpty answer) && negb (isUIText (toLowerCase answer))
    then Some answer else None
  | None => None
  end.

Definition answerFromSuccess (doc : Document) : option jsstring :=
  match WocabeeDom.find doc WocabeeConfig.correctFeedback None with
  | Some successEl =>
    let text := getText successEl in
    let filtered := trim (removeFeedbackWords 0 text) in
    if negb (isEmpty filtered) && (0 <? length filtered)
       && (length filtered <? 100)
    then Some filtered else None
  | None => None
  end.

Definition findCorrectAnswer (doc : Document) : option jsstring :=
  match answerFromInput doc with
  | Some answer => Some answer
  | None =>
    match WocabeeDom.find doc WocabeeConfig.highlightedCorrect None with
    | Some highlightedCorrect => Some (getText highlightedCorrect)
    | None =>
      match answerFromActive doc with
      | Some answer => Some answer
      | None => answerFromSuccess doc
      end
    end
  end.

Definition answerFromError (doc : Document) : option jsstring :=
  match WocabeeDom.find doc WocabeeConfig.incorrectFeedback None with
  | Some errorEl =>
    let text := getText errorEl in
    match firstSome (fun pattern => searchRe pattern text captureRest)
                    revealPatterns with
    | Some capture => Some (trim capture)
    | None => None
    end
  | None => None
  end.

Definition markedCorrect (doc : Document) (opt : Element) : bool :=
  includes (classList opt) (lit "correct")
  || match dataCorrect opt with
     | Some v => eqb v (lit "true")
     | None => false
     end
  || hasCorrectMark doc opt.

Definition findRevealedAnswer (doc : Document) : option jsstring :=
  match WocabeeDom.find doc WocabeeConfig.revealedAnswer None with
  | Some revealed => Some (getText revealed)
  | None =>
    match WocabeeDom.find doc WocabeeConfig.correctOption None with
    | Some correctOption => Some (getText correctOption)
    | None =>
      match answerFromError doc with
      | Some answer => Some answer
      | None =>
        match List.find (markedCorrect doc) (findAnswerOptions doc) with
        | Some opt => Some (getText opt)
        | None => None
        end
      end
    end
  end.

(** ** The tracker *)

Record Tracker := {
  lastQuestion : option jsstring;
  isWaitingForResult : bool
}.

Inductive LearnKind := LearnedCorrect | LearnedCorrection.

(** A learning notification shown to the user. *)
Record LearnEvent := {
  eventQuestion : jsstring;
  eventAnswer : jsstring;
  eventKind : LearnKind
}.

(** What one pass reads and writes: the tracker's two fields, the word
    store and the notifications shown so far. *)
Record World := {
  tracker : Tracker;
  store : State;
  events : list LearnEvent
}.

Definition initialWorld : World :=
  {| tracker := {| lastQuestion := None; isWaitingForResult := false |};
     store := emptyState; events := [] |}.

(** The common body of [learnFromCorrectAnswer] and
    [learnFromIncorrectAnswer], which differ in the extractor and in the
    kind of notification. *)
Definition learnFrom (extracted : option jsstring) (kind : LearnKind)
    (w : World) : World :=
  match lastQuestion (tracker w) with
  | None => w
  | Some question =>
    if isEmpty question then w else
    let w1 :=
      match extracted with
      | Some correctAnswer =>
        if negb (isEmpty correctAnswer) && (0 <? length correctAnswer) then
          let (st', added) :=
            addWord (VStr question) (VStr correctAnswer) (store w) in
          {| tracker := tracker w; store := st';
             events := if added
                       then events w ++ [{| eventQuestion := question;
                                            eventAnswer := correctAnswer;
                                            eventKind := kind |}]
                       else events w |}
        else w
      | None => w
      end in
    {| tracker := {| lastQuestion := lastQuestion (tracker w1);
                     isWaitingForResult := false |};
       store := store w1; events := events w1 |}
  end.

Definition learnFromCorrectAnswer (doc : Document) (w : World) : World :=
  learnFrom (findCorrectAnswer doc) LearnedCorrect w.

Definition learnFromIncorrectAnswer (doc : Document) (w : World) : World :=
  learnFrom (findRevealedAnswer doc) LearnedCorrection w.

Definition sameQuestion (text : jsstring) (last : option jsstring) : bool :=
  match last with
  | Some q => eqb text q
  | None => false
  end.

(** [checkForFeedbackAndLearn()] on one snapshot of the page.  The only
    write to the page during a pass is the notification shown after a
    successful [addWord]; by then [isWaitingForResult] is false, so the
    query that follows cannot change the outcome and one snapshot serves
    the whole pass. *)
Definition checkForFeedbackAndLearn (doc : Document) (w : World) : World :=
  let w1 :=
    match findCurrentQuestion doc with
    | Some currentQuestion =>
      if negb (isEmpty currentQuestion) && (0 <? length currentQuestion)
         && negb (sameQuestion currentQuestion (lastQuestion (tracker w)))
      then {| tracker := {| lastQuestion := Some currentQuestion;
                            isWaitingForResult := true |};
              store := store w; events := events w |}
      else w
    | None => w
    end in
  match lastQuestion (tracker w1) with
  | None => w1
  | Some question =>
    if isEmpty question then w1 else
    let correctFeedback :=
      WocabeeDom.find doc WocabeeConfig.correctFeedback None in
    let w2 :=
      if present correctFeedback && isWaitingForResult (tracker w1)
      then learnFromCorrectAnswer doc w1 else w1 in
    let incorrectFeedback :=
      WocabeeDom.find doc WocabeeConfig.incorrectFeedback None in
    if present incorrectFeedback && isWaitingForResult (tracker w2)
    then learnFromIncorrectAnswer doc w2 else w2
  end.

(** ** Indexing a vocabulary page *)

(** [indexVocabulary()]: the store after the call and the count shown in
    the indexing notification, when one is shown. *)
Definition indexVocabulary (doc : Document) (st : State)
    : State * option nat :=
  let pairs := extractWordPairs doc in
  if 0 <? length pairs then
    let (st', added) :=
      addWords (map (fun p => (VStr (fst p), VStr (snd p))) pairs) st in
    (st', if 0 <? added then Some added else None)
  else (st, None).

End WithPlatform.

(** ** The throttle of [processChanges]

    Times are the integer milliseconds of [Date.now()], content sizes the
    length of the page text.  [lastContentLength] is unset at start, which
    the source reads as 0. *)

Record Throttle := {
  lastProcessedTime : Z;
  lastContentLength : Z
}.

Definition initialThrottle : Throttle :=
  {| lastProcessedTime := 0; lastContentLength := 0 |}.

(** The two early returns at the head of [processChanges]: the fields after
    the call, and whether the call goes on to read the page. *)
Definition processChangesGuard (now currentContent : Z) (th : Throttle)
    : Throttle * bool :=
  if (now - lastProcessedTime th <? 500)%Z then (th, false)
  else if (Z.abs (currentContent - lastContentLength th) <? 10)%Z
  then ({| lastProcessedTime := now;
           lastContentLength := lastContentLength th |}, false)
  else ({| lastProcessedTime := now;
           lastContentLength := currentContent |}, true).

End WocabeeObserver.

(** * Facts about strings and maps *)

Module JSFacts.
Import JS.

Lemma eqb_eq (s t : jsstring) : eqb s t = true <-> s = t.
Proof.
  revert t; induction s as [|c s IH]; intros [|d t]; simpl; split;
    try congruence; try reflexivity.
  - intros H. apply andb_true_iff in H as [Hc Hs].
    apply N.eqb_eq in Hc. apply IH in Hs. congruence.
  - intros H. injection H as -> ->. rewrite N.eqb_refl. simpl.
    now apply IH.
Qed.

Lemma eqb_refl (s : jsstring) : eqb s s = true.
Proof. now apply eqb_eq. Qed.

Lemma eqb_neq (s t : jsstring) : eqb s t = false <-> s <> t.
Proof.
  split.
  - intros H E. apply eqb_eq in E. congruence.
  - intros H. destruct (eqb s t) eqn:E; [|reflexivity].
    apply eqb_eq in E. contradiction.
Qed.

Lemma eqb_sym (s t : jsstring) : eqb s t = eqb t s.
Proof.
  destruct (eqb s t) eqn:E.
  - apply eqb_eq in E. subst. symmetry. apply eqb_refl.
  - symmetry. apply eqb_neq. apply eqb_neq in E. congruence.
Qed.

Lemma includes_In (l : list jsstring) (x : jsstring) :
  includes l x = true <-> In x l.
Proof.
  unfold includes. rewrite existsb_exists. split.
  - intros [y [Hy E]]. apply eqb_eq in E. now subst.
  - intros H. exists x. split; [assumption | apply eqb_refl].
Qed.

Lemma includes_not_In (l : list jsstring) (x : jsstring) :
  includes l x = false <-> ~ In x l.
Proof.
  rewrite <- includes_In. destruct (includes l x); split; congruence.
Qed.

End JSFacts.

Module JSMapFacts.
Import JS JSFacts JSMap.

Section Laws.
Variable V : Type.
Implicit Types (m : JSMap.t V) (k : jsstring) (v : V).

Lemma get_set_same m k v : get (set m k v) k = Some v.
Proof.
  induction m as [|[k' v'] m IH]; simpl.
  - now rewrite eqb_refl.
  - destruct (eqb k k') eqn:E; simpl.
    + now rewrite eqb_refl.
    + now rewrite E.
Qed.

Lemma get_set_other m k k' v : k' <> k -> get (set m k v) k' = get m k'.
Proof.
  intros Hne. induction m as [|[k0 v0] m IH]; simpl.
  - apply eqb_neq in Hne. now rewrite Hne.
  - destruct (eqb k k0) eqn:E; simpl.
    + apply eqb_eq in E. subst k0.
      apply eqb_neq in Hne. now rewrite Hne.
    + destruct (eqb k' k0); [reflexivity | exact IH].
Qed.

Lemma get_set m k k' v :
  get (set m k v) k' = if eqb k' k then Some v else get m k'.
Proof.
  destruct (eqb k' k) eqn:E.
  - apply eqb_eq in E. subst. apply get_set_same.
  - apply eqb_neq in E. now apply get_set_other.
Qed.

Lemma has_set m k k' v :
  has (set m k v) k' = eqb k' k || has m k'.
Proof.
  unfold has. rewrite get_set. now destruct (eqb k' k).
Qed.

Lemma set_set m k v v' : set (set m k v) k v' = set m k v'.
Proof.
  induction m as [|[k0 v0] m IH]; simpl.
  - now rewrite eqb_refl.
  - destruct (eqb k k0) eqn:E; simpl.
    + now rewrite eqb_refl.
    + now rewrite E, IH.
Qed.

Lemma has_false_get m k : has m k = false <-> get m k = None.
Proof. unfold has. destruct (get m k); split; congruence. Qed.

Lemma has_true_get m k : has m k = true <-> exists v, get m k = Some v.
Proof.
  unfold has. destruct (get m k) as [v|]; split; try congruence.
  - eauto.
  - intros [v H]. discriminate.
Qed.

Lemma has_keys m k : has m k = true <-> In k (keys m).
Proof.
  unfold has, keys. induction m as [|[k0 v0] m IH]; simpl.
  - split; [discriminate | tauto].
  - destruct (eqb k k0) eqn:E.
    + apply eqb_eq in E. subst. tauto.
    + apply eqb_neq in E. rewrite IH. split; [tauto|].
      intros [H|H]; [congruence | assumption].
Qed.

Lemma set_absent m k v : has m k = false -> set m k v = m ++ [(k, v)].
Proof.
  unfold has. induction m as [|[k0 v0] m IH]; simpl; [reflexivity|].
  destruct (eqb k k0) eqn:E; [discriminate|].
  intros H. now rewrite IH.
Qed.

Lemma keys_set_present m k v : has m k = true -> keys (set m k v) = keys m.
Proof.
  unfold has, keys. induction m as [|[k0 v0] m IH]; simpl; [discriminate|].
  destruct (eqb k k0) eqn:E; simpl.
  - apply eqb_eq in E. now subst.
  - intros H. now rewrite IH.
Qed.

Lemma size_set_present m k v : has m k = true -> size (set m k v) = size m.
Proof.
  intros H. unfold size. rewrite <- !(length_map fst).
  change (map fst (set m k v)) with (keys (set m k v)).
  now rewrite keys_set_present.
Qed.

End Laws.

End JSMapFacts.

(** * Facts about the word store *)

Module StoreFacts.
Import JS Json JSFacts JSMap JSMapFacts WocabeeState.

Lemma getOr_set m k k' v :
  getOr (set m k v) k' = if eqb k' k then v else getOr m k'.
Proof. unfold getOr. rewrite get_set. now destruct (eqb k' k). Qed.

Lemma getOr_absent m k : has m k = false -> getOr m k = [].
Proof. unfold getOr, has. now destruct (get m k). Qed.

Lemma getOr_In_has m k x : In x (getOr m k) -> has m k = true.
Proof.
  destruct (has m k) eqn:E; [reflexivity|].
  rewrite (getOr_absent _ _ E). contradiction.
Qed.

Lemma state_eta (st : State) :
  {| wordDatabase := wordDatabase st; reverseDatabase := reverseDatabase st;
     wordsIndexed := wordsIndexed st; answersHelped := answersHelped st |} = st.
Proof. now destruct st. Qed.

(** What [commitPair] computes, in terms of the two maps. *)
Definition pushed (m : JSMap.t (list jsstring)) (k x : jsstring)
    : JSMap.t (list jsstring) :=
  set m k (getOr m k ++ [x]).

Lemma In_pushed m k x k' y :
  In y (getOr (pushed m k x) k') <->
  In y (getOr m k') \/ (k' = k /\ y = x).
Proof.
  unfold pushed. rewrite getOr_set.
  destruct (eqb k' k) eqn:E.
  - apply eqb_eq in E. subst k'. rewrite in_app_iff. simpl.
    intuition congruence.
  - apply eqb_neq in E. intuition congruence.
Qed.

(** ** Rebuilding the reverse index *)

Lemma rebuild_step (rv : JSMap.t (list jsstring)) (target source : jsstring) :
  set (if has rv target then rv else set rv target []) target
      (getOr (if has rv target then rv else set rv target []) target
       ++ [source])
  = pushed rv target source.
Proof.
  unfold pushed. destruct (has rv target) eqn:E; [reflexivity|].
  rewrite getOr_set, eqb_refl, set_set, (getOr_absent _ _ E). reflexivity.
Qed.

Lemma In_get (V : Type) (m : JSMap.t V) (k : jsstring) (v : V) :
  NoDup (keys m) -> In (k, v) m -> get m k = Some v.
Proof.
  unfold keys. induction m as [|[k0 v0] m IH]; simpl; [contradiction|].
  intros Hnd Hin. apply NoDup_cons_iff in Hnd as [Hout Hnd].
  destruct Hin as [H|H].
  - injection H as -> ->. now rewrite eqb_refl.
  - destruct (eqb k k0) eqn:E.
    + apply eqb_eq in E. subst k0. exfalso. apply Hout.
      apply in_map_iff. now exists (k, v).
    + now apply IH.
Qed.

Lemma get_Some_In (V : Type) (m : JSMap.t V) (k : jsstring) (v : V) :
  get m k = Some v -> In (k, v) m.
Proof.
  induction m as [|[k0 v0] m IH]; simpl; [discriminate|].
  destruct (eqb k k0) eqn:E.
  - apply eqb_eq in E. subst. intros H. injection H as ->. now left.
  - auto.
Qed.

(** After [rebuildReverseDatabase] the reverse index is the inversion of
    the primary mapping. *)
Lemma rebuild_is_inversion (st : State) :
  NoDup (keys (wordDatabase st)) ->
  forall s t,
    In s (getOr (reverseDatabase (rebuildReverseDatabase st)) t)
    <-> In t (getOr (wordDatabase st) s).
Proof.
  intros Hnd s t. unfold rebuildReverseDatabase. cbn [reverseDatabase].
  assert (Hinner : forall k l rv,
            In s (getOr (fold_left
                           (fun rv target =>
                              let rv1 := if has rv target then rv
                                         else set rv target [] in
                              set rv1 target (getOr rv1 target ++ [k]))
                           l rv) t)
            <-> In s (getOr rv t) \/ (s = k /\ In t l)).
  { intros k l. induction l as [|x l IH]; intros rv; cbn [fold_left].
    - simpl. tauto.
    - rewrite IH. cbv zeta.
      rewrite (rebuild_step rv x k), In_pushed. simpl. intuition congruence. }
  assert (Houter : forall db rv,
            In s (getOr (fold_left
                           (fun rv kv =>
                              fold_left
                                (fun rv target =>
                                   let rv1 := if has rv target then rv
                                              else set rv target [] in
                                   set rv1 target
                                       (getOr rv1 target ++ [fst kv]))
                                (snd kv) rv)
                           db rv) t)
            <-> In s (getOr rv t) \/ exists l, In (s, l) db /\ In t l).
  { induction db as [|[k l] db IH]; intros rv; cbn [fold_left].
    - simpl. split; [auto | intros [H|[l [[] _]]]; exact H].
    - rewrite IH. cbn [fst snd]. rewrite Hinner. simpl. split.
      + intros [[H|[-> H]]|[l' [H1 H2]]]; eauto.
      + intros [H|[l' [[E|H1] H2]]]; eauto.
        injection E as -> ->. auto. }
  rewrite Houter. simpl. split.
  - intros [[]|[l [H1 H2]]]. unfold getOr.
    now rewrite (In_get _ _ _ Hnd H1).
  - intros H. right. unfold getOr in H.
    destruct (get (wordDatabase st) s) as [l|] eqn:E; [|contradiction].
    exists l. split; [now apply get_Some_In | assumption].
Qed.

Section WithCaseMapping.
Context {CM : CaseMapping}.

Lemma commitPair_spec (source target : jsstring) (st : State) :
  commitPair source target st =
  if includes (getOr (wordDatabase st) source) target then (st, false)
  else ({| wordDatabase := pushed (wordDatabase st) source target;
           reverseDatabase :=
             if includes (getOr (reverseDatabase st) target) source
             then reverseDatabase st
             else pushed (reverseDatabase st) target source;
           wordsIndexed := wordsIndexed st + 1;
           answersHelped := answersHelped st |}, true).
Proof.
  unfold commitPair, pushed.
  destruct (has (wordDatabase st) source) eqn:Hs.
  - destruct (includes (getOr (wordDatabase st) source) target) eqn:Hi; simpl.
    + now rewrite state_eta.
    + destruct (has (reverseDatabase st) target) eqn:Ht.
      * destruct (includes (getOr (reverseDatabase st) target) source);
          reflexivity.
      * rewrite getOr_set, eqb_refl. simpl.
        rewrite set_set, (getOr_absent _ _ Ht). reflexivity.
  - rewrite getOr_set, eqb_refl, (getOr_absent _ _ Hs). simpl.
    rewrite set_set.
    destruct (has (reverseDatabase st) target) eqn:Ht.
    + destruct (includes (getOr (reverseDatabase st) target) source);
        reflexivity.
    + rewrite getOr_set, eqb_refl. simpl.
      rewrite set_set, (getOr_absent _ _ Ht). reflexivity.
Qed.

Lemma addWord_rejected a b st :
  passesValidation a b = false -> addWord a b st = (st, false).
Proof. unfold addWord. now intros ->. Qed.

Lemma addWord_valid a b st :
  passesValidation a b = true ->
  addWord a b st = commitPair (normalizeWord a) (normalizeWord b) st.
Proof. unfold addWord. now intros ->. Qed.

Lemma addWord_true a b st st' :
  addWord a b st = (st', true) ->
  passesValidation a b = true
  /\ ~ In (normalizeWord b) (getOr (wordDatabase st) (normalizeWord a))
  /\ wordDatabase st' = pushed (wordDatabase st) (normalizeWord a) (normalizeWord b)
  /\ reverseDatabase st' =
       (if includes (getOr (reverseDatabase st) (normalizeWord b)) (normalizeWord a)
        then reverseDatabase st
        else pushed (reverseDatabase st) (normalizeWord b) (normalizeWord a)).
Proof.
  unfold addWord. destruct (passesValidation a b) eqn:Hv; [|discriminate].
  rewrite commitPair_spec.
  destruct (includes _ _) eqn:Hi; [discriminate|].
  intros H. injection H as <-. simpl.
  apply includes_not_In in Hi. auto.
Qed.

Lemma addWord_false a b st st' :
  addWord a b st = (st', false) -> st' = st.
Proof.
  unfold addWord. destruct (passesValidation a b); [|congruence].
  rewrite commitPair_spec.
  destruct (includes _ _); [congruence | discriminate].
Qed.

(** Translations are only ever added. *)
Lemma addWord_keeps a b st s t :
  In t (getOr (wordDatabase st) s) ->
  In t (getOr (wordDatabase (fst (addWord a b st))) s).
Proof.
  intros H. destruct (addWord a b st) as [st' r] eqn:E. simpl. destruct r.
  - apply addWord_true in E as [_ [_ [Hdb _]]]. rewrite Hdb.
    unfold pushed. rewrite getOr_set.
    destruct (eqb s (normalizeWord a)) eqn:Es; [|assumption].
    apply eqb_eq in Es. subst s. apply in_or_app. now left.
  - apply addWord_false in E. now subst.
Qed.

(** A pair that passes the guards is in the store after the call. *)
Lemma addWord_stores a b st :
  passesValidation a b = true ->
  In (normalizeWord b)
     (getOr (wordDatabase (fst (addWord a b st))) (normalizeWord a)).
Proof.
  intros Hv. rewrite (addWord_valid _ _ _ Hv), commitPair_spec.
  destruct (includes _ _) eqn:Hi; simpl.
  - now apply includes_In.
  - unfold pushed. rewrite getOr_set, eqb_refl.
    apply in_or_app. right. now left.
Qed.

(** The sum of the lengths of the translation lists. *)
Definition sumLengths (m : JSMap.t (list jsstring)) : nat :=
  list_sum (map (fun kv => length (snd kv)) m).

Lemma totalTranslations_sum st :
  totalTranslations st = sumLengths (wordDatabase st).
Proof.
  unfold totalTranslations, sumLengths.
  assert (G : forall (m : JSMap.t (list jsstring)) n,
             fold_left (fun sum kv => sum + length (snd kv)) m n
             = n + list_sum (map (fun kv => length (snd kv)) m)).
  { induction m as [|kv m IH]; intros n; simpl; [lia|]. rewrite IH. lia. }
  apply G.
Qed.

Lemma sumLengths_pushed m k x : sumLengths (pushed m k x) = S (sumLengths m).
Proof.
  unfold pushed, sumLengths, getOr.
  induction m as [|[k' v'] m IH]; simpl; [reflexivity|].
  destruct (eqb k k') eqn:E; simpl.
  - rewrite length_app. simpl. lia.
  - rewrite IH. lia.
Qed.

Lemma addWord_counts a b st :
  totalTranslations (fst (addWord a b st))
  = totalTranslations st + (if snd (addWord a b st) then 1 else 0).
Proof.
  destruct (addWord a b st) as [st' r] eqn:E. simpl. destruct r.
  - apply addWord_true in E as [_ [_ [Hdb _]]].
    rewrite !totalTranslations_sum, Hdb, sumLengths_pushed. lia.
  - apply addWord_false in E. subst. lia.
Qed.

(** ** The import loop as one pass over (source, target) pairs *)

Definition targetArray (targets : value) : list value :=
  match targets with
  | VArr elems => elems
  | other => [other]
  end.

Definition pairsOf (entries : list (jsstring * value))
    : list (jsstring * value) :=
  flat_map (fun e => map (pair (fst e)) (targetArray (snd e))) entries.

Definition importPairs (pairs : list (jsstring * value)) (acc : State * nat)
    : State * nat :=
  fold_left
    (fun acc p =>
       let (st', added) := addWord (VStr (fst p)) (snd p) (fst acc) in
       (st', if added then S (snd acc) else snd acc))
    pairs acc.

(** An entry is well formed when [addWord] does not reject it. *)
Definition wellFormed (p : jsstring * value) : bool :=
  passesValidation (VStr (fst p)) (snd p).

Lemma importTargets_pairs source targets acc :
  importTargets source targets acc
  = importPairs (map (pair source) targets) acc.
Proof.
  unfold importTargets, importPairs. revert acc.
  induction targets as [|t ts IH]; intros acc; simpl; [reflexivity|].
  apply IH.
Qed.

Lemma importPairs_app ps qs acc :
  importPairs (ps ++ qs) acc = importPairs qs (importPairs ps acc).
Proof. unfold importPairs. apply fold_left_app. Qed.

Lemma importEntries_pairs entries acc :
  importEntries entries acc = importPairs (pairsOf entries) acc.
Proof.
  unfold importEntries. revert acc.
  induction entries as [|e es IH]; intros acc; simpl; [reflexivity|].
  rewrite importPairs_app, IH. f_equal.
  rewrite importTargets_pairs. unfold targetArray.
  destruct (snd e); reflexivity.
Qed.

Lemma importPairs_skip ps acc :
  importPairs ps acc = importPairs (filter wellFormed ps) acc.
Proof.
  revert acc. induction ps as [|p ps IH]; intros acc; [reflexivity|].
  simpl filter. destruct (wellFormed p) eqn:W.
  - unfold importPairs in *. simpl. apply IH.
  - unfold importPairs in *. simpl.
    unfold wellFormed in W. rewrite (addWord_rejected _ _ _ W).
    rewrite <- IH. now destruct acc.
Qed.

Lemma importPairs_keeps ps acc s t :
  In t (getOr (wordDatabase (fst acc)) s) ->
  In t (getOr (wordDatabase (fst (importPairs ps acc))) s).
Proof.
  unfold importPairs. revert acc.
  induction ps as [|p ps IH]; intros acc H; simpl; [assumption|].
  apply IH.
  pose proof (addWord_keeps (VStr (fst p)) (snd p) (fst acc) s t H) as K.
  now destruct (addWord (VStr (fst p)) (snd p) (fst acc)).
Qed.

Lemma importPairs_stores ps acc p :
  In p ps -> wellFormed p = true ->
  In (normalizeWord (snd p))
     (getOr (wordDatabase (fst (importPairs ps acc)))
            (normalizeWord (VStr (fst p)))).
Proof.
  revert acc. induction ps as [|q ps IH]; intros acc Hin W; [contradiction|].
  destruct Hin as [->|Hin].
  - change (importPairs (p :: ps) acc)
      with (importPairs ps (importPairs [p] acc)).
    apply importPairs_keeps. unfold importPairs. simpl.
    pose proof (addWord_stores (VStr (fst p)) (snd p) (fst acc) W) as K.
    now destruct (addWord (VStr (fst p)) (snd p) (fst acc)).
  - change (importPairs (q :: ps) acc)
      with (importPairs ps (importPairs [q] acc)).
    now apply IH.
Qed.

Lemma importPairs_counts ps acc :
  totalTranslations (fst (importPairs ps acc)) + snd acc
  = totalTranslations (fst acc) + snd (importPairs ps acc).
Proof.
  unfold importPairs. revert acc.
  induction ps as [|p ps IH]; intros acc; simpl; [lia|].
  match goal with |- context [fold_left _ ps ?a] => specialize (IH a) end.
  pose proof (addWord_counts (VStr (fst p)) (snd p) (fst acc)) as K.
  destruct (addWord (VStr (fst p)) (snd p) (fst acc)) as [st' r].
  simpl in *. destruct r; lia.
Qed.

End WithCaseMapping.

End StoreFacts.

(** * The Latin case mapping satisfies the interface *)

Module LatinCase.
Import JS JSFacts.

Ltac split_tests :=
  repeat (match goal with
          | |- context [(?a <=? ?b)%N] => destruct (N.leb_spec a b)
          | |- context [(?a <? ?b)%N] => destruct (N.ltb_spec a b)
          | |- context [(?a =? ?b)%N] => destruct (N.eqb_spec a b)
          end; cbn [andb orb negb]; try lia).

Lemma lowerLatin_high (c : N) : (0x17E < c)%N -> lowerLatin c = [c].
Proof. intros H. unfold lowerLatin. split_tests; reflexivity. Qed.

Lemma isWhiteSpace_high (c : N) :
  (0x17E < c)%N -> forall x, In x (lowerLatin c) -> isWhiteSpace x = isWhiteSpace c.
Proof.
  intros H x Hx. rewrite (lowerLatin_high H) in Hx.
  destruct Hx as [<-|[]]. reflexivity.
Qed.

(** The three facts the interface needs, as one test on a code unit. *)
Definition unitOK (c : N) : bool :=
  (if isWhiteSpace c then eqb (lowerLatin c) [c]
   else forallb (fun x => negb (isWhiteSpace x)) (lowerLatin c)
        && negb (Nat.eqb (length (lowerLatin c)) 0))
  && forallb (fun x => eqb (lowerLatin x) [x]) (lowerLatin c).

Lemma unitOK_low : forallb unitOK (map N.of_nat (seq 0 384)) = true.
Proof. vm_compute. reflexivity. Qed.

Lemma unitOK_all (c : N) : unitOK c = true.
Proof.
  destruct (N.ltb_spec c 384) as [Hlt|Hge].
  - pose proof unitOK_low as H. rewrite forallb_forall in H.
    apply H. apply in_map_iff. exists (N.to_nat c). split.
    + apply N2Nat.id.
    + apply in_seq. lia.
  - assert (Hc : (0x17E < c)%N) by lia.
    unfold unitOK. rewrite (lowerLatin_high Hc).
    destruct (isWhiteSpace c) eqn:E; cbn [forallb length Nat.eqb negb];
      rewrite ?E, (lowerLatin_high Hc), !eqb_refl; reflexivity.
Qed.

Lemma lowerLatin_ws (c : N) : isWhiteSpace c = true -> lowerLatin c = [c].
Proof.
  intros H. pose proof (unitOK_all c) as K. unfold unitOK in K.
  rewrite H in K. apply andb_true_iff in K as [K _]. now apply eqb_eq.
Qed.

Lemma lowerLatin_not_ws (c : N) :
  isWhiteSpace c = false ->
  exists x xs, lowerLatin c = x :: xs
               /\ forall y, In y (x :: xs) -> isWhiteSpace y = false.
Proof.
  intros H. pose proof (unitOK_all c) as K. unfold unitOK in K.
  rewrite H in K. apply andb_true_iff in K as [K _].
  apply andb_true_iff in K as [K1 K2].
  destruct (lowerLatin c) as [|x xs]; [discriminate|].
  exists x, xs. split; [reflexivity|].
  intros y Hy. rewrite forallb_forall in K1.
  specialize (K1 y Hy). now destruct (isWhiteSpace y).
Qed.

Lemma lowerLatin_fixed (c x : N) : In x (lowerLatin c) -> lowerLatin x = [x].
Proof.
  intros Hx. pose proof (unitOK_all c) as K. unfold unitOK in K.
  apply andb_true_iff in K as [_ K]. rewrite forallb_forall in K.
  apply eqb_eq. now apply K.
Qed.

(** A unit-wise mapping [f] that keeps white space and maps every other
    unit to units that are not white space commutes with [dropWhile]. *)
Section UnitWise.
Variable f : N -> jsstring.
Hypothesis f_ws : forall c, isWhiteSpace c = true -> f c = [c].
Hypothesis f_not_ws : forall c, isWhiteSpace c = false ->
  exists x xs, f c = x :: xs /\ forall y, In y (x :: xs) -> isWhiteSpace y = false.

Lemma dropWhile_flat_map (s : jsstring) :
  dropWhile isWhiteSpace (flat_map f s) = flat_map f (dropWhile isWhiteSpace s).
Proof.
  induction s as [|c s IH]; simpl; [reflexivity|].
  destruct (isWhiteSpace c) eqn:E.
  - rewrite (f_ws _ E). simpl. now rewrite E.
  - destruct (f_not_ws _ E) as [x [xs [Hf Hall]]].
    simpl. rewrite Hf. simpl.
    now rewrite (Hall x (or_introl eq_refl)).
Qed.

End UnitWise.

Lemma rev_flat_map (f : N -> jsstring) (s : jsstring) :
  rev (flat_map f s) = flat_map (fun c => rev (f c)) (rev s).
Proof.
  induction s as [|c s IH]; simpl; [reflexivity|].
  rewrite rev_app_distr, IH, flat_map_app. simpl. now rewrite app_nil_r.
Qed.

Lemma flat_map_rev_rev (f : N -> jsstring) (s : jsstring) :
  rev (flat_map (fun c => rev (f c)) s) = flat_map f (rev s).
Proof.
  rewrite rev_flat_map. apply flat_map_ext. intros c. apply rev_involutive.
Qed.

Lemma lowerLatin_rev_ws (c : N) : isWhiteSpace c = true -> rev (lowerLatin c) = [c].
Proof. intros H. now rewrite (lowerLatin_ws _ H). Qed.

Lemma lowerLatin_rev_not_ws (c : N) :
  isWhiteSpace c = false ->
  exists x xs, rev (lowerLatin c) = x :: xs
               /\ forall y, In y (x :: xs) -> isWhiteSpace y = false.
Proof.
  intros H. destruct (lowerLatin_not_ws _ H) as [x [xs [Hf Hall]]].
  rewrite Hf. destruct (rev (x :: xs)) as [|y ys] eqn:E.
  - apply (f_equal (@length N)) in E. rewrite length_rev in E. discriminate.
  - exists y, ys. split; [reflexivity|].
    intros z Hz. apply Hall. apply in_rev. now rewrite E.
Qed.

Lemma toLowerCaseLatin_trim (s : jsstring) :
  toLowerCaseLatin (trim s) = trim (toLowerCaseLatin s).
Proof.
  unfold trim, trimEnd, trimStart, toLowerCaseLatin.
  rewrite (dropWhile_flat_map lowerLatin lowerLatin_ws lowerLatin_not_ws).
  rewrite (rev_flat_map lowerLatin).
  rewrite (dropWhile_flat_map (fun c => rev (lowerLatin c))
             lowerLatin_rev_ws lowerLatin_rev_not_ws).
  symmetry. apply flat_map_rev_rev.
Qed.

Lemma flat_map_fixed (f : N -> jsstring) (s : jsstring) :
  (forall x, In x s -> f x = [x]) -> flat_map f s = s.
Proof.
  induction s as [|c s IH]; simpl; intros H; [reflexivity|].
  rewrite (H c (or_introl eq_refl)). simpl. f_equal.
  apply IH. intros x Hx. apply H. now right.
Qed.

Lemma collapse_from_In (b : bool) (s : jsstring) (x : N) :
  In x (collapse_from b s) -> x = 32%N \/ In x s.
Proof.
  revert b; induction s as [|c s IH]; simpl; intros b H; [contradiction|].
  destruct (isWhiteSpace c).
  - destruct b.
    + destruct (IH _ H); auto.
    + destruct H as [<-|H]; [now left|]. destruct (IH _ H); auto.
  - destruct H as [<-|H]; [auto|]. destruct (IH _ H); auto.
Qed.

Lemma toLowerCaseLatin_collapse (s : jsstring) :
  toLowerCaseLatin (collapseWhitespace (toLowerCaseLatin s))
  = collapseWhitespace (toLowerCaseLatin s).
Proof.
  unfold toLowerCaseLatin at 1. apply flat_map_fixed.
  intros x Hx. apply collapse_from_In in Hx as [->|Hx]; [reflexivity|].
  unfold toLowerCaseLatin in Hx. apply in_flat_map in Hx as [c [_ Hc]].
  exact (lowerLatin_fixed _ _ Hc).
Qed.

#[export] Instance latin : CaseMapping := {|
  toLowerCase := toLowerCaseLatin;
  toLowerCase_trim := toLowerCaseLatin_trim;
  toLowerCase_collapse := toLowerCaseLatin_collapse
|}.

End LatinCase.

(** * The JSON codec: what is printed is read back *)

Module JsonFacts.
Import JS JSFacts Json.

Lemma list_length_ind (A : Type) (P : list A -> Prop) :
  (forall l, (forall l', length l' < length l -> P l') -> P l) ->
  forall l, P l.
Proof.
  intros H l. remember (length l) as n eqn:E. revert l E.
  induction n as [n IH] using lt_wf_ind. intros l ->.
  apply H. intros l' Hl'. now apply (IH (length l')).
Qed.

Ltac split_tests :=
  repeat (match goal with
          | |- context [(?a <=? ?b)%N] => destruct (N.leb_spec a b)
          | |- context [(?a <? ?b)%N] => destruct (N.ltb_spec a b)
          | |- context [(?a =? ?b)%N] => destruct (N.eqb_spec a b)
          end; cbn [andb orb negb]; try lia).

(** ** String literals *)

Lemma hexValue_hexDigit (n : N) : (n < 16)%N -> hexValue (hexDigit n) = Some n.
Proof.
  intros H. unfold hexDigit.
  destruct (N.ltb_spec n 10); unfold hexValue, isDigit;
    split_tests; f_equal; lia.
Qed.

Lemma hex4_escape (c : N) :
  (c < 65536)%N ->
  hex4 (hexDigit (c / 4096)) (hexDigit ((c / 256) mod 16))
       (hexDigit ((c / 16) mod 16)) (hexDigit (c mod 16)) = Some c.
Proof.
  intros H. unfold hex4.
  rewrite !hexValue_hexDigit.
  - f_equal. zify. Z.to_euclidean_division_equations. lia.
  - apply N.mod_lt. discriminate.
  - apply N.mod_lt. discriminate.
  - apply N.mod_lt. discriminate.
  - apply N.Div0.div_lt_upper_bound. lia.
Qed.

Lemma lexString_plain (c : N) (r : jsstring) :
  c <> 34%N -> c <> 92%N -> (32 <= c)%N ->
  lexString (c :: r) = consUnit c (lexString r).
Proof.
  intros H1 H2 H3. cbn [lexString].
  apply N.eqb_neq in H1, H2. rewrite H1, H2.
  destruct (N.ltb_spec c 32); [lia | reflexivity].
Qed.

Lemma lexString_unicodeEscape (c : N) (rest : jsstring) :
  (c < 65536)%N ->
  lexString (unicodeEscape c ++ rest) = consUnit c (lexString rest).
Proof.
  intros H. unfold unicodeEscape.
  change (lexString
            (92%N :: 117%N :: hexDigit (c / 4096) :: hexDigit ((c / 256) mod 16)
               :: hexDigit ((c / 16) mod 16) :: hexDigit (c mod 16) :: rest)
          = consUnit c (lexString rest)).
  cbn [lexString]. change ((92 =? 34)%N) with false.
  change ((92 =? 92)%N) with true. change ((117 =? 117)%N) with true.
  cbv iota. now rewrite hex4_escape.
Qed.

Lemma lexString_quoteUnit (c : N) (rest : jsstring) :
  lexString (quoteUnit c ++ rest) = consUnit c (lexString rest).
Proof.
  unfold quoteUnit.
  destruct (N.eqb_spec c 8) as [->|N8]; [reflexivity|].
  destruct (N.eqb_spec c 9) as [->|N9]; [reflexivity|].
  destruct (N.eqb_spec c 10) as [->|N10]; [reflexivity|].
  destruct (N.eqb_spec c 12) as [->|N12]; [reflexivity|].
  destruct (N.eqb_spec c 13) as [->|N13]; [reflexivity|].
  destruct (N.eqb_spec c 34) as [->|N34]; [reflexivity|].
  destruct (N.eqb_spec c 92) as [->|N92]; [reflexivity|].
  destruct (N.ltb_spec c 32) as [Hlt|Hge].
  - apply lexString_unicodeEscape. lia.
  - destruct (isHighSurrogate c || isLowSurrogate c) eqn:Hs.
    + apply lexString_unicodeEscape.
      unfold isHighSurrogate, isLowSurrogate in Hs.
      apply orb_true_iff in Hs as [Hs|Hs];
        apply andb_true_iff in Hs as [_ Hs]; apply N.leb_le in Hs; lia.
    + simpl. now apply lexString_plain.
Qed.

Lemma lexString_surrogate (c : N) (r : jsstring) :
  isHighSurrogate c || isLowSurrogate c = true ->
  lexString (c :: r) = consUnit c (lexString r).
Proof.
  intros Hs. unfold isHighSurrogate, isLowSurrogate in Hs.
  assert (0xD800 <= c)%N.
  { apply orb_true_iff in Hs as [Hs|Hs];
      apply andb_true_iff in Hs as [Hs _]; apply N.leb_le in Hs; lia. }
  apply lexString_plain; lia.
Qed.

(** Reading back a quoted string gives the string and what follows the
    closing quote. *)
Lemma lexString_quoteBody (s rest : jsstring) :
  lexString (quoteBody s ++ 34%N :: rest) = Some (s, rest).
Proof.
  induction s as [s IH] using list_length_ind.
  destruct s as [|c r]; [reflexivity|].
  cbn [quoteBody].
  destruct (isHighSurrogate c) eqn:Hc.
  - destruct r as [|d r'].
    + rewrite lexString_quoteUnit. reflexivity.
    + destruct (isLowSurrogate d) eqn:Hd.
      * cbn [app]. rewrite lexString_surrogate by (now rewrite Hc).
        rewrite lexString_surrogate by (rewrite Hd; apply orb_true_r).
        rewrite IH by (simpl; lia). reflexivity.
      * rewrite <- app_assoc, lexString_quoteUnit.
        rewrite IH by (simpl; lia). reflexivity.
  - rewrite <- app_assoc, lexString_quoteUnit.
    rewrite IH by (simpl; lia). reflexivity.
Qed.

(** ** The tokenizer never runs out of fuel *)

Lemma dropWhile_length (A : Type) (p : A -> bool) (l : list A) :
  length (dropWhile p l) <= length l.
Proof.
  induction l as [|x l IH]; simpl; [lia|].
  destruct (p x); simpl; lia.
Qed.

Lemma lexString_length (s str r : jsstring) :
  lexString s = Some (str, r) -> length r < length s.
Proof.
  revert str r. induction s as [s IH] using list_length_ind.
  intros str r. destruct s as [|c s1]; [discriminate|].
  cbn [lexString].
  destruct (c =? 34)%N.
  { intros H. injection H as _ <-. simpl. lia. }
  assert (Hcons : forall u t, length t < length (c :: s1) ->
            consUnit u (lexString t) = Some (str, r) ->
            length r < length (c :: s1)).
  { intros u t Ht. destruct (lexString t) as [[str' r']|] eqn:E;
      [|discriminate].
    simpl. intros H. injection H as _ <-.
    apply IH in E; [|exact Ht]. simpl in *. lia. }
  destruct (c =? 92)%N.
  - destruct s1 as [|e s2]; [discriminate|].
    destruct (e =? 117)%N.
    + destruct s2 as [|h1 [|h2 [|h3 [|h4 s3]]]]; try discriminate.
      destruct (hex4 h1 h2 h3 h4); [|discriminate].
      apply Hcons. simpl. lia.
    + destruct (unescape e); [|discriminate].
      apply Hcons. simpl. lia.
  - destruct (c <? 32)%N; [discriminate|].
    apply Hcons. simpl. lia.
Qed.

Lemma lexDigits_length (s ds r : jsstring) :
  lexDigits s = Some (ds, r) -> length r <= length s.
Proof.
  unfold lexDigits. destruct (takeWhile isDigit s); [discriminate|].
  intros H. injection H as _ <-. apply dropWhile_length.
Qed.

Lemma lexNumber_length (s lexeme r : jsstring) :
  lexNumber s = Some (lexeme, r) -> length r < length s.
Proof.
  unfold lexNumber.
  set (signed := match s with
                 | c :: r0 => if (c =? 45)%N then ([45%N], r0) else ([], s)
                 | [] => ([], s)
                 end).
  assert (Hs1 : length (snd signed) <= length s).
  { unfold signed. destruct s as [|c r0]; simpl; [lia|].
    destruct (c =? 45)%N; simpl; lia. }
  destruct signed as [sign s1]. simpl in Hs1.
  destruct s1 as [|c r1]; [discriminate|].
  set (intPart := if (c =? 48)%N then Some ([48%N], r1)
                  else if isDigit c
                       then Some (c :: takeWhile isDigit r1, dropWhile isDigit r1)
                       else None).
  assert (Hs2 : forall ip s2, intPart = Some (ip, s2) -> length s2 <= length r1).
  { unfold intPart. intros ip s2. destruct (c =? 48)%N.
    - intros H. injection H as _ <-. lia.
    - destruct (isDigit c); [|discriminate].
      intros H. injection H as _ <-. apply dropWhile_length. }
  destruct intPart as [[ip s2]|]; [|discriminate].
  specialize (Hs2 _ _ eq_refl).
  set (fracPart := match s2 with
                   | d :: r2 =>
                     if (d =? 46)%N
                     then match lexDigits r2 with
                          | Some (ds, s3) => Some (46%N :: ds, s3)
                          | None => None
                          end
                     else Some ([], s2)
                   | [] => Some ([], s2)
                   end).
  assert (Hs3 : forall fp s3, fracPart = Some (fp, s3) -> length s3 <= length s2).
  { unfold fracPart. intros fp s3. destruct s2 as [|d r2].
    - intros H. injection H as _ <-. lia.
    - destruct (d =? 46)%N.
      + destruct (lexDigits r2) as [[ds s3']|] eqn:E; [|discriminate].
        intros H. injection H as _ <-. apply lexDigits_length in E.
        simpl. lia.
      + intros H. injection H as _ <-. lia. }
  destruct fracPart as [[fp s3]|]; [|discriminate].
  specialize (Hs3 _ _ eq_refl).
  match goal with
  | |- match ?e with _ => _ end = _ -> _ => set (expPart := e)
  end.
  assert (Hs4 : forall ep s4, expPart = Some (ep, s4) -> length s4 <= length s3).
  { unfold expPart. intros ep s4. destruct s3 as [|e r3].
    - intros H. injection H as _ <-. lia.
    - destruct ((e =? 101) || (e =? 69))%N.
      + set (esigned := match r3 with
                        | g :: r4 => if ((g =? 43) || (g =? 45))%N
                                     then ([g], r4) else ([], r3)
                        | [] => ([], r3)
                        end).
        assert (He : length (snd esigned) <= length r3).
        { unfold esigned. destruct r3 as [|g r4]; simpl; [lia|].
          destruct ((g =? 43) || (g =? 45))%N; simpl; lia. }
        destruct esigned as [esign s4']. simpl in He.
        destruct (lexDigits s4') as [[ds s5]|] eqn:E; [|discriminate].
        intros H. injection H as _ <-. apply lexDigits_length in E.
        simpl. lia.
      + intros H. injection H as _ <-. lia. }
  destruct expPart as [[ep s4]|]; [|discriminate].
  specialize (Hs4 _ _ eq_refl).
  intros H. injection H as _ <-. simpl in *. lia.
Qed.

Lemma tokenize_fuel (f f' : nat) (s : jsstring) :
  length s < f -> length s < f' -> tokenize f s = tokenize f' s.
Proof.
  revert f' s. induction f as [|f IH]; intros f' s Hf Hf'; [lia|].
  destruct f' as [|f']; [lia|].
  destruct s as [|c r]; [reflexivity|].
  cbn [tokenize]. simpl in Hf, Hf'.
  assert (Hr : tokenize f r = tokenize f' r) by (apply IH; lia).
  assert (Hskip : forall n, tokenize f (skipn n (c :: r))
                            = tokenize f' (skipn n (c :: r)) \/ n = 0).
  { intros [|n]; [now right|left].
    apply IH; simpl; rewrite length_skipn; lia. }
  repeat match goal with
         | |- (if ?b then _ else _) = _ => destruct b
         end;
    try (rewrite Hr; reflexivity).
  - destruct (lexString r) as [[str r']|] eqn:E; [|reflexivity].
    apply lexString_length in E. f_equal. apply IH; lia.
  - destruct (Hskip 4) as [->|]; [reflexivity | discriminate].
  - destruct (Hskip 5) as [->|]; [reflexivity | discriminate].
  - destruct (Hskip 4) as [->|]; [reflexivity | discriminate].
  - destruct (lexNumber (c :: r)) as [[lexeme r']|] eqn:E; [|reflexivity].
    apply lexNumber_length in E. simpl in E. f_equal. apply IH; lia.
Qed.

(** Tokenizing with the fuel [JSON_parse] gives. *)
Definition tokens (s : jsstring) : option (list token) :=
  tokenize (S (length s)) s.

Lemma tokenize_space (f : nat) (c : N) (r : jsstring) :
  isJsonSpace c = true -> tokenize (S f) (c :: r) = tokenize f r.
Proof. intros H. cbn [tokenize]. now rewrite H. Qed.

Lemma tokenize_string (f : nat) (r str r' : jsstring) :
  lexString r = Some (str, r') ->
  tokenize (S f) (34%N :: r) = consToken (TString str) (tokenize f r').
Proof. intros H. cbn [tokenize]. simpl. now rewrite H. Qed.

Lemma tokenize_punct (f : nat) (c : N) (t : token) (r : jsstring) :
  In (c, t) [(123%N, TLBrace); (125%N, TRBrace); (91%N, TLBracket);
             (93%N, TRBracket); (58%N, TColon); (44%N, TComma)] ->
  tokenize (S f) (c :: r) = consToken t (tokenize f r).
Proof.
  intros H.
  repeat (destruct H as [H|H]; [injection H as <- <-; reflexivity|]).
  contradiction.
Qed.

Lemma tokens_nil : tokens [] = Some [].
Proof. reflexivity. Qed.

Lemma tokens_space (c : N) (r : jsstring) :
  isJsonSpace c = true -> tokens (c :: r) = tokens r.
Proof. intros H. unfold tokens. now rewrite tokenize_space. Qed.

Lemma tokens_string (s r : jsstring) :
  tokens (34%N :: quoteBody s ++ 34%N :: r) = consToken (TString s) (tokens r).
Proof.
  unfold tokens. erewrite tokenize_string by apply lexString_quoteBody.
  f_equal. apply tokenize_fuel; simpl; rewrite ?length_app; simpl; lia.
Qed.

Lemma tokens_punct (c : N) (t : token) (r : jsstring) :
  In (c, t) [(123%N, TLBrace); (125%N, TRBrace); (91%N, TLBracket);
             (93%N, TRBracket); (58%N, TColon); (44%N, TComma)] ->
  tokens (c :: r) = consToken t (tokens r).
Proof. intros H. unfold tokens. now erewrite tokenize_punct by exact H. Qed.

(** ** The tokens of an exported document *)

Definition prepend (ts : list token) (o : option (list token))
    : option (list token) :=
  match o with
  | Some r => Some (ts ++ r)
  | None => None
  end.

Lemma consToken_prepend t o : consToken t o = prepend [t] o.
Proof. now destruct o. Qed.

Lemma prepend_prepend a b o : prepend a (prepend b o) = prepend (a ++ b) o.
Proof. destruct o; simpl; [now rewrite app_assoc | reflexivity]. Qed.

Fixpoint commaSep (items : list (list token)) : list token :=
  match items with
  | [] => []
  | [x] => x
  | x :: r => x ++ TComma :: commaSep r
  end.

Definition arrayTokens (l : list jsstring) : list token :=
  match l with
  | [] => [TLBracket; TRBracket]
  | _ :: _ => TLBracket :: commaSep (map (fun s => [TString s]) l) ++ [TRBracket]
  end.

Definition memberTokens (kl : jsstring * list jsstring) : list token :=
  TString (fst kl) :: TColon :: arrayTokens (snd kl).

Definition objectTokens (db : list (jsstring * list jsstring)) : list token :=
  match db with
  | [] => [TLBrace; TRBrace]
  | _ :: _ => TLBrace :: commaSep (map memberTokens db) ++ [TRBrace]
  end.

(** The property of the export: a key with its array of strings. *)
Definition entry (kl : jsstring * list jsstring) : jsstring * value :=
  (fst kl, VArr (map VStr (snd kl))).

Lemma tokens_spaces (n : nat) (r : jsstring) : tokens (spaces n ++ r) = tokens r.
Proof.
  induction n as [|n IH]; [reflexivity|].
  simpl. now rewrite tokens_space.
Qed.

Lemma tokens_quote (s r : jsstring) :
  tokens (quoteJSONString s ++ r) = prepend [TString s] (tokens r).
Proof.
  unfold quoteJSONString. simpl. rewrite <- app_assoc. simpl.
  rewrite tokens_string. apply consToken_prepend.
Qed.

Lemma tokens_joinItems (items : list (jsstring * list token)) :
  (forall x t, In (x, t) items ->
     forall r, tokens (x ++ r) = prepend t (tokens r)) ->
  items <> [] ->
  forall r, tokens (joinItems (map fst items) ++ r)
            = prepend (commaSep (map snd items)) (tokens r).
Proof.
  induction items as [|[x t] items IH]; intros Hall Hne r; [congruence|].
  destruct items as [|[y u] items].
  - simpl. apply Hall. now left.
  - change (joinItems (map fst ((x, t) :: (y, u) :: items)))
      with (x ++ [44%N; 10%N] ++ joinItems (map fst ((y, u) :: items))).
    change (commaSep (map snd ((x, t) :: (y, u) :: items)))
      with (t ++ TComma :: commaSep (map snd ((y, u) :: items))).
    rewrite <- !app_assoc. rewrite (Hall x t (or_introl eq_refl)).
    simpl app at 1.
    erewrite tokens_punct by (simpl; tauto).
    rewrite tokens_space by reflexivity.
    rewrite IH; [|intros; apply Hall; now right | discriminate].
    rewrite consToken_prepend, !prepend_prepend, <- app_assoc. reflexivity.
Qed.

Lemma tokens_array (n : nat) (l : list jsstring) (r : jsstring) :
  tokens (stringifyAt n (VArr (map VStr l)) ++ r)
  = prepend (arrayTokens l) (tokens r).
Proof.
  destruct l as [|x xs].
  - simpl. erewrite !tokens_punct by (simpl; tauto).
    rewrite !consToken_prepend, prepend_prepend. reflexivity.
  - remember (map (fun s => (spaces (n + 2) ++ quoteJSONString s,
                             [TString s])) (x :: xs)) as items eqn:Hitems.
    assert (Htext : stringifyAt n (VArr (map VStr (x :: xs)))
                    = 91%N :: 10%N :: joinItems (map fst items)
                      ++ 10%N :: spaces n ++ [93%N]).
    { subst items. rewrite map_map. cbn [stringifyAt map].
      rewrite map_map. reflexivity. }
    assert (Htoks : arrayTokens (x :: xs)
                    = TLBracket :: commaSep (map snd items) ++ [TRBracket]).
    { subst items. rewrite map_map. reflexivity. }
    rewrite Htext, Htoks, <- !app_comm_cons, <- !app_assoc.
    erewrite tokens_punct by (simpl; tauto).
    rewrite tokens_space by reflexivity.
    rewrite tokens_joinItems.
    + rewrite <- !app_comm_cons, tokens_space by reflexivity.
      rewrite <- app_assoc, tokens_spaces. cbn [app].
      erewrite tokens_punct by (simpl; tauto).
      rewrite !consToken_prepend, !prepend_prepend.
      cbn [app]. rewrite <- ?app_assoc. reflexivity.
    + intros y t Hin r0. subst items.
      apply in_map_iff in Hin as [s [E _]]. injection E as <- <-.
      rewrite <- app_assoc, tokens_spaces. apply tokens_quote.
    + subst items. discriminate.
Qed.

Lemma tokens_object (db : list (jsstring * list jsstring)) (r : jsstring) :
  tokens (stringifyAt 0 (VObj (map entry db)) ++ r)
  = prepend (objectTokens db) (tokens r).
Proof.
  destruct db as [|e es].
  - simpl. erewrite !tokens_punct by (simpl; tauto).
    rewrite !consToken_prepend, prepend_prepend. reflexivity.
  - remember (map (fun kl => (spaces 2 ++ quoteJSONString (fst kl)
                              ++ [58%N; 32%N]
                              ++ stringifyAt 2 (VArr (map VStr (snd kl))),
                              memberTokens kl)) (e :: es)) as items eqn:Hitems.
    assert (Htext : stringifyAt 0 (VObj (map entry (e :: es)))
                    = 123%N :: 10%N :: joinItems (map fst items)
                      ++ 10%N :: [125%N]).
    { subst items. rewrite map_map. cbn [stringifyAt map entry].
      rewrite map_map. reflexivity. }
    assert (Htoks : objectTokens (e :: es)
                    = TLBrace :: commaSep (map snd items) ++ [TRBrace]).
    { subst items. rewrite map_map. reflexivity. }
    rewrite Htext, Htoks, <- !app_comm_cons, <- !app_assoc.
    erewrite tokens_punct by (simpl; tauto).
    rewrite tokens_space by reflexivity.
    rewrite tokens_joinItems.
    + rewrite <- !app_comm_cons, tokens_space by reflexivity.
      cbn [app].
      erewrite tokens_punct by (simpl; tauto).
      rewrite !consToken_prepend, !prepend_prepend.
      cbn [app]. rewrite <- ?app_assoc. reflexivity.
    + intros y t Hin r0. subst items.
      apply in_map_iff in Hin as [kl [E _]].
      pose proof (f_equal fst E) as E1. pose proof (f_equal snd E) as E2.
      cbn [fst snd] in E1, E2. subst y t. clear E.
      rewrite <- !app_assoc, tokens_spaces, tokens_quote.
      cbn [app]. erewrite tokens_punct by (simpl; tauto).
      rewrite tokens_space by reflexivity.
      rewrite tokens_array.
      rewrite !consToken_prepend, !prepend_prepend. reflexivity.
    + subst items. discriminate.
Qed.

(** ** Parsing the tokens of an exported document *)

Lemma parseValue_string (f : nat) (s : jsstring) (r : list token) :
  1 <= f -> parseValue f (TString s :: r) = Some (VStr s, r).
Proof. destruct f; [lia | reflexivity]. Qed.

Lemma parseElements_S (f : nat) (ts : list token) :
  parseElements (S f) ts
  = match parseValue f ts with
    | Some (v, TComma :: r) =>
      match parseElements f r with
      | Some (vs, r') => Some (v :: vs, r')
      | None => None
      end
    | Some (v, TRBracket :: r) => Some ([v], r)
    | _ => None
    end.
Proof. reflexivity. Qed.

Lemma parseMembers_S (f : nat) (k : jsstring) (r : list token) :
  parseMembers (S f) (TString k :: TColon :: r)
  = match parseValue f r with
    | Some (v, TComma :: r1) =>
      match parseMembers f r1 with
      | Some (kvs, r') => Some ((k, v) :: kvs, r')
      | None => None
      end
    | Some (v, TRBrace :: r1) => Some ([(k, v)], r1)
    | _ => None
    end.
Proof. reflexivity. Qed.

Lemma parseElements_strings (f : nat) (x : jsstring) (xs : list jsstring)
    (rest : list token) :
  length xs + 2 <= f ->
  parseElements f (commaSep (map (fun s => [TString s]) (x :: xs))
                   ++ TRBracket :: rest)
  = Some (map VStr (x :: xs), rest).
Proof.
  revert f x. induction xs as [|y ys IH]; intros f x Hf.
  - destruct f as [|f]; [simpl in Hf; lia|].
    cbn [map commaSep app]. rewrite parseElements_S.
    rewrite parseValue_string by (simpl in Hf; lia). reflexivity.
  - destruct f as [|f]; [simpl in Hf; lia|].
    change (commaSep (map (fun s => [TString s]) (x :: y :: ys))
            ++ TRBracket :: rest)
      with (TString x :: TComma
              :: (commaSep (map (fun s => [TString s]) (y :: ys))
                  ++ TRBracket :: rest)).
    rewrite parseElements_S.
    rewrite parseValue_string by (simpl in Hf; lia).
    rewrite IH by (simpl in *; lia). reflexivity.
Qed.

Lemma length_commaSep_strings (l : list jsstring) :
  length (commaSep (map (fun s => [TString s]) l)) = 2 * length l - 1.
Proof.
  induction l as [|x [|y l] IH]; try reflexivity.
  change (commaSep (map (fun s => [TString s]) (x :: y :: l)))
    with (TString x :: TComma :: commaSep (map (fun s => [TString s]) (y :: l))).
  simpl length in *. rewrite IH. lia.
Qed.

Lemma length_arrayTokens (l : list jsstring) :
  length l + 2 <= length (arrayTokens l).
Proof.
  destruct l as [|x xs]; [simpl; lia|].
  unfold arrayTokens. cbn [length]. rewrite length_app, length_commaSep_strings.
  simpl. lia.
Qed.

Lemma parseValue_array (f : nat) (l : list jsstring) (rest : list token) :
  length l + 3 <= f ->
  parseValue f (arrayTokens l ++ rest) = Some (VArr (map VStr l), rest).
Proof.
  intros Hf. destruct f as [|f]; [lia|].
  destruct l as [|x xs]; [reflexivity|].
  unfold arrayTokens. rewrite <- app_comm_cons, <- app_assoc.
  change ([TRBracket] ++ rest) with (TRBracket :: rest).
  assert (E : parseElements f
                (commaSep (map (fun s => [TString s]) (x :: xs))
                 ++ TRBracket :: rest)
              = Some (map VStr (x :: xs), rest))
    by (apply parseElements_strings; simpl in *; lia).
  destruct xs as [|y ys].
  - cbn [parseValue map commaSep app]. cbn [map commaSep app] in E.
    now rewrite E.
  - change (commaSep (map (fun s => [TString s]) (x :: y :: ys))
            ++ TRBracket :: rest)
      with (TString x :: TComma
              :: (commaSep (map (fun s => [TString s]) (y :: ys))
                  ++ TRBracket :: rest)) in *.
    cbn [parseValue]. now rewrite E.
Qed.

Lemma parseMembers_entries (f : nat) (e : jsstring * list jsstring)
    (es : list (jsstring * list jsstring)) (rest : list token) :
  length (commaSep (map memberTokens (e :: es))) <= f ->
  parseMembers f (commaSep (map memberTokens (e :: es)) ++ TRBrace :: rest)
  = Some (map entry (e :: es), rest).
Proof.
  revert f e. induction es as [|e' es IH]; intros f [k l] Hf.
  - cbn [map commaSep] in *. unfold memberTokens in *. cbn [fst snd] in *.
    pose proof (length_arrayTokens l) as Hl.
    destruct f as [|f]; [simpl in Hf; lia|].
    rewrite <- !app_comm_cons, parseMembers_S.
    rewrite parseValue_array by (simpl in Hf; lia). reflexivity.
  - change (commaSep (map memberTokens ((k, l) :: e' :: es)))
      with (TString k :: TColon
              :: (arrayTokens l ++ TComma :: commaSep (map memberTokens (e' :: es))))
      in *.
    pose proof (length_arrayTokens l) as Hl.
    destruct f as [|f]; [simpl in Hf; lia|].
    cbn [length] in Hf. rewrite length_app in Hf. cbn [length] in Hf.
    rewrite <- !app_comm_cons, <- app_assoc, <- app_comm_cons.
    rewrite parseMembers_S.
    rewrite parseValue_array by lia.
    rewrite IH by lia. reflexivity.
Qed.

(** Reading back the printed form of an object of string arrays. *)
Lemma JSON_parse_stringify (db : list (jsstring * list jsstring)) :
  JSON_parse (JSON_stringify (VObj (map entry db)))
  = Some (VObj (createObject (map entry db))).
Proof.
  unfold JSON_parse, JSON_stringify.
  fold (tokens (stringifyAt 0 (VObj (map entry db)))).
  rewrite <- (app_nil_r (stringifyAt 0 (VObj (map entry db)))).
  rewrite tokens_object, tokens_nil. cbn [prepend]. rewrite app_nil_r.
  destruct db as [|e es]; [reflexivity|].
  unfold objectTokens.
  set (members := commaSep (map memberTokens (e :: es))).
  assert (Hm : exists k r, members = TString k :: TColon :: r).
  { unfold members. destruct e as [k l]. destruct es as [|e' es'].
    - exists k, (arrayTokens l). reflexivity.
    - exists k, (arrayTokens l ++ TComma
                   :: commaSep (map memberTokens (e' :: es'))).
      reflexivity. }
  destruct Hm as [k [r Hm]].
  replace (2 * length (TLBrace :: members ++ [TRBrace]) + 1)
    with (S (2 * length (TLBrace :: members ++ [TRBrace]))) by lia.
  assert (E : parseMembers (2 * length (TLBrace :: members ++ [TRBrace]))
                (members ++ [TRBrace]) = Some (map entry (e :: es), [])).
  { apply parseMembers_entries. fold members.
    cbn [length]. rewrite length_app. lia. }
  rewrite Hm in E |- *. cbn [app parseValue]. cbn [app] in E.
  now rewrite E.
Qed.

(** ** The parser never runs out of fuel *)

Lemma parse_rest_shorter (f : nat) :
  (forall ts v r, parseValue f ts = Some (v, r) -> length r < length ts)
  /\ (forall ts vs r, parseElements f ts = Some (vs, r) ->
                      length r < length ts)
  /\ (forall ts kvs r, parseMembers f ts = Some (kvs, r) ->
                       length r < length ts).
Proof.
  induction f as [|f [IV [IE IM]]];
    [repeat split; intros; discriminate|].
  split; [|split].
  - intros ts v r. destruct ts as [|t ts]; [discriminate|].
    destruct t; cbn [parseValue]; try discriminate;
      try (intros H; injection H as _ <-; simpl; lia).
    + destruct ts as [|t' ts'].
      * destruct (parseMembers f []) as [[kvs r']|] eqn:E; [|discriminate].
        apply IM in E. simpl in E. lia.
      * destruct t';
          try (destruct (parseMembers f _) as [[kvs r']|] eqn:E;
               [|discriminate];
               intros H; injection H as _ <-; apply IM in E;
               simpl in *; lia).
        intros H; injection H as _ <-; simpl; lia.
    + destruct ts as [|t' ts'].
      * destruct (parseElements f []) as [[vs r']|] eqn:E; [|discriminate].
        apply IE in E. simpl in E. lia.
      * destruct t';
          try (destruct (parseElements f _) as [[vs r']|] eqn:E;
               [|discriminate];
               intros H; injection H as _ <-; apply IE in E;
               simpl in *; lia).
        intros H; injection H as _ <-; simpl; lia.
  - intros ts vs r. cbn [parseElements].
    destruct (parseValue f ts) as [[v [|t r1]]|] eqn:E; try discriminate.
    apply IV in E.
    destruct t; try discriminate.
    + intros H. injection H as _ <-. simpl in E. lia.
    + destruct (parseElements f r1) as [[vs' r']|] eqn:E2; [|discriminate].
      intros H. injection H as _ <-. apply IE in E2. simpl in E. lia.
  - intros ts kvs r. cbn [parseMembers].
    destruct ts as [|t ts]; [discriminate|].
    destruct t; try discriminate.
    destruct ts as [|t ts]; [discriminate|].
    destruct t; try discriminate.
    destruct (parseValue f ts) as [[v [|t r1]]|] eqn:E; try discriminate.
    apply IV in E.
    destruct t; try discriminate.
    + intros H. injection H as _ <-. simpl in *. lia.
    + destruct (parseMembers f r1) as [[kvs' r']|] eqn:E2; [|discriminate].
      intros H. injection H as _ <-. apply IM in E2. simpl in *. lia.
Qed.

(** More fuel than twice the number of tokens changes no result. *)
Lemma parse_fuel (f : nat) :
  (forall ts f', 2 * length ts + 1 <= f -> f <= f' ->
                 parseValue f' ts = parseValue f ts)
  /\ (forall ts f', 2 * length ts + 2 <= f -> f <= f' ->
                    parseElements f' ts = parseElements f ts)
  /\ (forall ts f', 2 * length ts <= f -> f <= f' ->
                    parseMembers f' ts = parseMembers f ts).
Proof.
  induction f as [|f [IV [IE IM]]].
  - split; [|split]; intros ts f' H1 H2; try lia.
    destruct ts; [|simpl in H1; lia]. now destruct f'.
  - split; [|split]; intros ts f' H1 H2;
      (destruct f' as [|f']; [lia|]).
    + destruct ts as [|t ts]; [reflexivity|].
      cbn [length] in H1.
      destruct t; cbn [parseValue]; try reflexivity.
      * destruct ts as [|t' ts']; [|destruct t'];
          try reflexivity;
          rewrite (IM _ f') by (cbn [length] in *; lia); reflexivity.
      * destruct ts as [|t' ts']; [|destruct t'];
          try reflexivity;
          rewrite (IE _ f') by (cbn [length] in *; lia); reflexivity.
    + cbn [parseElements].
      rewrite (IV ts f') by lia.
      destruct (parseValue f ts) as [[v [|t r1]]|] eqn:E; try reflexivity.
      apply (proj1 (parse_rest_shorter f)) in E. cbn [length] in E.
      destruct t; try reflexivity.
      rewrite (IE r1 f') by lia. reflexivity.
    + cbn [parseMembers].
      destruct ts as [|t ts]; [reflexivity|].
      destruct t; try reflexivity.
      destruct ts as [|t ts]; [reflexivity|].
      destruct t; try reflexivity.
      cbn [length] in H1.
      rewrite (IV ts f') by lia.
      destruct (parseValue f ts) as [[v [|t r1]]|] eqn:E; try reflexivity.
      apply (proj1 (parse_rest_shorter f)) in E. cbn [length] in E.
      destruct t; try reflexivity.
      rewrite (IM r1 f') by lia. reflexivity.
Qed.

(** [JSON_parse] with any larger amounts of fuel gives the same result. *)
Theorem JSON_parse_fuel (text : jsstring) (f1 f2 : nat) :
  length text < f1 ->
  (forall ts, tokens text = Some ts -> 2 * length ts + 1 <= f2) ->
  match tokenize f1 text with
  | Some ts =>
    match parseValue f2 ts with
    | Some (v, []) => Some v
    | _ => None
    end
  | None => None
  end = JSON_parse text.
Proof.
  intros H1 H2. unfold JSON_parse.
  rewrite (@tokenize_fuel f1 (S (length text)) text) by lia.
  fold (tokens text) in *.
  destruct (tokens text) as [ts|]; [|reflexivity].
  rewrite (proj1 (parse_fuel (2 * length ts + 1)) ts f2);
    [reflexivity | lia | now apply H2].
Qed.

End JsonFacts.

(** * Normalization is idempotent *)

Module NormalizeFacts.
Import JS JSFacts Json WocabeeState.

(** A string without white space at either end. *)
Definition noEdgeSpace (s : jsstring) : Prop :=
  match s with [] => True | c :: _ => isWhiteSpace c = false end
  /\ match rev s with [] => True | c :: _ => isWhiteSpace c = false end.

Lemma dropWhile_head (s : jsstring) :
  match dropWhile isWhiteSpace s with
  | [] => True
  | c :: _ => isWhiteSpace c = false
  end.
Proof.
  induction s as [|c s IH]; simpl; [exact I|].
  destruct (isWhiteSpace c) eqn:E; [exact IH | exact E].
Qed.

Lemma dropWhile_fixed (s : jsstring) :
  match s with [] => True | c :: _ => isWhiteSpace c = false end ->
  dropWhile isWhiteSpace s = s.
Proof. destruct s as [|c s]; simpl; [reflexivity|]. now intros ->. Qed.

Lemma dropWhile_app_last (l : jsstring) (c : N) :
  isWhiteSpace c = false ->
  exists w, dropWhile isWhiteSpace (l ++ [c]) = w ++ [c].
Proof.
  intros Hc. induction l as [|x l IH]; simpl.
  - rewrite Hc. now exists [].
  - destruct (isWhiteSpace x); [exact IH|].
    now exists (x :: l).
Qed.

Lemma trim_fixed (s : jsstring) : noEdgeSpace s -> trim s = s.
Proof.
  intros [Hh Hl]. unfold trim, trimEnd, trimStart.
  rewrite (@dropWhile_fixed _ Hh), (@dropWhile_fixed _ Hl).
  apply rev_involutive.
Qed.

Lemma trim_noEdgeSpace (s : jsstring) : noEdgeSpace (trim s).
Proof.
  unfold trim, trimEnd, trimStart, noEdgeSpace.
  rewrite rev_involutive. split; [|apply dropWhile_head].
  pose proof (dropWhile_head s) as Hh.
  destruct (dropWhile isWhiteSpace s) as [|c t]; [exact I|].
  simpl rev. destruct (@dropWhile_app_last (rev t) c Hh) as [w ->].
  rewrite rev_app_distr. exact Hh.
Qed.

Lemma collapse_from_last (b : bool) (s : jsstring) (x : N) :
  isWhiteSpace x = false ->
  collapse_from b (s ++ [x]) = collapse_from b s ++ [x].
Proof.
  intros Hx. revert b. induction s as [|c s IH]; intros b; simpl.
  - now rewrite Hx.
  - destruct (isWhiteSpace c); [destruct b|]; now rewrite IH.
Qed.

Lemma collapse_noEdgeSpace (s : jsstring) :
  noEdgeSpace s -> noEdgeSpace (collapseWhitespace s).
Proof.
  intros [Hh Hl]. unfold collapseWhitespace, noEdgeSpace. split.
  - destruct s as [|c r]; simpl; [exact I|]. now rewrite Hh.
  - destruct (rev s) as [|x t] eqn:E; [|].
    + apply (f_equal (@rev N)) in E. rewrite rev_involutive in E.
      subst s. exact I.
    + apply (f_equal (@rev N)) in E. rewrite rev_involutive in E.
      subst s. simpl rev. rewrite collapse_from_last by exact Hl.
      rewrite rev_app_distr. exact Hl.
Qed.

Lemma collapse_from_twice (s : jsstring) :
  collapse_from false (collapse_from false s) = collapse_from false s
  /\ collapse_from false (collapse_from true s) = collapse_from true s
  /\ collapse_from true (collapse_from true s) = collapse_from true s.
Proof.
  induction s as [|c s [IA [IB IC]]]; simpl; [auto|].
  destruct (isWhiteSpace c) eqn:E; simpl.
  - change (isWhiteSpace 32) with true. cbv iota.
    rewrite IC. auto.
  - rewrite E, IA. auto.
Qed.

Lemma collapse_idempotent (s : jsstring) :
  collapseWhitespace (collapseWhitespace s) = collapseWhitespace s.
Proof. apply collapse_from_twice. Qed.

Section WithCaseMapping.
Context {CM : CaseMapping}.

(** The normal form of a string, empty or not. *)
Definition normalForm (s : jsstring) : jsstring :=
  collapseWhitespace (toLowerCase (trim s)).

Lemma normalForm_idempotent (s : jsstring) :
  normalForm (normalForm s) = normalForm s.
Proof.
  unfold normalForm.
  assert (Ht : trim (collapseWhitespace (toLowerCase (trim s)))
               = collapseWhitespace (toLowerCase (trim s))).
  { apply trim_fixed. rewrite toLowerCase_trim.
    apply collapse_noEdgeSpace, trim_noEdgeSpace. }
  rewrite Ht, toLowerCase_collapse. apply collapse_idempotent.
Qed.

Lemma normalizeWord_string (s : jsstring) :
  s <> [] -> normalizeWord (VStr s) = normalForm s.
Proof. destruct s; [congruence | reflexivity]. Qed.

(** Normalizing a normalized word changes nothing. *)
Lemma normalizeWord_idempotent (v : value) :
  normalizeWord (VStr (normalizeWord v)) = normalizeWord v.
Proof.
  destruct (normalizeWord v) as [|c r] eqn:E; [reflexivity|].
  rewrite <- E.
  assert (Hn : exists s, normalizeWord v = normalForm s).
  { destruct v as [| | |s| |]; try discriminate.
    destruct s; [discriminate|]. now eexists. }
  destruct Hn as [s Hs].
  rewrite normalizeWord_string by (rewrite E; discriminate).
  rewrite Hs. apply normalForm_idempotent.
Qed.

(** A pair that passes the guards still passes them once normalized. *)
Lemma passesValidation_normalized (a b : value) :
  passesValidation a b = true ->
  passesValidation (VStr (normalizeWord a)) (VStr (normalizeWord b)) = true.
Proof.
  unfold passesValidation.
  destruct (negb (isNonEmptyString a) || negb (isNonEmptyString b));
    [discriminate|].
  destruct (isEmpty (normalizeWord a) || isEmpty (normalizeWord b)) eqn:He;
    [discriminate|].
  apply orb_false_iff in He as [Ha Hb].
  assert (Hna : isNonEmptyString (VStr (normalizeWord a)) = true)
    by (destruct (normalizeWord a); [discriminate | reflexivity]).
  assert (Hnb : isNonEmptyString (VStr (normalizeWord b)) = true)
    by (destruct (normalizeWord b); [discriminate | reflexivity]).
  rewrite Hna, Hnb, !normalizeWord_idempotent, Ha, Hb. simpl.
  auto.
Qed.

End WithCaseMapping.

End NormalizeFacts.

(** * Export followed by import *)

Module RoundTrip.
Import JS JSFacts JSMap JSMapFacts Json JsonFacts WocabeeState StoreFacts
       NormalizeFacts.

(** ** Objects whose keys are distinct names *)

Lemma arrayIndex_allDigits (k : jsstring) (i : N) :
  arrayIndex k = Some i -> allDigits k = true.
Proof.
  unfold arrayIndex, allDigits. destruct k as [|c r]; [discriminate|].
  destruct (forallb isDigit (c :: r)) eqn:E; [|discriminate].
  reflexivity.
Qed.

Lemma ownPropertyOrder_names (A : Type) (props : list (jsstring * A)) :
  (forall kv, In kv props -> arrayIndex (fst kv) = None) ->
  ownPropertyOrder props = props.
Proof.
  intros H. unfold ownPropertyOrder.
  assert (Hi : indexedProps props = []).
  { induction props as [|[k v] props IH]; [reflexivity|].
    cbn [indexedProps].
    pose proof (H (k, v) (or_introl eq_refl)) as Hk. cbn [fst] in Hk.
    rewrite Hk. apply IH.
    intros kv Hkv. apply H. now right. }
  rewrite Hi. cbn [map app]. clear Hi.
  induction props as [|kv props IH]; [reflexivity|].
  cbn [filter]. unfold isNamedProp at 1.
  rewrite (H kv (or_introl eq_refl)).
  f_equal. apply IH.
  intros kv' Hkv'. apply H. now right.
Qed.

Lemma defineProperty_fresh (A : Type) (kvs acc : list (jsstring * A)) :
  NoDup (map fst (acc ++ kvs)) ->
  fold_left (fun o kv => defineProperty (fst kv) (snd kv) o) kvs acc
  = acc ++ kvs.
Proof.
  revert acc. induction kvs as [|[k v] kvs IH]; intros acc Hnd; simpl.
  - now rewrite app_nil_r.
  - unfold defineProperty at 2. simpl.
    rewrite set_absent.
    + rewrite IH; rewrite <- app_assoc; [reflexivity | exact Hnd].
    + destruct (has acc k) eqn:Hh; [|reflexivity]. exfalso.
      apply has_keys in Hh. unfold keys in Hh.
      rewrite map_app in Hnd. simpl in Hnd.
      apply NoDup_remove_2 in Hnd. apply Hnd.
      apply in_or_app. now left.
Qed.

Lemma createObject_canonical (A : Type) (kvs : list (jsstring * A)) :
  NoDup (map fst kvs) ->
  (forall kv, In kv kvs -> arrayIndex (fst kv) = None) ->
  createObject kvs = kvs.
Proof.
  intros Hnd Hnames. unfold createObject.
  rewrite (defineProperty_fresh kvs []) by exact Hnd.
  now apply ownPropertyOrder_names.
Qed.

(** ** The stores that [addWord] builds *)

Section WithCaseMapping.
Context {CM : CaseMapping}.

(** A stored pair: both words are normal forms and pass the guards. *)
Definition storedPair (k t : jsstring) : Prop :=
  passesValidation (VStr k) (VStr t) = true
  /\ normalizeWord (VStr k) = k /\ normalizeWord (VStr t) = t.

Definition wellStored (db : JSMap.t (list jsstring)) : Prop :=
  NoDup (keys db)
  /\ forall k l, In (k, l) db ->
       l <> [] /\ NoDup l /\ forall t, In t l -> storedPair k t.

Lemma In_set (V : Type) (m : JSMap.t V) (k k' : jsstring) (v v' : V) :
  In (k', v') (set m k v) -> (k' = k /\ v' = v) \/ In (k', v') m.
Proof.
  induction m as [|[k0 v0] m IH]; simpl.
  - intros [H|[]]. injection H as <- <-. auto.
  - destruct (eqb k k0) eqn:E; simpl.
    + intros [H|H]; [injection H as <- <-; auto | auto].
    + intros [H|H]; [auto|]. destruct (IH H); auto.
Qed.

Lemma keys_set (V : Type) (m : JSMap.t V) (k : jsstring) (v : V) :
  keys (set m k v) = if has m k then keys m else keys m ++ [k].
Proof.
  destruct (has m k) eqn:E.
  - now apply keys_set_present.
  - rewrite (set_absent _ _ _ E). unfold keys. now rewrite map_app.
Qed.

Lemma wellStored_pushed db s t :
  wellStored db -> storedPair s t -> ~ In t (getOr db s) ->
  wellStored (pushed db s t).
Proof.
  intros [Hnd Hall] Hst Hnew. unfold pushed. split.
  - rewrite keys_set. destruct (has db s) eqn:Hh; [assumption|].
    apply NoDup_app; [assumption | repeat constructor; simpl; tauto |].
    intros x Hx [<-|[]]. apply has_keys in Hx. congruence.
  - intros k l Hin. apply In_set in Hin as [[-> ->]|Hin]; [|now apply Hall].
    split; [intros E; now apply app_eq_nil in E as [_ E]|].
    assert (Hold : NoDup (getOr db s)
                   /\ forall t', In t' (getOr db s) -> storedPair s t').
    { unfold getOr. destruct (get db s) as [l0|] eqn:Hg.
      - apply get_Some_In in Hg. destruct (Hall _ _ Hg) as [_ [H1 H2]]. auto.
      - split; [constructor | contradiction]. }
    destruct Hold as [Hnd0 Hold]. split.
    + apply NoDup_app; [assumption | repeat constructor; simpl; tauto |].
      intros x Hx [<-|[]]. contradiction.
    + intros t' Ht'. apply in_app_or in Ht' as [Ht'|[<-|[]]]; auto.
Qed.

Lemma wellStored_addWord a b st :
  wellStored (wordDatabase st) ->
  wellStored (wordDatabase (fst (addWord a b st))).
Proof.
  intros H. destruct (addWord a b st) as [st' r] eqn:E. simpl. destruct r.
  - apply addWord_true in E as [Hv [Hnew [Hdb _]]]. rewrite Hdb.
    apply wellStored_pushed; [assumption| |assumption].
    split; [now apply passesValidation_normalized|].
    split; apply normalizeWord_idempotent.
  - apply addWord_false in E. now subst.
Qed.

Lemma wellStored_addWords ps st :
  wellStored (wordDatabase st) ->
  wellStored (wordDatabase (fst (addWords ps st))).
Proof.
  unfold addWords.
  assert (G : forall acc, wellStored (wordDatabase (fst acc)) ->
    wellStored (wordDatabase (fst (fold_left
      (fun acc pair =>
         let (st', added) := addWord (fst pair) (snd pair) (fst acc) in
         (st', if added then S (snd acc) else snd acc)) ps acc)))).
  { induction ps as [|p ps IH]; intros acc Hacc; simpl; [assumption|].
    apply IH.
    pose proof (wellStored_addWord (fst p) (snd p) _ Hacc) as K.
    destruct (addWord (fst p) (snd p) (fst acc)). exact K. }
  intros H. now apply G.
Qed.

(** A well-stored map prints as an object in creation order. *)
Lemma storedPair_named k t : storedPair k t -> arrayIndex k = None.
Proof.
  intros [Hv [Hk _]]. destruct (arrayIndex k) as [i|] eqn:E; [|reflexivity].
  apply arrayIndex_allDigits in E. unfold passesValidation in Hv.
  destruct (negb (isNonEmptyString (VStr k))
            || negb (isNonEmptyString (VStr t))); [discriminate|].
  destruct (isEmpty (normalizeWord (VStr k))
            || isEmpty (normalizeWord (VStr t))); [discriminate|].
  destruct (eqb (normalizeWord (VStr k)) (normalizeWord (VStr t)));
    [discriminate|].
  rewrite Hk, E in Hv. discriminate.
Qed.

Lemma Object_fromEntries_wellStored db :
  wellStored db -> Object_fromEntries db = VObj (map entry db).
Proof.
  intros [Hnd Hall]. unfold Object_fromEntries. f_equal.
  change (fun kl : jsstring * list jsstring =>
            (fst kl, VArr (map VStr (snd kl)))) with entry.
  apply createObject_canonical.
  - rewrite map_map. exact Hnd.
  - intros kv Hin. apply in_map_iff in Hin as [[k l] [<- Hin]]. simpl.
    destruct (Hall _ _ Hin) as [Hne [_ Hp]].
    destruct l as [|t l]; [congruence|].
    apply (storedPair_named (Hp t (or_introl eq_refl))).
Qed.

Lemma export_parses db :
  wellStored db ->
  JSON_parse (JSON_stringify (Object_fromEntries db))
  = Some (Object_fromEntries db).
Proof.
  intros H. rewrite (Object_fromEntries_wellStored H) at 1.
  rewrite JSON_parse_stringify. reflexivity.
Qed.

(** ** Importing an exported map rebuilds it entry by entry *)

Definition withEntry (pre : JSMap.t (list jsstring)) (k : jsstring)
    (l : list jsstring) : JSMap.t (list jsstring) :=
  match l with
  | [] => pre
  | _ :: _ => pre ++ [(k, l)]
  end.

Lemma get_app_absent (V : Type) (pre m : JSMap.t V) (k : jsstring) :
  has pre k = false -> get (pre ++ m) k = get m k.
Proof.
  unfold has. induction pre as [|[k0 v0] pre IH]; simpl; [reflexivity|].
  destruct (eqb k k0); [discriminate | exact IH].
Qed.

Lemma set_app_absent (V : Type) (pre m : JSMap.t V) (k : jsstring) (v : V) :
  has pre k = false -> set (pre ++ m) k v = pre ++ set m k v.
Proof.
  unfold has. induction pre as [|[k0 v0] pre IH]; simpl; [reflexivity|].
  destruct (eqb k k0); [discriminate|]. intros H. now rewrite IH.
Qed.

Lemma pushed_withEntry pre k l t :
  has pre k = false ->
  pushed (withEntry pre k l) k t = pre ++ [(k, l ++ [t])]
  /\ getOr (withEntry pre k l) k = l.
Proof.
  intros Hk. unfold pushed, withEntry, getOr. destruct l as [|x l].
  - rewrite (proj1 (has_false_get _ _) Hk). simpl.
    split; [now apply set_absent | reflexivity].
  - rewrite get_app_absent by exact Hk. simpl. rewrite eqb_refl.
    rewrite set_app_absent by exact Hk. simpl. now rewrite eqb_refl.
Qed.

Lemma importPairs_targets pre k (l2 l1 : list jsstring) st n :
  has pre k = false ->
  wordDatabase st = withEntry pre k l1 ->
  NoDup (l1 ++ l2) ->
  (forall t, In t l2 -> storedPair k t) ->
  wordDatabase (fst (importPairs (map (fun t => (k, VStr t)) l2) (st, n)))
  = withEntry pre k (l1 ++ l2).
Proof.
  intros Hk. revert l1 st n.
  induction l2 as [|t l2 IH]; intros l1 st n Hdb Hnd Hall.
  - simpl. now rewrite app_nil_r.
  - change (importPairs (map (fun t => (k, VStr t)) (t :: l2)) (st, n))
      with (importPairs (map (fun t => (k, VStr t)) l2)
              (importPairs [(k, VStr t)] (st, n))).
    destruct (Hall t (or_introl eq_refl)) as [Hv [Hnk Hnt]].
    destruct (pushed_withEntry pre k l1 t Hk) as [Hpush Hget].
    assert (Hnew : includes (getOr (wordDatabase st) k) t = false).
    { apply includes_not_In. rewrite Hdb, Hget.
      apply NoDup_remove_2 in Hnd. intros Hin. apply Hnd.
      apply in_or_app. now left. }
    assert (E : exists st1 n1,
               importPairs [(k, VStr t)] (st, n) = (st1, n1)
               /\ wordDatabase st1 = withEntry pre k (l1 ++ [t])).
    { unfold importPairs. simpl.
      rewrite (addWord_valid _ _ _ Hv), commitPair_spec, Hnk, Hnt, Hnew.
      eexists _, _. split; [reflexivity|]. simpl.
      rewrite Hdb, Hpush. unfold withEntry.
      destruct (l1 ++ [t]) eqn:El; [|reflexivity].
      now apply app_eq_nil in El as [_ El]. }
    destruct E as [st1 [n1 [-> Hdb1]]].
    rewrite (IH (l1 ++ [t]) st1 n1 Hdb1).
    + now rewrite <- app_assoc.
    + now rewrite <- app_assoc.
    + intros t' Ht'. apply Hall. now right.
Qed.

Lemma pairsOf_entries (db : JSMap.t (list jsstring)) :
  pairsOf (map entry db)
  = flat_map (fun kl => map (fun t => (fst kl, VStr t)) (snd kl)) db.
Proof.
  unfold pairsOf. induction db as [|[k l] db IH]; [reflexivity|].
  simpl. rewrite IH, map_map. reflexivity.
Qed.

Lemma importPairs_rebuilds (post pre : JSMap.t (list jsstring)) st n :
  wordDatabase st = pre ->
  wellStored (pre ++ post) ->
  wordDatabase (fst (importPairs (pairsOf (map entry post)) (st, n)))
  = pre ++ post.
Proof.
  revert pre st n. induction post as [|[k l] post IH]; intros pre st n Hdb Hw.
  - simpl. now rewrite app_nil_r.
  - rewrite pairsOf_entries. simpl flat_map. rewrite <- pairsOf_entries.
    rewrite importPairs_app.
    destruct Hw as [Hnd Hall].
    destruct (Hall k l) as [Hne [Hndl Hp]];
      [apply in_or_app; right; now left|].
    assert (Hk : has pre k = false).
    { destruct (has pre k) eqn:Hh; [|reflexivity]. exfalso.
      apply has_keys in Hh. unfold keys in Hnd, Hh.
      rewrite map_app in Hnd. simpl in Hnd.
      apply NoDup_remove_2 in Hnd. apply Hnd.
      apply in_or_app. now left. }
    pose proof (@importPairs_targets pre k l [] st n Hk Hdb Hndl Hp) as E.
    destruct (importPairs (map (fun t => (k, VStr t)) l) (st, n))
      as [st1 n1].
    simpl in E. unfold withEntry in E.
    destruct l as [|t l]; [congruence|].
    rewrite (IH (pre ++ [(k, t :: l)]) st1 n1 E).
    + now rewrite <- app_assoc.
    + rewrite <- app_assoc. now split.
Qed.

(** The import of the export of a well-stored map, into the empty store,
    has that map as its primary mapping. *)
Lemma import_export_wordDatabase (st : State) :
  wellStored (wordDatabase st) ->
  wordDatabase (fst (importDatabase (exportDatabase st) emptyState))
  = wordDatabase st.
Proof.
  intros Hw. unfold importDatabase, importBody, exportDatabase.
  rewrite (export_parses Hw), (Object_fromEntries_wellStored Hw).
  cbn [Object_entries]. rewrite importEntries_pairs.
  pose proof (@importPairs_rebuilds (wordDatabase st) [] emptyState 0
                eq_refl Hw) as E.
  destruct (importPairs (pairsOf (map entry (wordDatabase st)))
              (emptyState, 0)).
  exact E.
Qed.

End WithCaseMapping.

End RoundTrip.

(** * Rational numbers as a model of the number interface *)

Module RationalNumbers.
Import WocabeeDom.

Definition gtQ (a b : Q) : bool := negb (Qle_bool a b).

#[export] Instance rationals : NumberOps := {|
  num := Q;
  zero := 0%Q;
  twelve := 12%Q;
  times2 := fun q => (q * 2)%Q;
  times1_5 := fun q => (q * (3 # 2))%Q;
  half := fun q => (q / 2)%Q;
  gt := gtQ
|}.

End RationalNumbers.

(** * Sample pages *)

Module Pages.
Import JS WocabeeDom LatinCase RationalNumbers.

Open Scope string_scope.

(** No class attribute. *)
Definition plain : string := EmptyString.

(** A visible element 200 by 40 pixels, 100 pixels from the top. *)
Definition node (id : nat) (tag : string) (class text : string)
    (px : Q) : Element :=
  {| nodeId := id; tagName := tag; childCount := 0;
     textContent := lit text; innerText := lit text;
     className := lit class;
     classList := match class with EmptyString => [] | _ => [lit class] end;
     inputValue := None; dataCorrect := None;
     rectWidth := 200%Q; rectHeight := 40%Q; rectTop := 100%Q;
     fontSize := Some px |}.

Definition textInput (id : nat) (value : string) : Element :=
  {| nodeId := id; tagName := "INPUT"; childCount := 0;
     textContent := []; innerText := [];
     className := []; classList := [];
     inputValue := Some (lit value); dataCorrect := None;
     rectWidth := 200%Q; rectHeight := 40%Q; rectTop := 300%Q;
     fontSize := Some 16%Q |}.

(** A page given by the answers of the document to its selector queries
    and by its elements in document order; queries below an element find
    nothing, and the window is 800 pixels high. *)
Definition page (answers : list (string * list Element))
    (elements : list Element) : Document :=
  {| querySelectorAll := fun parent selector =>
       match parent with
       | None =>
         match List.find (fun a => String.eqb (fst a) selector) answers with
         | Some a => Some (snd a)
         | None => Some []
         end
       | Some _ => Some []
       end;
     allElements := elements;
     cellsOf := fun _ => [];
     hasCorrectMark := fun _ => false;
     innerHeight := 800%Q |}.

End Pages.

(** * Properties of the word store *)

Module StoreClaims.
Import JS Json JSFacts JSMap JSMapFacts WocabeeState StoreFacts RoundTrip.

(** The operations that mutate the store after start-up. *)
Inductive operation :=
| OpAdd (source target : value)
| OpAddMany (wordPairs : list (value * value))
| OpClear
| OpImportAll (jsonString : jsstring).

Definition word (s : string) : value := VStr (lit s).

Section WithCaseMapping.
Context {CM : CaseMapping}.

Definition perform (st : State) (op : operation) : State :=
  match op with
  | OpAdd source target => fst (addWord source target st)
  | OpAddMany wordPairs => fst (addWords wordPairs st)
  | OpClear => clearDatabase st
  | OpImportAll jsonString => fst (importDatabase jsonString st)
  end.

Definition run (ops : list operation) : State :=
  fold_left perform ops emptyState.

(** The reverse index is the inversion of the primary mapping, and neither
    map holds an entry without elements. *)
Definition inverted (st : State) : Prop :=
  (forall s t, In s (getOr (reverseDatabase st) t)
               <-> In t (getOr (wordDatabase st) s))
  /\ (forall t, has (reverseDatabase st) t = true ->
                exists s, In s (getOr (reverseDatabase st) t)).

Lemma inverted_empty : inverted emptyState.
Proof.
  split.
  - intros s t. simpl. tauto.
  - intros t H. discriminate.
Qed.

Lemma inverted_addWord a b st :
  inverted st -> inverted (fst (addWord a b st)).
Proof.
  intros [Hinv Hne].
  destruct (addWord a b st) as [st' r] eqn:E. simpl.
  destruct r.
  - apply addWord_true in E as [_ [Hnew [Hdb Hrv]]].
    assert (Hnot : ~ In (normalizeWord a)
                     (getOr (reverseDatabase st) (normalizeWord b)))
      by (now rewrite Hinv).
    apply includes_not_In in Hnot. rewrite Hnot in Hrv.
    split.
    + intros s t. rewrite Hdb, Hrv, !In_pushed, Hinv. intuition.
    + intros t K. rewrite Hrv in K |- *.
      destruct (eqb t (normalizeWord b)) eqn:Et.
      * apply eqb_eq in Et. subst t. exists (normalizeWord a).
        apply In_pushed. auto.
      * assert (Ht : has (reverseDatabase st) t = true).
        { destruct (has (reverseDatabase st) t) eqn:Hh; [reflexivity|].
          unfold pushed in K.
          rewrite has_set, Et, Hh in K. discriminate. }
        destruct (Hne _ Ht) as [s Hs]. exists s.
        apply In_pushed. auto.
  - apply addWord_false in E. subst st'. now split.
Qed.

Lemma inverted_addWords ps st :
  inverted st -> inverted (fst (addWords ps st)).
Proof.
  unfold addWords.
  assert (G : forall acc, inverted (fst acc) ->
    inverted (fst (fold_left
      (fun acc pair =>
         let (st', added) := addWord (fst pair) (snd pair) (fst acc) in
         (st', if added then S (snd acc) else snd acc)) ps acc))).
  { induction ps as [|p ps IH]; intros acc Hacc; simpl; [assumption|].
    apply IH.
    pose proof (inverted_addWord (fst p) (snd p) Hacc) as K.
    destruct (addWord (fst p) (snd p) (fst acc)). exact K. }
  intros H. now apply G.
Qed.

Lemma inverted_importTargets source targets acc :
  inverted (fst acc) -> inverted (fst (importTargets source targets acc)).
Proof.
  unfold importTargets. revert acc.
  induction targets as [|t ts IH]; intros acc Hacc; simpl; [assumption|].
  apply IH.
  pose proof (inverted_addWord (VStr source) t Hacc) as K.
  destruct (addWord (VStr source) t (fst acc)). exact K.
Qed.

Lemma inverted_importEntries entries acc :
  inverted (fst acc) -> inverted (fst (importEntries entries acc)).
Proof.
  unfold importEntries. revert acc.
  induction entries as [|e es IH]; intros acc Hacc; simpl; [assumption|].
  apply IH. now apply inverted_importTargets.
Qed.

Lemma inverted_importDatabase text st :
  inverted st -> inverted (fst (importDatabase text st)).
Proof.
  intros H. unfold importDatabase, importBody.
  destruct (JSON_parse text) as [data|]; [|assumption].
  destruct (Object_entries data) as [entries|e]; [|assumption].
  pose proof (@inverted_importEntries entries (st, 0) H) as K.
  destruct (importEntries entries (st, 0)). exact K.
Qed.

Lemma inverted_perform st op : inverted st -> inverted (perform st op).
Proof.
  intros H. destruct op; simpl.
  - now apply inverted_addWord.
  - now apply inverted_addWords.
  - apply inverted_empty.
  - now apply inverted_importDatabase.
Qed.

Lemma inverted_run_from ops st :
  inverted st -> inverted (fold_left perform ops st).
Proof.
  revert st. induction ops as [|op ops IH]; intros st H; simpl;
    [assumption|].
  apply IH. now apply inverted_perform.
Qed.

(** C3: after any sequence of [add], [addMany], [clear] and [importAll]
    from the empty store, a target [t] lists source [s] in the reverse
    index exactly when [t] is among the translations of [s] in the primary
    mapping, and every key of the reverse index lists at least one
    source. *)
Theorem reverse_index_is_inversion (ops : list operation) :
  (forall s t, In s (getOr (reverseDatabase (run ops)) t)
               <-> In t (getOr (wordDatabase (run ops)) s))
  /\ (forall t, has (reverseDatabase (run ops)) t = true ->
                exists s, In t (getOr (wordDatabase (run ops)) s)).
Proof.
  destruct (inverted_run_from ops inverted_empty) as [H1 H2].
  split; [exact H1|].
  intros t Ht. destruct (H2 t Ht) as [s Hs]. exists s. now apply H1.
Qed.

Lemma wellStored_importDatabase text st :
  wellStored (wordDatabase st) ->
  wellStored (wordDatabase (fst (importDatabase text st))).
Proof.
  intros H. unfold importDatabase, importBody.
  destruct (JSON_parse text) as [data|]; [|assumption].
  destruct (Object_entries data) as [entries|e]; [|assumption].
  rewrite importEntries_pairs.
  assert (G : forall ps acc, wellStored (wordDatabase (fst acc)) ->
            wellStored (wordDatabase (fst (importPairs ps acc)))).
  { unfold importPairs.
    induction ps as [|p ps IH]; intros acc Hacc; simpl; [assumption|].
    apply IH.
    pose proof (wellStored_addWord (VStr (fst p)) (snd p) _ Hacc) as K.
    destruct (addWord (VStr (fst p)) (snd p) (fst acc)). exact K. }
  pose proof (G (pairsOf entries) (st, 0) H) as K.
  destruct (importPairs (pairsOf entries) (st, 0)). exact K.
Qed.

Lemma wellStored_run (ops : list operation) :
  wellStored (wordDatabase (run ops)).
Proof.
  unfold run.
  assert (G : forall st, wellStored (wordDatabase st) ->
            wellStored (wordDatabase (fold_left perform ops st))).
  { induction ops as [|op ops IH]; intros st H; simpl; [assumption|].
    apply IH. destruct op; simpl.
    - now apply wellStored_addWord.
    - now apply wellStored_addWords.
    - split; [constructor | contradiction].
    - now apply wellStored_importDatabase. }
  apply G. split; [constructor | contradiction].
Qed.

(** The reverse index of a reachable store is what
    [rebuildReverseDatabase] derives from the primary mapping. *)
Corollary reverse_index_rederivable (ops : list operation) (s t : jsstring) :
  In s (getOr (reverseDatabase (rebuildReverseDatabase (run ops))) t)
  <-> In s (getOr (reverseDatabase (run ops)) t).
Proof.
  rewrite (rebuild_is_inversion _ (proj1 (wellStored_run ops))).
  symmetry. apply (inverted_run_from ops inverted_empty).
Qed.

(** C10: a call of [addWord], whatever it returns, leaves the translation
    list of every source key other than the normalized source, and the
    reverse entry of every target other than the normalized target, as
    they were. *)
Theorem addWord_frame (a b : value) (st : State) :
  (forall k, k <> normalizeWord a ->
     get (wordDatabase (fst (addWord a b st))) k = get (wordDatabase st) k)
  /\ (forall t, t <> normalizeWord b ->
     get (reverseDatabase (fst (addWord a b st))) t
     = get (reverseDatabase st) t).
Proof.
  destruct (addWord a b st) as [st' r] eqn:E. simpl. destruct r.
  - apply addWord_true in E as [_ [_ [Hdb Hrv]]]. split.
    + intros k Hk. rewrite Hdb. unfold pushed. now apply get_set_other.
    + intros t Ht. rewrite Hrv.
      destruct (includes _ _); [reflexivity|].
      unfold pushed. now apply get_set_other.
  - apply addWord_false in E. subst st'. now split.
Qed.

(** C4: a pair that passes the guards is stored by the first call on the
    empty store, which returns true; the same call again returns false and
    leaves the number of keys and of translations as they were. *)
Theorem addWord_twice (a b : value) :
  passesValidation a b = true ->
  let first := addWord a b emptyState in
  let second := addWord a b (fst first) in
  snd first = true /\ snd second = false
  /\ totalWords (fst second) = totalWords (fst first)
  /\ totalTranslations (fst second) = totalTranslations (fst first).
Proof.
  intros Hv. cbv zeta.
  pose proof (addWord_valid a b emptyState Hv) as E1.
  rewrite commitPair_spec in E1. simpl in E1. rewrite E1. cbn [fst snd].
  match goal with |- context [addWord a b ?s] => set (st1 := s) end.
  assert (E2 : addWord a b st1 = (st1, false)).
  { rewrite (addWord_valid _ _ _ Hv), commitPair_spec.
    assert (Hin : includes (getOr (wordDatabase st1) (normalizeWord a))
                           (normalizeWord b) = true)
      by (apply includes_In; unfold st1; simpl; apply In_pushed; auto).
    now rewrite Hin. }
  rewrite E2. auto.
Qed.

(** C5, as amended: after a successful [addWord(a, b)], looking up [a]
    yields a list that holds the normalized [b]; looking up [b] yields a
    list that holds the normalized [a] whenever the normalized [b] is not
    itself a source key of the primary mapping, which is the case when the
    pair was added to the empty store. *)
Theorem lookup_after_add (a b : value) (st st' : State) :
  addWord a b st = (st', true) ->
  (exists l, findTranslation a st' = Some l /\ In (normalizeWord b) l)
  /\ (has (wordDatabase st') (normalizeWord b) = false ->
      exists l, findTranslation b st' = Some l /\ In (normalizeWord a) l)
  /\ (st = emptyState -> has (wordDatabase st') (normalizeWord b) = false).
Proof.
  intros E. pose proof E as E0.
  apply addWord_true in E as [Hv [Hnew [Hdb Hrv]]].
  split; [|split].
  - unfold findTranslation.
    assert (Hin : In (normalizeWord b)
                    (getOr (wordDatabase st') (normalizeWord a)))
      by (rewrite Hdb; apply In_pushed; auto).
    unfold getOr in Hin.
    destruct (get (wordDatabase st') (normalizeWord a)) as [l|];
      [|contradiction].
    eauto.
  - intros Hno. unfold findTranslation.
    apply has_false_get in Hno. rewrite Hno.
    assert (Hin : In (normalizeWord a)
                    (getOr (reverseDatabase st') (normalizeWord b))).
    { rewrite Hrv. destruct (includes _ _) eqn:Hi.
      - now apply includes_In.
      - apply In_pushed. auto. }
    unfold getOr in Hin.
    destruct (get (reverseDatabase st') (normalizeWord b)) as [l|];
      [|contradiction].
    eauto.
  - intros ->. rewrite Hdb. unfold pushed. simpl.
    unfold has. simpl.
    destruct (eqb (normalizeWord b) (normalizeWord a)) eqn:Eab;
      [|reflexivity].
    exfalso. unfold passesValidation in Hv.
    destruct (negb (isNonEmptyString a) || negb (isNonEmptyString b));
      [discriminate|].
    destruct (isEmpty (normalizeWord a) || isEmpty (normalizeWord b));
      [discriminate|].
    rewrite eqb_sym, Eab in Hv. discriminate.
Qed.

(** C9: a text that [JSON.parse] rejects, and any other exception of the
    body, gives the result 0 with the store untouched, and the function
    itself never throws.  For a parsed document the result is that of
    adding, in order, the entries that [addWord] does not reject: the
    others are skipped, every accepted one is in the store afterwards, and
    the count is the number of translations gained. *)
Theorem importDatabase_containment (text : jsstring) (st : State) :
  (JSON_parse text = None -> importDatabase text st = (st, 0))
  /\ (forall e, snd (importBody text st) = Throw e ->
        importDatabase text st = (st, 0))
  /\ (forall data entries,
        JSON_parse text = Some data -> Object_entries data = Normal entries ->
        importDatabase text st
        = importPairs (filter wellFormed (pairsOf entries)) (st, 0)
        /\ (forall p, In p (pairsOf entries) -> wellFormed p = true ->
              In (normalizeWord (snd p))
                 (getOr (wordDatabase (fst (importDatabase text st)))
                        (normalizeWord (VStr (fst p)))))
        /\ totalTranslations (fst (importDatabase text st))
           = totalTranslations st + snd (importDatabase text st)).
Proof.
  split; [|split].
  - intros H. unfold importDatabase, importBody. now rewrite H.
  - intros e. unfold importDatabase, importBody.
    destruct (JSON_parse text) as [data|]; [|reflexivity].
    destruct (Object_entries data) as [entries|e']; [|reflexivity].
    destruct (importEntries entries (st, 0)). discriminate.
  - intros data entries Hp He.
    assert (E : importDatabase text st = importPairs (pairsOf entries) (st, 0)).
    { unfold importDatabase, importBody. rewrite Hp, He.
      rewrite importEntries_pairs.
      now destruct (importPairs (pairsOf entries) (st, 0)). }
    split; [|split].
    + rewrite E. apply importPairs_skip.
    + intros p Hin W. rewrite E. now apply importPairs_stores.
    + rewrite E.
      pose proof (importPairs_counts (pairsOf entries) (st, 0)) as K.
      simpl in K. lia.
Qed.

(** The stores built from the empty one by [add] and [addMany] alone. *)
Inductive populated : State -> Prop :=
| populated_empty : populated emptyState
| populated_add (a b : value) (st : State) :
    populated st -> populated (fst (addWord a b st))
| populated_addMany (wordPairs : list (value * value)) (st : State) :
    populated st -> populated (fst (addWords wordPairs st)).

Lemma populated_wellStored (st : State) :
  populated st -> wellStored (wordDatabase st).
Proof.
  induction 1 as [|a b st _ IH|ps st _ IH].
  - split; [constructor | contradiction].
  - now apply wellStored_addWord.
  - now apply wellStored_addWords.
Qed.

(** C2: for a store populated through [add] and [addMany] only, importing
    its export into a fresh store gives a primary mapping with the same
    keys and, under each key, the same targets. *)
Theorem export_import_round_trip (st : State) :
  populated st ->
  let st' := fst (importDatabase (exportDatabase st) emptyState) in
  (forall k, has (wordDatabase st') k = has (wordDatabase st) k)
  /\ (forall k t, In t (getOr (wordDatabase st') k)
                  <-> In t (getOr (wordDatabase st) k)).
Proof.
  intros Hp. cbv zeta.
  rewrite (import_export_wordDatabase _ (populated_wellStored Hp)).
  split; [reflexivity | tauto].
Qed.

End WithCaseMapping.

(** Concrete runs use the Latin case mapping. *)
Import LatinCase.

Lemma addWord_frame_witness :
  lit "hund" <> normalizeWord (word "Katze") /\
  get (wordDatabase (fst (addWord (word "Katze") (word "cat")
                            (fst (addWord (word "Hund") (word "dog") emptyState)))))
      (lit "hund")
  = Some [lit "dog"].
Proof.
  split; [vm_compute; discriminate|].
  rewrite (proj1 (addWord_frame (word "Katze") (word "cat")
                    (fst (addWord (word "Hund") (word "dog") emptyState))));
    [reflexivity | vm_compute; discriminate].
Defined.

Lemma addWord_twice_witness :
  passesValidation (word "  Katze ") (word "Cat") = true
  /\ snd (addWord (word "  Katze ") (word "Cat") emptyState) = true
  /\ snd (addWord (word "  Katze ") (word "Cat")
            (fst (addWord (word "  Katze ") (word "Cat") emptyState))) = false.
Proof.
  split; [reflexivity|].
  pose proof (@addWord_twice latin (word "  Katze ") (word "Cat") eq_refl) as H.
  cbv zeta in H. destruct H as [H1 [H2 _]]. split; assumption.
Defined.

(** The store in which [cat] is already a source word. *)
Definition catStore : State :=
  fst (addWord (word "cat") (word "gato") emptyState).

(** C5 fails as stated: with [cat -> gato] stored, adding [Katze -> cat]
    succeeds, yet looking up [cat] answers from the primary mapping and
    returns [gato] only. *)
Lemma lookup_after_add_counterexample :
  snd (addWord (word "Katze") (word "cat") catStore) = true
  /\ findTranslation (word "cat")
       (fst (addWord (word "Katze") (word "cat") catStore))
     = Some [lit "gato"]
  /\ ~ In (normalizeWord (word "Katze")) [lit "gato"].
Proof.
  split; [reflexivity|]. split; [reflexivity|].
  vm_compute. intros [H|[]]. discriminate.
Qed.

Lemma lookup_after_add_witness :
  addWord (word "Katze") (word "cat") emptyState
  = (fst (addWord (word "Katze") (word "cat") emptyState), true)
  /\ exists l,
       findTranslation (word "cat")
         (fst (addWord (word "Katze") (word "cat") emptyState)) = Some l
       /\ In (normalizeWord (word "Katze")) l.
Proof.
  assert (E : addWord (word "Katze") (word "cat") emptyState
              = (fst (addWord (word "Katze") (word "cat") emptyState), true))
    by reflexivity.
  split; [exact E|].
  destruct (lookup_after_add _ _ _ E) as [_ [H2 H3]].
  apply H2. apply H3. reflexivity.
Defined.

(** A document with a number, a [null], a one-letter word and a numeric
    key among its entries. *)
Definition mixedDocument : jsstring :=
  JSON_stringify
    (VObj [(lit "Haus", VArr [VStr (lit "dům"); VNum (lit "5"); VNull;
                              VStr (lit "house"); VStr (lit "x")]);
           (lit "12", VStr (lit "ab"));
           (lit "Hund", VStr (lit "dog"))]).

Lemma importDatabase_containment_witness :
  JSON_parse (lit "{oops") = None
  /\ importDatabase (lit "{oops") catStore = (catStore, 0)
  /\ snd (importDatabase mixedDocument catStore) = 3
  /\ In (lit "house")
        (getOr (wordDatabase (fst (importDatabase mixedDocument catStore)))
               (lit "haus")).
Proof.
  split; [reflexivity|].
  split.
  { apply (proj1 (importDatabase_containment (lit "{oops") catStore)).
    reflexivity. }
  destruct (JSON_parse mixedDocument) as [data|] eqn:Hp;
    [|vm_compute in Hp; discriminate].
  destruct (Object_entries data) as [entries|e] eqn:He;
    [|vm_compute in Hp; injection Hp as <-; discriminate].
  destruct (proj2 (proj2 (importDatabase_containment mixedDocument catStore))
              data entries Hp He) as [_ [Hstored _]].
  split; [reflexivity|].
  apply (Hstored (lit "Haus", VStr (lit "house"))).
  - vm_compute in Hp. injection Hp as <-. vm_compute in He.
    injection He as <-. vm_compute. tauto.
  - reflexivity.
Defined.

(** A store with two sources, one of them with two translations. *)
Definition smallStore : State :=
  fst (addWords [(word "Katze", word "cat"); (word "dům", word "house");
                 (word "Katze", word "gato")] emptyState).

Lemma export_import_round_trip_witness :
  populated smallStore
  /\ In (lit "gato")
        (getOr (wordDatabase
                  (fst (importDatabase (exportDatabase smallStore) emptyState)))
               (lit "katze")).
Proof.
  assert (Hp : populated smallStore)
    by (apply populated_addMany, populated_empty).
  split; [exact Hp|].
  apply (proj2 (export_import_round_trip Hp)).
  vm_compute. tauto.
Defined.

End StoreClaims.

(** * Properties of question location and classification *)

Module DomClaims.
Import JS JSFacts WocabeeDom.

Unset Implicit Arguments.

Section WithPlatform.
Context {CM : CaseMapping} {NO : NumberOps}.

(** ** The scoring scan *)

Lemma scan_no_better (doc : Document) (els : list Element)
    (best : option jsstring) (bs : num) :
  (forall y t, In y els -> scoringText y = Some t ->
               gt (score doc y) bs = false) ->
  fold_left (scoreStep doc) els (best, bs) = (best, bs).
Proof.
  revert best bs. induction els as [|y els IH]; intros best bs H;
    [reflexivity|].
  simpl. unfold scoreStep at 2. simpl.
  destruct (scoringText y) as [t|] eqn:Ey.
  - rewrite (H y t (or_introl eq_refl) Ey).
    apply IH. intros z tz Hz. apply H. now right.
  - apply IH. intros z tz Hz. apply H. now right.
Qed.

(** The scan returns the text of the element that beats every candidate
    before it and is beaten by none after it. *)
Lemma scan_winner (doc : Document) (l1 : list Element) (x : Element)
    (l2 : list Element) (t : jsstring) (best : option jsstring) (bs : num) :
  scoringText x = Some t ->
  gt (score doc x) bs = true ->
  (forall y ty, In y l1 -> scoringText y = Some ty ->
                gt (score doc x) (score doc y) = true) ->
  (forall y ty, In y l2 -> scoringText y = Some ty ->
                gt (score doc y) (score doc x) = false) ->
  fold_left (scoreStep doc) (l1 ++ x :: l2) (best, bs)
  = (Some t, score doc x).
Proof.
  intros Hx. revert best bs.
  induction l1 as [|y l1 IH]; intros best bs Hgt Hbefore Hafter.
  - simpl. unfold scoreStep at 2. simpl. rewrite Hx, Hgt.
    now apply scan_no_better.
  - simpl. unfold scoreStep at 2. simpl.
    destruct (scoringText y) as [ty|] eqn:Ey.
    + destruct (gt (score doc y) bs) eqn:Eg.
      * apply IH; [|intros z tz Hz; apply Hbefore; now right | assumption].
        exact (Hbefore y ty (or_introl eq_refl) Ey).
      * apply IH; [assumption | intros z tz Hz; apply Hbefore; now right
                  | assumption].
    + apply IH; [assumption | intros z tz Hz; apply Hbefore; now right
                | assumption].
Qed.

Lemma score_depends (doc doc' : Document) (el : Element) :
  innerHeight doc' = innerHeight doc -> score doc' el = score doc el.
Proof. intros H. unfold score. now rewrite H. Qed.

Lemma scoreScan_depends (doc doc' : Document) :
  allElements doc' = allElements doc ->
  innerHeight doc' = innerHeight doc ->
  scoreScan doc' = scoreScan doc.
Proof.
  intros Ha Hh. unfold scoreScan. rewrite Ha. apply (f_equal fst).
  assert (Hs : forall acc e, scoreStep doc' acc e = scoreStep doc acc e).
  { intros acc e. unfold scoreStep. now rewrite (score_depends _ _ e Hh). }
  clear Ha. generalize (@None jsstring, zero).
  induction (allElements doc) as [|e els IH]; intros acc; [reflexivity|].
  cbn [fold_left]. rewrite Hs. apply IH.
Qed.

(** C8: in the scoring fallback, when two candidates [a] and [b] have the
    same score, [a] comes first, no candidate scores higher and no
    candidate before [a] reaches that score, the scan returns the text of
    [a]; and the result is a function of the element list and the window
    height alone, so a second run on an unchanged page returns the same.
    The scan starts from a best score of 0: the winner's score is
    positive. *)
Theorem scoring_tie_break (doc : Document) (l1 : list Element) (a : Element)
    (l2 : list Element) (b : Element) (l3 : list Element)
    (ta tb : jsstring) :
  allElements doc = l1 ++ a :: l2 ++ b :: l3 ->
  scoringText a = Some ta -> scoringText b = Some tb ->
  gt (score doc a) (score doc b) = false ->
  gt (score doc b) (score doc a) = false ->
  gt (score doc a) zero = true ->
  (forall y ty, In y (l1 ++ l2 ++ l3) -> scoringText y = Some ty ->
                gt (score doc y) (score doc a) = false) ->
  (forall y ty, In y l1 -> scoringText y = Some ty ->
                gt (score doc a) (score doc y) = true) ->
  scoreScan doc = Some ta
  /\ (forall doc', allElements doc' = allElements doc ->
                   innerHeight doc' = innerHeight doc ->
                   scoreScan doc' = Some ta).
Proof.
  intros Hall Ha Hb Hab Hba Hpos Hmax Hfirst.
  assert (E : scoreScan doc = Some ta).
  { unfold scoreScan. rewrite Hall.
    rewrite (scan_winner doc l1 a (l2 ++ b :: l3) ta None zero Ha Hpos Hfirst);
      [reflexivity|].
    intros y ty Hy Ey. apply in_app_or in Hy as [Hy|[<-|Hy]].
    - apply (Hmax y ty); [|assumption].
      apply in_or_app. right. apply in_or_app. now left.
    - exact Hba.
    - apply (Hmax y ty); [|assumption].
      apply in_or_app. right. apply in_or_app. now right. }
  split; [exact E|].
  intros doc' H1 H2. now rewrite (scoreScan_depends doc doc' H1 H2).
Qed.

(** ** Classification *)

Ltac settle :=
  repeat split; intros;
  repeat match goal with H : _ /\ _ |- _ => destruct H end;
  try discriminate; try lia; try congruence; auto.

Lemma dedupeNodes_spec (l : list Element) (seen : list nat) :
  NoDup (map nodeId (dedupeNodes seen l))
  /\ forall e, In e (dedupeNodes seen l) -> ~ In (nodeId e) seen.
Proof.
  revert seen. induction l as [|e l IH]; intros seen; simpl.
  - split; [constructor | contradiction].
  - destruct (existsb (Nat.eqb (nodeId e)) seen) eqn:E.
    + apply IH.
    + destruct (IH (nodeId e :: seen)) as [Hnd Hout]. split.
      * simpl. constructor; [|assumption].
        intros Hin. apply in_map_iff in Hin as [e' [Heq Hin]].
        apply (Hout e' Hin). left. now symmetry.
      * intros e' [<-|Hin].
        -- intros Hin. assert (K : existsb (Nat.eqb (nodeId e)) seen = true).
           { apply existsb_exists. exists (nodeId e). split; [assumption|].
             apply Nat.eqb_refl. }
           congruence.
        -- intros Hs. apply (Hout e' Hin). now right.
Qed.

(** Filtering keeps the nodes distinct. *)
Lemma filter_distinct_nodes (keep : Element -> bool) (nodes : list Element) :
  NoDup (map nodeId nodes) -> NoDup (map nodeId (filter keep nodes)).
Proof.
  intros Hnd. induction nodes as [|e nodes IH]; [constructor|].
  cbn [map] in Hnd. apply NoDup_cons_iff in Hnd as [Hout Hnd].
  cbn [filter]. destruct (keep e); [|now apply IH].
  cbn [map]. apply NoDup_cons; [|now apply IH].
  intros Hin. apply Hout. apply in_map_iff in Hin as [e' [Hid Hin]].
  apply filter_In in Hin as [Hin _]. apply in_map_iff. now exists e'.
Qed.

(** C7: the answer options are distinct nodes with a text of 1 to 199
    code units; with two or more of them the page is a selection exercise,
    whether or not an input exists; typing needs fewer than two options and
    an input; then come game, test and vocabulary in this order, and the
    result is null exactly when all five checks fail. *)
Theorem classifier_priority (doc : Document) :
  let options := findAnswerOptions doc in
  let input := present (findAnswerInput doc) in
  let game := present (find doc WocabeeConfig.gameContainer None) in
  let test := present (find doc WocabeeConfig.testContainer None) in
  let pairs := extractWordPairs doc in
  (NoDup (map nodeId options)
   /\ forall opt, In opt options ->
        0 < length (getText opt) < 200)
  /\ (detectExerciseType doc = Some Selection <-> 2 <= length options)
  /\ (detectExerciseType doc = Some Typing
      <-> length options < 2 /\ input = true)
  /\ (detectExerciseType doc = Some Game
      <-> length options < 2 /\ input = false /\ game = true)
  /\ (detectExerciseType doc = Some Test
      <-> length options < 2 /\ input = false /\ game = false
          /\ test = true)
  /\ (detectExerciseType doc = Some Vocabulary
      <-> length options < 2 /\ input = false /\ game = false
          /\ test = false /\ pairs <> [])
  /\ (detectExerciseType doc = None
      <-> length options < 2 /\ input = false /\ game = false
          /\ test = false /\ pairs = []).
Proof.
  cbv zeta. split.
  { unfold findAnswerOptions. split.
    - apply filter_distinct_nodes. unfold findAll. apply dedupeNodes_spec.
    - intros opt Hin. apply filter_In in Hin as [_ H].
      apply andb_true_iff in H as [H H2].
      apply andb_true_iff in H as [_ H1].
      apply Nat.ltb_lt in H1, H2. lia. }
  unfold detectExerciseType.
  destruct (Nat.leb_spec 2 (length (findAnswerOptions doc))) as [H2|H2];
    [settle|].
  destruct (present (findAnswerInput doc)); [settle|].
  destruct (present (find doc WocabeeConfig.gameContainer None)); [settle|].
  destruct (present (find doc WocabeeConfig.testContainer None)); [settle|].
  destruct (extractWordPairs doc) as [|p ps]; cbn [length Nat.ltb Nat.leb];
    settle.
Qed.

End WithPlatform.

Import LatinCase RationalNumbers Pages WocabeeConfig.
Open Scope string_scope.

(** C6: [isUIText] is true for ["123456"], ["1700000000000"], ["OK"],
    ["next"] and ["správně"], and false for ["Haus"], ["dům"] and
    ["magnifique"], on the text as given and on the lower-cased text that
    the callers pass.  Accented letters count as letters: ["dům"] has three
    of them, and a text of two accented letters alone is accepted. *)
Theorem isUIText_examples :
  isUIText (lit "123456") = true
  /\ isUIText (lit "1700000000000") = true
  /\ isUIText (lit "OK") = true
  /\ isUIText (toLowerCase (lit "OK")) = true
  /\ isUIText (lit "next") = true
  /\ isUIText (lit "správně") = true
  /\ isUIText (lit "Haus") = false
  /\ isUIText (toLowerCase (lit "Haus")) = false
  /\ isUIText (lit "dům") = false
  /\ isUIText (lit "magnifique") = false
  /\ isUIText (toLowerCase (lit "Magnifique")) = false
  /\ count isLetter (lit "dům") = 3
  /\ isUIText (lit "ůž") = false.
Proof. vm_compute. repeat split. Qed.

(** A selection screen with four options and a stray search box. *)
Definition optionNodes : list Element :=
  [node 11 "BUTTON" "answer" "Hund" 16; node 12 "BUTTON" "answer" "Katze" 16;
   node 13 "BUTTON" "answer" "Maus" 16; node 14 "BUTTON" "answer" "Pferd" 16].

Definition selectionPage : Document :=
  page [(".answer", optionNodes);
        ("button:not(" ++ attr "type" "=" "submit" ++ ")", optionNodes);
        (classHas "answer", optionNodes);
        ("input" ++ attr "type" "=" "search", [textInput 15 EmptyString])]
       (node 10 "H1" EmptyString "cat" 32 :: optionNodes
        ++ [textInput 15 EmptyString])%list.

Lemma classifier_priority_witness :
  present (findAnswerInput selectionPage) = true
  /\ 2 <= length (findAnswerOptions selectionPage)
  /\ detectExerciseType selectionPage = Some Selection.
Proof.
  split; [reflexivity|].
  assert (H : 2 <= length (findAnswerOptions selectionPage))
    by (vm_compute; lia).
  split; [exact H|].
  apply (proj1 (proj2 (classifier_priority selectionPage))). exact H.
Defined.

(** Two spans of the same size in the upper half of the window, after a
    smaller line and before a footer line; no node is a heading or carries
    a class, so the first strategy finds nothing. *)
Definition lessonLine : Element := node 1 "DIV" plain "Lektion" 14.
Definition katzeSpan : Element := node 2 "SPAN" plain "Katze" 24.
Definition hundSpan : Element := node 3 "SPAN" plain "Hund" 24.
Definition footerLine : Element := node 4 "P" plain "Seite" 12.

Definition twoSpans : Document :=
  page [] [lessonLine; katzeSpan; hundSpan; footerLine].

Lemma scoring_tie_break_witness :
  prominentScan twoSpans = None
  /\ score twoSpans katzeSpan = score twoSpans hundSpan
  /\ scoreScan twoSpans = Some (lit "Katze")
  /\ findCurrentQuestion twoSpans = Some (lit "Katze").
Proof.
  split; [reflexivity|]. split; [reflexivity|].
  assert (H : scoreScan twoSpans = Some (lit "Katze")).
  { apply (@scoring_tie_break latin rationals twoSpans
             [lessonLine] katzeSpan [] hundSpan [footerLine]
             (lit "Katze") (lit "Hund")); try reflexivity.
    - intros y ty [<-|[<-|[]]] _; reflexivity.
    - intros y ty [<-|[]] _; reflexivity. }
  split; [exact H|].
  unfold findCurrentQuestion. rewrite H. reflexivity.
Defined.

End DomClaims.

(** * Properties of the feedback tracker *)

Module TrackerClaims.
Import JS JSFacts Json WocabeeState WocabeeDom WocabeeObserver.

Unset Implicit Arguments.

(** The tracker awaits the result for question [q]. *)
Definition awaiting (q : jsstring) : Tracker :=
  {| lastQuestion := Some q; isWaitingForResult := true |}.

(** The tracker is idle, [q] being the last question seen. *)
Definition idleAfter (q : jsstring) : Tracker :=
  {| lastQuestion := Some q; isWaitingForResult := false |}.

Section WithPlatform.
Context {CM : CaseMapping} {NO : NumberOps}.

(** The store after an attempt to learn [q -> answer]: [addWord] is called
    exactly when the extractor returned a non-empty answer. *)
Definition committed (q : jsstring) (extracted : option jsstring)
    (st : State) : State :=
  match extracted with
  | Some (c :: r) => fst (addWord (VStr q) (VStr (c :: r)) st)
  | _ => st
  end.

Lemma learnFrom_awaiting (extracted : option jsstring) (kind : LearnKind)
    (w : World) (q : jsstring) :
  tracker w = awaiting q -> q <> [] ->
  tracker (learnFrom extracted kind w) = idleAfter q
  /\ store (learnFrom extracted kind w) = committed q extracted (store w).
Proof.
  intros Ht Hq. unfold learnFrom. rewrite Ht. cbn [lastQuestion awaiting].
  destruct q as [|c0 q0]; [congruence|]. cbn [isEmpty].
  destruct extracted as [[|c r]|]; cbn [committed].
  - cbn. rewrite ?Ht. split; reflexivity.
  - cbn [isEmpty negb length Nat.ltb Nat.leb andb].
    destruct (addWord (VStr (c0 :: q0)) (VStr (c :: r)) (store w))
      as [st' added]. cbn. rewrite ?Ht. split; reflexivity.
  - cbn. rewrite ?Ht. split; reflexivity.
Qed.

(** C1, as amended: while the tracker awaits the result for [q] and the
    page shows no other question, a correct-feedback signal makes the
    tracker idle whether or not [findCorrectAnswer] returns an answer, and
    [addWord(q, answer)] is called exactly when the answer is not empty;
    without a correct-feedback signal an incorrect-feedback signal does
    the same with [findRevealedAnswer]; with neither signal the pass
    changes nothing and the tracker keeps waiting. *)
Theorem feedback_resolution (doc : Document) (w : World) (q : jsstring) :
  tracker w = awaiting q -> q <> [] ->
  (forall cq, findCurrentQuestion doc = Some cq -> cq = q) ->
  let w' := checkForFeedbackAndLearn doc w in
  let correct := present (find doc WocabeeConfig.correctFeedback None) in
  let incorrect := present (find doc WocabeeConfig.incorrectFeedback None) in
  (correct = true ->
     tracker w' = idleAfter q
     /\ store w' = committed q (findCorrectAnswer doc) (store w))
  /\ (correct = false -> incorrect = true ->
     tracker w' = idleAfter q
     /\ store w' = committed q (findRevealedAnswer doc) (store w))
  /\ (correct = false -> incorrect = false -> w' = w).
Proof.
  intros Ht Hq Hsame. cbv zeta. unfold checkForFeedbackAndLearn.
  assert (Hw1 : match findCurrentQuestion doc with
                | Some currentQuestion =>
                  if negb (isEmpty currentQuestion)
                     && (0 <? length currentQuestion)
                     && negb (sameQuestion currentQuestion
                                (lastQuestion (tracker w)))
                  then {| tracker := {| lastQuestion := Some currentQuestion;
                                        isWaitingForResult := true |};
                          store := store w; events := events w |}
                  else w
                | None => w
                end = w).
  { destruct (findCurrentQuestion doc) as [cq|] eqn:E; [|reflexivity].
    rewrite (Hsame cq eq_refl), Ht. cbn [lastQuestion awaiting sameQuestion].
    rewrite eqb_refl. cbn [negb]. now rewrite andb_false_r. }
  rewrite Hw1, Ht. cbn [lastQuestion awaiting isWaitingForResult].
  destruct q as [|c0 q0] eqn:Eq; [congruence|]. cbn [isEmpty].
  rewrite <- Eq in *. clear Eq.
  destruct (present (find doc WocabeeConfig.correctFeedback None)) eqn:Ec;
    cbn [andb].
  - destruct (learnFrom_awaiting (findCorrectAnswer doc) LearnedCorrect w q
                Ht Hq) as [Htr Hst].
    unfold learnFromCorrectAnswer. rewrite Htr.
    cbn [isWaitingForResult idleAfter]. rewrite andb_false_r.
    split; [auto|]. split; intros; discriminate.
  - rewrite Ht. cbn [isWaitingForResult awaiting].
    destruct (present (find doc WocabeeConfig.incorrectFeedback None)) eqn:Ei;
      cbn [andb].
    + split; [intros; discriminate|]. split; [|intros; discriminate].
      intros _ _. unfold learnFromIncorrectAnswer.
      now apply learnFrom_awaiting.
    + split; [intros; discriminate|]. split; [intros; discriminate|].
      reflexivity.
Qed.

End WithPlatform.

Import LatinCase RationalNumbers Pages WocabeeConfig.
Open Scope string_scope.

(** The question and a praise line without the answer in it; the praise
    line answers every selector that matches its class. *)
Definition katzeHeading : Element := node 1 "H1" plain "Katze" 32.
Definition praise : Element := node 2 "DIV" "correct" "Correct!" 16.

Definition praisePage : Document :=
  page [("h1", [katzeHeading]);
        (".correct", [praise]);
        (classHas "correct", [praise]);
        (".correct:not(.selected)", [praise]);
        (classHas "correct" ++ ":not(" ++ classHas "in" ++ ")", [praise])]
       [katzeHeading; praise].

(** The question and an error line that does not reveal the answer. *)
Definition scold : Element := node 2 "DIV" "wrong" "Wrong!" 16.

Definition scoldPage : Document :=
  page [("h1", [katzeHeading]);
        (".wrong", [scold]);
        (classHas "wrong", [scold])]
       [katzeHeading; scold].

Definition awaitingKatze : World :=
  {| tracker := awaiting (lit "Katze"); store := emptyState; events := [] |}.

(** C1 fails as stated: with the tracker awaiting the result for "Katze",
    a correct-feedback signal whose extractor finds no answer, and likewise
    an incorrect-feedback signal whose extractor finds none, ends the
    waiting instead of leaving the state as it was. *)
Lemma feedback_resolution_counterexample :
  present (find praisePage correctFeedback None) = true
  /\ findCorrectAnswer praisePage = None
  /\ tracker (checkForFeedbackAndLearn praisePage awaitingKatze)
     = idleAfter (lit "Katze")
  /\ present (find scoldPage correctFeedback None) = false
  /\ present (find scoldPage incorrectFeedback None) = true
  /\ findRevealedAnswer scoldPage = None
  /\ tracker (checkForFeedbackAndLearn scoldPage awaitingKatze)
     = idleAfter (lit "Katze")
  /\ idleAfter (lit "Katze") <> tracker awaitingKatze.
Proof.
  repeat (split; [reflexivity|]). discriminate.
Qed.

(** The input of a typing exercise still holds the accepted answer. *)
Definition acceptedPage : Document :=
  page [("h1", [katzeHeading]);
        (".correct", [praise]);
        (classHas "correct", [praise]);
        ("input" ++ attr "type" "=" "text", [textInput 3 "cat"])]
       [katzeHeading; praise; textInput 3 "cat"].

Lemma feedback_resolution_witness :
  tracker (checkForFeedbackAndLearn acceptedPage awaitingKatze)
  = idleAfter (lit "Katze")
  /\ findTranslation (VStr (lit "Katze"))
       (store (checkForFeedbackAndLearn acceptedPage awaitingKatze))
     = Some [lit "cat"].
Proof.
  assert (Hq : lit "Katze" <> []) by discriminate.
  assert (Hsame : forall cq, findCurrentQuestion acceptedPage = Some cq ->
                             cq = lit "Katze")
    by (intros cq H; vm_compute in H; now injection H as <-).
  destruct (proj1 (@feedback_resolution latin rationals acceptedPage
                     awaitingKatze (lit "Katze") eq_refl Hq Hsame) eq_refl)
    as [Htr Hst].
  split; [exact Htr|].
  rewrite Hst. reflexivity.
Defined.

End TrackerClaims.

(** * The worked examples of the specification *)

Module SpecExamples.
Import JS Json WocabeeState WocabeeDom WocabeeObserver.
Import LatinCase RationalNumbers Pages WocabeeConfig.
Import StoreClaims TrackerClaims.
Open Scope string_scope.

(** The page that first shows the question. *)
Definition questionPage : Document :=
  page [("h1", [katzeHeading])] [katzeHeading].

(** The next question. *)
Definition hundPage : Document :=
  page [("h1", [node 1 "H1" plain "Hund" 32])]
       [node 1 "H1" plain "Hund" 32].

(** "Katze" is discovered, a correct-feedback signal appears while the
    input holds "cat": the pair is learned and the tracker is idle; the
    discovery of "Hund" then starts a new wait and leaves the store as it
    is. *)
Example katze_then_hund :
  let w1 := checkForFeedbackAndLearn questionPage initialWorld in
  let w2 := checkForFeedbackAndLearn acceptedPage w1 in
  let w3 := checkForFeedbackAndLearn hundPage w2 in
  tracker w1 = awaiting (lit "Katze")
  /\ tracker w2 = idleAfter (lit "Katze")
  /\ findTranslation (word "Katze") (store w2) = Some [lit "cat"]
  /\ events w2 = [{| eventQuestion := lit "Katze"; eventAnswer := lit "cat";
                     eventKind := LearnedCorrect |}]
  /\ tracker w3 = awaiting (lit "Hund")
  /\ store w3 = store w2.
Proof. vm_compute. repeat split. Qed.

(** With only [Katze -> cat] stored, the partial match answers "Katz". *)
Example partial_match :
  findTranslation (word "Katz")
    (fst (addWord (word "Katze") (word "cat") emptyState))
  = Some [lit "cat"].
Proof. reflexivity. Qed.

(** The error line of a page may spell out the answer. *)
Example revealed_by_phrase :
  findRevealedAnswer
    (page [(".wrong", [node 2 "DIV" "wrong"
                         "Wrong! The correct answer is: Haus" 16])] [])
  = Some (lit "Haus").
Proof. reflexivity. Qed.

End SpecExamples.

(** * Further properties of the word store *)

Module StoreCoverage.
Import JS Json JSFacts JSMap JSMapFacts WocabeeState StoreFacts
       NormalizeFacts JsonFacts RoundTrip StoreClaims.

(** ** White space in a normalized word *)

Lemma collapse_from_space (b : bool) (s : jsstring) (c : N) :
  In c (collapse_from b s) -> isWhiteSpace c = true -> c = 32%N.
Proof.
  revert b. induction s as [|x s IH]; intros b; simpl; [contradiction|].
  destruct (isWhiteSpace x) eqn:E.
  - destruct b.
    + apply IH.
    + intros [<-|H]; [reflexivity | now apply (IH true)].
  - intros [<-|H] Hc; [congruence | now apply (IH false)].
Qed.

(** ** Invariants of every reachable store *)

Section WithCaseMapping.
Context {CM : CaseMapping}.

Lemma normalizeWord_not_string (v : value) :
  isNonEmptyString v = false -> normalizeWord v = [].
Proof. destruct v as [| | |[|c r]| |]; simpl; congruence. Qed.

Lemma normalizeWord_trimmed (v : value) :
  trim (normalizeWord v) = normalizeWord v.
Proof.
  destruct v as [| | |[|c r]| |]; try reflexivity.
  cbn [normalizeWord]. apply trim_fixed. rewrite toLowerCase_trim.
  apply collapse_noEdgeSpace, trim_noEdgeSpace.
Qed.

Lemma normalizeWord_collapsed (v : value) :
  collapseWhitespace (normalizeWord v) = normalizeWord v.
Proof.
  destruct v as [| | |[|c r]| |]; try reflexivity.
  cbn [normalizeWord]. apply collapse_idempotent.
Qed.

(** X1: [normalizeWord] is idempotent; its result is unchanged by [trim]
    and by the collapsing of white space, and the only white space in it
    is the space U+0020. *)
Theorem normalizeWord_normal_form (v : value) :
  normalizeWord (VStr (normalizeWord v)) = normalizeWord v
  /\ trim (normalizeWord v) = normalizeWord v
  /\ collapseWhitespace (normalizeWord v) = normalizeWord v
  /\ forall c, In c (normalizeWord v) -> isWhiteSpace c = true -> c = 32%N.
Proof.
  split; [apply normalizeWord_idempotent|].
  split; [apply normalizeWord_trimmed|].
  split; [apply normalizeWord_collapsed|].
  destruct v as [| | |[|c0 r]| |]; try contradiction.
  cbn [normalizeWord]. intros c. apply collapse_from_space.
Qed.

Lemma isNonEmptyString_VStr (s : jsstring) :
  isNonEmptyString (VStr s) = negb (isEmpty s).
Proof. now destruct s. Qed.

Lemma passesValidation_same (a b : value) :
  passesValidation (VStr (normalizeWord a)) (VStr (normalizeWord b))
  = passesValidation a b.
Proof.
  destruct (passesValidation a b) eqn:Hv;
    [now apply passesValidation_normalized|].
  unfold passesValidation in *.
  rewrite !isNonEmptyString_VStr, !negb_involutive, !normalizeWord_idempotent.
  destruct (isEmpty (normalizeWord a) || isEmpty (normalizeWord b)) eqn:He;
    [reflexivity|].
  destruct (negb (isNonEmptyString a) || negb (isNonEmptyString b)) eqn:Hs;
    [|exact Hv].
  exfalso. apply orb_false_iff in He as [Ha Hb].
  apply orb_true_iff in Hs as [Hs|Hs]; apply negb_true_iff in Hs.
  - now rewrite (normalizeWord_not_string _ Hs) in Ha.
  - now rewrite (normalizeWord_not_string _ Hs) in Hb.
Qed.

(** X2: [addWord] acts on the normal forms of its arguments: a call with
    any two values does what the call with their normalized forms does. *)
Theorem addWord_normalized_arguments (a b : value) (st : State) :
  addWord a b st
  = addWord (VStr (normalizeWord a)) (VStr (normalizeWord b)) st.
Proof.
  unfold addWord. rewrite passesValidation_same, !normalizeWord_idempotent.
  reflexivity.
Qed.

(** What the guards of [addWord] establish about the normalized pair. *)
Lemma passesValidation_facts (a b : value) :
  passesValidation a b = true ->
  normalizeWord a <> [] /\ normalizeWord b <> []
  /\ normalizeWord a <> normalizeWord b
  /\ allDigits (normalizeWord a) = false
  /\ allDigits (normalizeWord b) = false
  /\ 2 <= count isLetter (normalizeWord a)
  /\ 2 <= count isLetter (normalizeWord b)
  /\ forall w, In w uiWords ->
       str_includes (toLowerCase (normalizeWord a)) w = false
       /\ str_includes (toLowerCase (normalizeWord b)) w = false.
Proof.
  unfold passesValidation.
  destruct (negb (isNonEmptyString a) || negb (isNonEmptyString b));
    [discriminate|].
  destruct (isEmpty (normalizeWord a) || isEmpty (normalizeWord b)) eqn:He;
    [discriminate|].
  destruct (eqb (normalizeWord a) (normalizeWord b)) eqn:Eab;
    [discriminate|].
  destruct (allDigits (normalizeWord a) || allDigits (normalizeWord b))
    eqn:Ed; [discriminate|].
  destruct (startsWithTenDigits (normalizeWord a)
            || startsWithTenDigits (normalizeWord b)); [discriminate|].
  destruct ((count isLetter (normalizeWord a) <? 2)
            || (count isLetter (normalizeWord b) <? 2)) eqn:El;
    [discriminate|].
  destruct (existsb _ uiWords) eqn:Eu; [discriminate|].
  intros _.
  apply orb_false_iff in He as [Ha Hb].
  apply orb_false_iff in Ed as [Hda Hdb].
  apply orb_false_iff in El as [Hla Hlb].
  apply Nat.ltb_ge in Hla, Hlb.
  split; [intros E; now rewrite E in Ha|].
  split; [intros E; now rewrite E in Hb|].
  split; [now apply eqb_neq|].
  repeat (split; [assumption|]).
  intros w Hw.
  apply orb_false_iff.
  destruct (str_includes (toLowerCase (normalizeWord a)) w
            || str_includes (toLowerCase (normalizeWord b)) w) eqn:E;
    [|reflexivity].
  exfalso. apply not_true_iff_false in Eu. apply Eu.
  apply existsb_exists. now exists w.
Qed.

(** X3: in a store reached from the empty one by any sequence of [add],
    [addMany], [clear] and [importAll], the keys are distinct, no key has
    an empty or repeating list, and every stored source and target is its
    own normal form, differs from its partner, is not made of digits only,
    has two letters or more and contains none of the store's UI words. *)
Theorem stored_words_invariant (ops : list operation) (k : jsstring)
    (l : list jsstring) :
  In (k, l) (wordDatabase (run ops)) ->
  NoDup (keys (wordDatabase (run ops)))
  /\ l <> [] /\ NoDup l
  /\ normalizeWord (VStr k) = k
  /\ allDigits k = false /\ 2 <= count isLetter k
  /\ (forall w, In w uiWords -> str_includes (toLowerCase k) w = false)
  /\ forall t, In t l ->
       normalizeWord (VStr t) = t /\ t <> k
       /\ allDigits t = false /\ 2 <= count isLetter t
       /\ (forall w, In w uiWords -> str_includes (toLowerCase t) w = false).
Proof.
  intros Hin. destruct (wellStored_run ops) as [Hnd Hall].
  destruct (Hall k l Hin) as [Hne [Hndl Hp]].
  split; [assumption|]. split; [assumption|]. split; [assumption|].
  assert (Hk : forall t, In t l ->
            normalizeWord (VStr k) = k /\ normalizeWord (VStr t) = t
            /\ k <> [] /\ t <> [] /\ k <> t
            /\ allDigits k = false /\ allDigits t = false
            /\ 2 <= count isLetter k /\ 2 <= count isLetter t
            /\ forall w, In w uiWords ->
                 str_includes (toLowerCase k) w = false
                 /\ str_includes (toLowerCase t) w = false).
  { intros t Ht. destruct (Hp t Ht) as [Hv [Ek Et]].
    apply passesValidation_facts in Hv. rewrite Ek, Et in Hv.
    tauto. }
  destruct l as [|t0 l0]; [congruence|].
  destruct (Hk t0 (or_introl eq_refl))
    as [Ek [_ [_ [_ [_ [Hdk [_ [Hlk [_ Hu]]]]]]]]].
  split; [assumption|]. split; [assumption|]. split; [assumption|].
  split; [intros w Hw; apply (Hu w Hw)|].
  intros t Ht.
  destruct (Hk t Ht) as [_ [Et [_ [_ [Hne' [_ [Hdt [_ [Hlt Hu']]]]]]]]].
  split; [assumption|]. split; [congruence|].
  split; [assumption|]. split; [assumption|].
  intros w Hw. apply (Hu' w Hw).
Qed.

(** ** Induction over the reachable stores *)

Lemma addWords_invariant (P : State -> Prop) :
  (forall a b st, P st -> P (fst (addWord a b st))) ->
  forall ps st, P st -> P (fst (addWords ps st)).
Proof.
  intros Hadd ps st. unfold addWords. generalize 0.
  revert st. induction ps as [|p ps IH]; intros st n H; simpl; [assumption|].
  pose proof (Hadd (fst p) (snd p) st H) as K.
  destruct (addWord (fst p) (snd p) st) as [st' r]. apply IH. exact K.
Qed.

Lemma importPairs_invariant (P : State -> Prop) :
  (forall a b st, P st -> P (fst (addWord a b st))) ->
  forall ps acc, P (fst acc) -> P (fst (importPairs ps acc)).
Proof.
  intros Hadd ps. unfold importPairs.
  induction ps as [|p ps IH]; intros acc H; simpl; [assumption|].
  apply IH.
  pose proof (Hadd (VStr (fst p)) (snd p) (fst acc) H) as K.
  now destruct (addWord (VStr (fst p)) (snd p) (fst acc)).
Qed.

Lemma importDatabase_invariant (P : State -> Prop) :
  (forall a b st, P st -> P (fst (addWord a b st))) ->
  forall text st, P st -> P (fst (importDatabase text st)).
Proof.
  intros Hadd text st H. unfold importDatabase, importBody.
  destruct (JSON_parse text) as [data|]; [|assumption].
  destruct (Object_entries data) as [entries|e]; [|assumption].
  rewrite importEntries_pairs.
  pose proof (importPairs_invariant P Hadd (pairsOf entries) (st, 0) H) as K.
  now destruct (importPairs (pairsOf entries) (st, 0)).
Qed.

(** A property of the empty store that every [addWord] keeps holds of
    every reachable store. *)
Lemma run_invariant (P : State -> Prop) :
  P emptyState ->
  (forall a b st, P st -> P (fst (addWord a b st))) ->
  forall ops, P (run ops).
Proof.
  intros Hempty Hadd ops. unfold run.
  assert (G : forall st, P st -> P (fold_left perform ops st)).
  { induction ops as [|op ops IH]; intros st H; simpl; [assumption|].
    apply IH. destruct op; simpl.
    - now apply Hadd.
    - now apply addWords_invariant.
    - exact Hempty.
    - now apply importDatabase_invariant. }
  now apply G.
Qed.

(** ** The counter of indexed words *)

Definition counted (st : State) : Prop :=
  wordsIndexed st = N.of_nat (totalTranslations st).

Lemma counted_addWord (a b : value) (st : State) :
  counted st -> counted (fst (addWord a b st)).
Proof.
  unfold counted. intros H.
  pose proof (addWord_counts a b st) as K.
  destruct (addWord a b st) as [st' r] eqn:E. cbn [fst snd] in *.
  destruct r.
  - rewrite K. unfold addWord in E.
    destruct (passesValidation a b); [|discriminate].
    rewrite commitPair_spec in E.
    destruct (includes _ _); [discriminate|].
    injection E as <-. cbn [wordsIndexed]. rewrite H. lia.
  - apply addWord_false in E. now subst.
Qed.

Lemma counted_run (ops : list operation) : counted (run ops).
Proof.
  apply run_invariant; [reflexivity|].
  intros a b st. apply counted_addWord.
Qed.

(** X4: after any sequence of store operations from the empty store, the
    counter [stats.wordsIndexed] equals the number of translations in the
    primary mapping, the [totalTranslations] of [getStats]. *)
Theorem wordsIndexed_counts_translations (ops : list operation) :
  wordsIndexed (run ops) = N.of_nat (totalTranslations (run ops)).
Proof. apply counted_run. Qed.

(** ** Export and import *)

Lemma exportDatabase_parsed (st : State) :
  wellStored (wordDatabase st) ->
  JSON_parse (exportDatabase st) = Some (VObj (map entry (wordDatabase st))).
Proof.
  intros Hw. unfold exportDatabase.
  rewrite (export_parses Hw), (Object_fromEntries_wellStored Hw).
  reflexivity.
Qed.

(** X5: the export of a reachable store is a JSON text that parses, and
    the parsed object lists every source key, in the order of the primary
    mapping, with the array of its translations in their order. *)
Theorem exportDatabase_parses (ops : list operation) :
  JSON_parse (exportDatabase (run ops))
  = Some (VObj (map entry (wordDatabase (run ops)))).
Proof. apply exportDatabase_parsed, wellStored_run. Qed.

Lemma importDatabase_gain (text : jsstring) (st : State) :
  totalTranslations (fst (importDatabase text st))
  = totalTranslations st + snd (importDatabase text st).
Proof.
  unfold importDatabase, importBody.
  destruct (JSON_parse text) as [data|]; [|simpl; lia].
  destruct (Object_entries data) as [entries|e]; [|simpl; lia].
  rewrite importEntries_pairs.
  pose proof (importPairs_counts (pairsOf entries) (st, 0)) as K.
  destruct (importPairs (pairsOf entries) (st, 0)). simpl in *. lia.
Qed.

Lemma totalTranslations_wordDatabase (st st' : State) :
  wordDatabase st = wordDatabase st' ->
  totalTranslations st = totalTranslations st'.
Proof. unfold totalTranslations. now intros ->. Qed.

(** X6: importing the export of a reachable store into the empty store
    gives back the primary mapping itself, keys and translations in the
    same order; the call returns the number of translations, the counter
    of indexed words takes its old value, and the reverse index lists the
    same sources under every target. *)
Theorem import_of_export_restores (ops : list operation) :
  let st := run ops in
  let r := importDatabase (exportDatabase st) emptyState in
  wordDatabase (fst r) = wordDatabase st
  /\ snd r = totalTranslations st
  /\ wordsIndexed (fst r) = wordsIndexed st
  /\ forall s t, In s (getOr (reverseDatabase (fst r)) t)
                 <-> In s (getOr (reverseDatabase st) t).
Proof.
  cbv zeta.
  pose proof (import_export_wordDatabase _ (wellStored_run ops)) as Hdb.
  pose proof (importDatabase_gain (exportDatabase (run ops)) emptyState)
    as Hgain.
  rewrite (totalTranslations_wordDatabase _ _ Hdb) in Hgain.
  change (totalTranslations emptyState) with 0 in Hgain.
  split; [exact Hdb|]. split; [lia|]. split.
  - assert (Hc : counted (fst (importDatabase (exportDatabase (run ops))
                                 emptyState))).
    { apply importDatabase_invariant; [|reflexivity].
      intros a b st. apply counted_addWord. }
    unfold counted in Hc. rewrite Hc, (counted_run ops).
    now rewrite (totalTranslations_wordDatabase _ _ Hdb).
  - intros s t.
    destruct (@inverted_importDatabase _ (exportDatabase (run ops))
                emptyState inverted_empty) as [Hi _].
    destruct (inverted_run_from ops inverted_empty) as [Hr _].
    fold (run ops) in Hr. rewrite Hi, Hdb, Hr. tauto.
Qed.

Lemma addWord_present (a b : value) (st : State) :
  passesValidation a b = true ->
  In (normalizeWord b) (getOr (wordDatabase st) (normalizeWord a)) ->
  addWord a b st = (st, false).
Proof.
  intros Hv Hin. rewrite (addWord_valid _ _ _ Hv), commitPair_spec.
  apply includes_In in Hin. now rewrite Hin.
Qed.

Lemma importPairs_noop (ps : list (jsstring * value)) (st : State) (n : nat) :
  (forall p, In p ps -> addWord (VStr (fst p)) (snd p) st = (st, false)) ->
  importPairs ps (st, n) = (st, n).
Proof.
  unfold importPairs. induction ps as [|p ps IH]; intros H; [reflexivity|].
  simpl. rewrite (H p (or_introl eq_refl)). apply IH.
  intros q Hq. apply H. now right.
Qed.

(** X7: importing the export of a reachable store into that same store
    imports nothing: the result is 0 and the store is unchanged. *)
Theorem import_own_export_is_noop (ops : list operation) :
  importDatabase (exportDatabase (run ops)) (run ops) = (run ops, 0).
Proof.
  pose proof (wellStored_run ops) as Hw.
  unfold importDatabase, importBody.
  rewrite (exportDatabase_parsed _ Hw). cbn [Object_entries].
  rewrite importEntries_pairs, pairsOf_entries, importPairs_noop;
    [reflexivity|].
  intros p Hp. apply in_flat_map in Hp as [[k l] [Hkl Hp]].
  apply in_map_iff in Hp as [t [<- Ht]]. cbn [fst snd] in *.
  destruct Hw as [Hnd Hall].
  destruct (Hall k l Hkl) as [_ [_ Hst]].
  destruct (Hst t Ht) as [Hv [Ek Et]].
  apply addWord_present; [assumption|].
  rewrite Ek, Et. unfold getOr. now rewrite (In_get _ _ _ Hnd Hkl).
Qed.

(** ** [addWords] *)

Definition addStep (acc : State * nat) (pair : value * value) : State * nat :=
  let (st', added) := addWord (fst pair) (snd pair) (fst acc) in
  (st', if added then S (snd acc) else snd acc).

Lemma addSteps_counts (ps : list (value * value)) (acc : State * nat) :
  totalTranslations (fst (fold_left addStep ps acc)) + snd acc
  = totalTranslations (fst acc) + snd (fold_left addStep ps acc)
  /\ snd acc <= snd (fold_left addStep ps acc) <= snd acc + length ps.
Proof.
  revert acc. induction ps as [|p ps IH]; intros acc; simpl; [lia|].
  specialize (IH (addStep acc p)).
  assert (E : totalTranslations (fst (addStep acc p)) + snd acc
              = totalTranslations (fst acc) + snd (addStep acc p)
              /\ snd acc <= snd (addStep acc p) <= S (snd acc)).
  { unfold addStep.
    pose proof (addWord_counts (fst p) (snd p) (fst acc)) as K.
    destruct (addWord (fst p) (snd p) (fst acc)) as [st' r].
    simpl in *. destruct r; lia. }
  lia.
Qed.

Lemma addSteps_keeps (ps : list (value * value)) (acc : State * nat)
    (s t : jsstring) :
  In t (getOr (wordDatabase (fst acc)) s) ->
  In t (getOr (wordDatabase (fst (fold_left addStep ps acc))) s).
Proof.
  revert acc. induction ps as [|p ps IH]; intros acc H; simpl; [assumption|].
  apply IH. unfold addStep.
  pose proof (addWord_keeps (fst p) (snd p) (fst acc) s t H) as K.
  now destruct (addWord (fst p) (snd p) (fst acc)).
Qed.

Lemma addSteps_stores (ps : list (value * value)) (acc : State * nat)
    (p : value * value) :
  In p ps -> passesValidation (fst p) (snd p) = true ->
  In (normalizeWord (snd p))
     (getOr (wordDatabase (fst (fold_left addStep ps acc)))
            (normalizeWord (fst p))).
Proof.
  revert acc. induction ps as [|q ps IH]; intros acc Hin Hv; [contradiction|].
  simpl. destruct Hin as [->|Hin]; [|now apply IH].
  apply addSteps_keeps. unfold addStep.
  pose proof (addWord_stores (fst p) (snd p) (fst acc) Hv) as K.
  now destruct (addWord (fst p) (snd p) (fst acc)).
Qed.

Lemma addSteps_noop (ps : list (value * value)) (st : State) (n : nat) :
  (forall p, In p ps -> addWord (fst p) (snd p) st = (st, false)) ->
  fold_left addStep ps (st, n) = (st, n).
Proof.
  induction ps as [|p ps IH]; intros H; [reflexivity|].
  simpl. unfold addStep at 2. cbn [fst snd].
  rewrite (H p (or_introl eq_refl)). apply IH.
  intros q Hq. apply H. now right.
Qed.

Lemma addSteps_unchanged (ps : list (value * value)) (acc : State * nat) :
  snd (fold_left addStep ps acc) = snd acc ->
  fst (fold_left addStep ps acc) = fst acc.
Proof.
  revert acc. induction ps as [|p ps IH]; intros acc H; [reflexivity|].
  simpl in *.
  pose proof (proj2 (addSteps_counts ps (addStep acc p))) as B.
  assert (E : snd (addStep acc p) = snd acc /\ fst (addStep acc p) = fst acc).
  { unfold addStep in *.
    destruct (addWord (fst p) (snd p) (fst acc)) as [st' r] eqn:Ea.
    cbn [fst snd] in *. destruct r; [lia|].
    apply addWord_false in Ea. now subst. }
  destruct E as [E1 E2]. rewrite IH; [assumption | congruence].
Qed.

Lemma addWords_fold (ps : list (value * value)) (st : State) :
  addWords ps st = fold_left addStep ps (st, 0).
Proof. reflexivity. Qed.

Lemma addWords_gain (ps : list (value * value)) (st : State) :
  totalTranslations (fst (addWords ps st))
  = totalTranslations st + snd (addWords ps st).
Proof.
  rewrite addWords_fold.
  destruct (addSteps_counts ps (st, 0)) as [H _]. cbn [fst snd] in H. lia.
Qed.

Lemma addWords_unchanged (ps : list (value * value)) (st : State) :
  snd (addWords ps st) = 0 -> fst (addWords ps st) = st.
Proof. rewrite addWords_fold. apply (addSteps_unchanged ps (st, 0)). Qed.

Lemma addWords_present (ps : list (value * value)) (st : State) :
  (forall p, In p ps -> passesValidation (fst p) (snd p) = true ->
     In (normalizeWord (snd p))
        (getOr (wordDatabase st) (normalizeWord (fst p)))) ->
  addWords ps st = (st, 0).
Proof.
  intros H. apply addSteps_noop. intros p Hp.
  destruct (passesValidation (fst p) (snd p)) eqn:Hv.
  - apply addWord_present; auto.
  - now apply addWord_rejected.
Qed.

(** X8: the count that [addWords] returns is the number of translations
    the store gained; it is at most the number of pairs given, no stored
    translation is lost, and every pair that passes the guards of
    [addWord] is in the store afterwards. *)
Theorem addWords_counts_gain (wordPairs : list (value * value)) (st : State) :
  totalTranslations (fst (addWords wordPairs st))
  = totalTranslations st + snd (addWords wordPairs st)
  /\ snd (addWords wordPairs st) <= length wordPairs
  /\ (forall s t, In t (getOr (wordDatabase st) s) ->
        In t (getOr (wordDatabase (fst (addWords wordPairs st))) s))
  /\ (forall a b, In (a, b) wordPairs -> passesValidation a b = true ->
        In (normalizeWord b)
           (getOr (wordDatabase (fst (addWords wordPairs st)))
                  (normalizeWord a))).
Proof.
  change (addWords wordPairs st) with (fold_left addStep wordPairs (st, 0)).
  destruct (addSteps_counts wordPairs (st, 0)) as [H1 H2]. cbn [fst snd] in *.
  split; [lia|]. split; [lia|]. split.
  - intros s t. apply (addSteps_keeps wordPairs (st, 0)).
  - intros a b Hin Hv.
    apply (addSteps_stores wordPairs (st, 0) (a, b) Hin Hv).
Qed.

Lemma addWords_again (ps : list (value * value)) (st : State) :
  addWords ps (fst (addWords ps st)) = (fst (addWords ps st), 0).
Proof.
  apply addWords_present. intros p Hp Hv.
  now apply (addSteps_stores ps (st, 0) p).
Qed.

(** X9: giving [addWords] the same pairs a second time adds nothing: the
    second call returns 0 and leaves the store as the first call left
    it. *)
Theorem addWords_twice (wordPairs : list (value * value)) (st : State) :
  addWords wordPairs (fst (addWords wordPairs st))
  = (fst (addWords wordPairs st), 0).
Proof. apply addWords_again. Qed.

(** ** Lookup *)

Lemma dedupe_In (l seen : list jsstring) (x : jsstring) :
  In x (dedupe seen l) <-> In x l /\ ~ In x seen.
Proof.
  revert seen. induction l as [|y l IH]; intros seen; simpl; [tauto|].
  destruct (includes seen y) eqn:E.
  - apply includes_In in E. rewrite IH. split; [tauto|].
    intros [[<-|H] Hn]; [contradiction | tauto].
  - apply includes_not_In in E. simpl. rewrite IH. simpl. split.
    + intros [<-|[H Hn]]; tauto.
    + intros [[<-|H] Hn]; [tauto|].
      destruct (eqb y x) eqn:Eyx.
      * apply eqb_eq in Eyx. tauto.
      * apply eqb_neq in Eyx. right. tauto.
Qed.

Lemma dedupe_NoDup (l seen : list jsstring) : NoDup (dedupe seen l).
Proof.
  revert seen. induction l as [|y l IH]; intros seen; simpl; [constructor|].
  destruct (includes seen y); [apply IH|].
  constructor; [|apply IH].
  intros H. apply dedupe_In in H as [_ H]. apply H. now left.
Qed.

(** The test of [findPartialMatch] on one key. *)
Definition partialHit (word k : jsstring) : bool :=
  str_includes (toLowerCase k) (toLowerCase word)
  || str_includes (toLowerCase word) (toLowerCase k).

(** [x] is listed under a key of either map that the test accepts. *)
Definition partialMatches (word : jsstring) (st : State) (x : jsstring)
    : Prop :=
  exists k vs,
    (In (k, vs) (wordDatabase st) \/ In (k, vs) (reverseDatabase st))
    /\ partialHit word k = true /\ In x vs.

Lemma scan_In (word : jsstring) (m : JSMap.t (list jsstring)) (x : jsstring) :
  In x (flat_map (fun kv =>
                    if str_includes (toLowerCase (fst kv)) (toLowerCase word)
                       || str_includes (toLowerCase word)
                                       (toLowerCase (fst kv))
                    then snd kv else []) m)
  <-> exists k vs, In (k, vs) m /\ partialHit word k = true /\ In x vs.
Proof.
  rewrite in_flat_map. unfold partialHit. split.
  - intros [[k vs] [Hin Hx]]. cbn [fst snd] in Hx.
    destruct (_ || _) eqn:E; [|contradiction]. now exists k, vs.
  - intros [k [vs [Hin [E Hx]]]]. exists (k, vs). cbn [fst snd].
    now rewrite E.
Qed.

Lemma findPartialMatch_shape (word : jsstring) (st : State) :
  match findPartialMatch word st with
  | Some l => l <> [] /\ NoDup l
              /\ forall x, In x l <-> partialMatches word st x
  | None => forall x, ~ partialMatches word st x
  end.
Proof.
  unfold findPartialMatch. cbv zeta.
  match goal with |- context [match ?m with [] => None | _ :: _ => _ end] =>
    set (matches := m) end.
  assert (Hm : forall x, In x matches <-> partialMatches word st x).
  { intros x. unfold matches, partialMatches.
    rewrite in_app_iff, !scan_In. split.
    - intros [[k [vs [H1 H2]]]|[k [vs [H1 H2]]]]; exists k, vs; tauto.
    - intros [k [vs [[H1|H1] H2]]]; [left|right]; exists k, vs; tauto. }
  destruct matches as [|m ms] eqn:E.
  - intros x H. now apply Hm in H.
  - split; [|split].
    + simpl. discriminate.
    + apply dedupe_NoDup.
    + intros x. rewrite dedupe_In, Hm. simpl. tauto.
Qed.

(** X10: [findPartialMatch] returns null exactly when no key of either
    map contains the word or is contained in it, case ignored, with a
    value to list; otherwise it returns a non-empty list without
    repetition that holds exactly the words listed under such keys. *)
Theorem findPartialMatch_result (word : jsstring) (st : State) :
  match findPartialMatch word st with
  | Some l => l <> [] /\ NoDup l
              /\ forall x, In x l <-> partialMatches word st x
  | None => forall x, ~ partialMatches word st x
  end.
Proof. apply findPartialMatch_shape. Qed.

(** X11: in a reachable store a lookup never yields an empty list: the
    result of [findTranslation] is null or holds at least one word. *)
Theorem findTranslation_never_empty (ops : list operation) (word : value)
    (l : list jsstring) :
  findTranslation word (run ops) = Some l -> l <> [].
Proof.
  unfold findTranslation.
  destruct (get (wordDatabase (run ops)) (normalizeWord word)) as [l0|] eqn:Ed.
  - intros H. injection H as <-. apply get_Some_In in Ed.
    destruct (wellStored_run ops) as [_ Hall]. now apply (Hall _ _ Ed).
  - destruct (get (reverseDatabase (run ops)) (normalizeWord word))
      as [l1|] eqn:Er.
    + intros H. injection H as <-.
      destruct (inverted_run_from ops inverted_empty) as [_ Hne].
      fold (run ops) in Hne.
      destruct (Hne (normalizeWord word)) as [s Hs].
      * unfold has. now rewrite Er.
      * unfold getOr in Hs. rewrite Er in Hs. intros ->. contradiction.
    + unfold findPartialMatch. cbv zeta.
      destruct (_ ++ _) as [|m ms]; [discriminate|].
      intros H. injection H as <-. simpl. discriminate.
Qed.

Lemma str_includes_empty (hay : jsstring) : str_includes hay [] = true.
Proof. now destruct hay. Qed.

(** X12: a lookup of a value that normalizes to the empty string (a
    non-string, the empty string, white space only) matches every key: on
    a platform whose lower-casing maps the empty string to itself, the
    result in a reachable store lists every stored translation and every
    stored source. *)
Theorem findTranslation_blank_lists_all (ops : list operation) (word : value)
    (s t : jsstring) :
  toLowerCase [] = [] ->
  normalizeWord word = [] ->
  In t (getOr (wordDatabase (run ops)) s) ->
  exists l, findTranslation word (run ops) = Some l /\ In t l /\ In s l.
Proof.
  intros Hlow Hw Hin.
  destruct (wellStored_run ops) as [Hnd Hall].
  destruct (inverted_run_from ops inverted_empty) as [Hinv Hne].
  fold (run ops) in Hinv, Hne.
  assert (Hkey : forall k vs, In (k, vs) (wordDatabase (run ops)) ->
            k <> [] /\ forall x, In x vs -> x <> []).
  { intros k vs Hk. destruct (Hall k vs Hk) as [Hvs [_ Hp]].
    assert (G : forall x, In x vs -> k <> [] /\ x <> []).
    { intros x Hx. destruct (Hp x Hx) as [Hv [Ek Ex]].
      apply passesValidation_facts in Hv. rewrite Ek, Ex in Hv. tauto. }
    destruct vs as [|x0 vs0]; [congruence|].
    split; [apply (G x0); now left | intros x Hx; now apply G]. }
  unfold findTranslation. rewrite Hw.
  assert (Ed : get (wordDatabase (run ops)) [] = None).
  { destruct (get (wordDatabase (run ops)) []) as [vs|] eqn:E; [|reflexivity].
    apply get_Some_In in E. now destruct (Hkey _ _ E). }
  assert (Er : get (reverseDatabase (run ops)) [] = None).
  { apply has_false_get.
    destruct (has (reverseDatabase (run ops)) []) eqn:E; [|reflexivity].
    destruct (Hne _ E) as [s0 Hs0]. apply Hinv in Hs0.
    unfold getOr in Hs0.
    destruct (get (wordDatabase (run ops)) s0) as [vs|] eqn:Eg;
      [|contradiction].
    apply get_Some_In in Eg. destruct (Hkey _ _ Eg) as [_ G].
    now destruct (G [] Hs0). }
  rewrite Ed, Er.
  pose proof (findPartialMatch_shape [] (run ops)) as Hshape.
  assert (Hall' : forall x, (exists k vs,
              (In (k, vs) (wordDatabase (run ops))
               \/ In (k, vs) (reverseDatabase (run ops))) /\ In x vs) ->
            partialMatches [] (run ops) x).
  { intros x [k [vs [H1 H2]]]. exists k, vs. split; [assumption|].
    split; [|assumption]. unfold partialHit.
    now rewrite Hlow, str_includes_empty. }
  assert (Ht : partialMatches [] (run ops) t).
  { apply Hall'. unfold getOr in Hin.
    destruct (get (wordDatabase (run ops)) s) as [vs|] eqn:Eg;
      [|contradiction].
    exists s, vs. split; [left; now apply get_Some_In | assumption]. }
  assert (Hs : partialMatches [] (run ops) s).
  { apply Hall'. apply Hinv in Hin. unfold getOr in Hin.
    destruct (get (reverseDatabase (run ops)) t) as [vs|] eqn:Eg;
      [|contradiction].
    exists t, vs. split; [right; now apply get_Some_In | assumption]. }
  destruct (findPartialMatch [] (run ops)) as [l|].
  - exists l. destruct Hshape as [_ [_ Hl]]. split; [reflexivity|].
    split; now apply Hl.
  - exfalso. exact (Hshape t Ht).
Qed.

End WithCaseMapping.

(** ** Rebuilding the reverse index *)

(** Every key of the map lists something. *)
Definition inhabited (m : JSMap.t (list jsstring)) : Prop :=
  forall t, has m t = true -> getOr m t <> [].

Lemma inhabited_pushed (m : JSMap.t (list jsstring)) (k x : jsstring) :
  inhabited m -> inhabited (pushed m k x).
Proof.
  intros H t Ht. unfold pushed in *. rewrite getOr_set.
  destruct (eqb t k) eqn:E.
  - intros C. now apply app_eq_nil in C as [_ C].
  - rewrite has_set, E in Ht. now apply H.
Qed.

Lemma inhabited_rebuilt (st : State) :
  inhabited (reverseDatabase (rebuildReverseDatabase st)).
Proof.
  unfold rebuildReverseDatabase. cbn [reverseDatabase].
  assert (Hinner : forall k l rv, inhabited rv ->
            inhabited (fold_left
                         (fun rv target =>
                            let rv1 := if has rv target then rv
                                       else set rv target [] in
                            set rv1 target (getOr rv1 target ++ [k]))
                         l rv)).
  { intros k l. induction l as [|x l IH]; intros rv H; cbn [fold_left];
      [assumption|].
    apply IH. cbv zeta. rewrite (rebuild_step rv x k).
    now apply inhabited_pushed. }
  assert (Houter : forall db rv, inhabited rv ->
            inhabited (fold_left
                         (fun rv (kv : jsstring * list jsstring) =>
                            fold_left
                              (fun rv target =>
                                 let rv1 := if has rv target then rv
                                            else set rv target [] in
                                 set rv1 target
                                     (getOr rv1 target ++ [fst kv]))
                              (snd kv) rv)
                         db rv)).
  { induction db as [|kv db IH]; intros rv H; cbn [fold_left]; [assumption|].
    apply IH. now apply Hinner. }
  apply Houter. intros t Ht. discriminate.
Qed.

(** X13: [rebuildReverseDatabase] leaves the primary mapping as it is and
    makes the reverse index its inversion: for a primary mapping (its keys
    distinct, as in any Map), a target lists a source exactly when the
    source lists the target, and every key of the rebuilt index is a
    stored translation. *)
Theorem rebuildReverseDatabase_inverts (st : State) :
  NoDup (keys (wordDatabase st)) ->
  wordDatabase (rebuildReverseDatabase st) = wordDatabase st
  /\ (forall s t,
        In s (getOr (reverseDatabase (rebuildReverseDatabase st)) t)
        <-> In t (getOr (wordDatabase st) s))
  /\ (forall t, has (reverseDatabase (rebuildReverseDatabase st)) t = true ->
        exists s, In t (getOr (wordDatabase st) s)).
Proof.
  intros Hnd. split; [reflexivity|].
  split; [apply (rebuild_is_inversion st Hnd)|].
  intros t Ht. apply inhabited_rebuilt in Ht.
  destruct (getOr (reverseDatabase (rebuildReverseDatabase st)) t)
    as [|s l] eqn:E; [congruence|].
  exists s. apply (rebuild_is_inversion st Hnd). rewrite E. now left.
Qed.

(** ** Documents that are not objects *)

Import LatinCase.

Lemma isDigit_cases (c : N) :
  isDigit c = true ->
  isWhiteSpace c = false /\ lowerLatin c = [c] /\ isLetter c = false.
Proof.
  unfold isDigit. intros H. apply andb_true_iff in H as [H1 H2].
  apply N.leb_le in H1, H2.
  assert (E : (c = 48 \/ c = 49 \/ c = 50 \/ c = 51 \/ c = 52 \/ c = 53
               \/ c = 54 \/ c = 55 \/ c = 56 \/ c = 57)%N) by lia.
  repeat (destruct E as [->|E]; [repeat split; reflexivity|]).
  subst c. repeat split; reflexivity.
Qed.

Lemma uint_digits (d : Decimal.uint) :
  forallb isDigit
    (map N_of_ascii (list_ascii_of_string (NilZero.string_of_uint d)))
  = true.
Proof.
  assert (G : forallb isDigit
                (map N_of_ascii
                     (list_ascii_of_string (NilEmpty.string_of_uint d)))
              = true).
  { induction d;
      cbn [NilEmpty.string_of_uint list_ascii_of_string map forallb];
      [reflexivity | rewrite IHd; reflexivity ..]. }
  destruct d; [reflexivity | exact G ..].
Qed.

Lemma digits_trim (s : jsstring) : forallb isDigit s = true -> trim s = s.
Proof.
  intros H. apply trim_fixed. unfold noEdgeSpace.
  assert (G : forall l : jsstring, forallb isDigit l = true ->
            match l with [] => True | c :: _ => isWhiteSpace c = false end).
  { intros [|c l] Hl; [exact I|]. simpl in Hl.
    apply andb_true_iff in Hl as [Hc _]. now apply isDigit_cases. }
  split; apply G; [assumption|].
  apply forallb_forall. intros x Hx. apply in_rev in Hx.
  now apply (proj1 (forallb_forall _ _) H).
Qed.

Lemma digits_lower (s : jsstring) :
  forallb isDigit s = true -> toLowerCaseLatin s = s.
Proof.
  induction s as [|c s IH]; [reflexivity|]. simpl. intros H.
  apply andb_true_iff in H as [Hc Hs].
  destruct (isDigit_cases _ Hc) as [_ [-> _]]. simpl. now rewrite IH.
Qed.

Lemma digits_collapse (s : jsstring) :
  forallb isDigit s = true -> collapse_from false s = s.
Proof.
  induction s as [|c s IH]; [reflexivity|]. simpl. intros H.
  apply andb_true_iff in H as [Hc Hs].
  destruct (isDigit_cases _ Hc) as [-> _]. now rewrite IH.
Qed.

Lemma digits_letters (s : jsstring) :
  forallb isDigit s = true -> count isLetter s = 0.
Proof.
  unfold count. induction s as [|c s IH]; [reflexivity|]. simpl. intros H.
  apply andb_true_iff in H as [Hc Hs].
  destruct (isDigit_cases _ Hc) as [_ [_ ->]]. now apply IH.
Qed.

Lemma digits_normalize (s : jsstring) :
  forallb isDigit s = true -> normalizeWord (VStr s) = s.
Proof.
  intros H. destruct s as [|c r]; [reflexivity|].
  cbn [normalizeWord toLowerCase latin].
  rewrite (digits_trim _ H), (digits_lower _ H).
  now apply digits_collapse.
Qed.

(** No pair under an array position passes the guards of [addWord]. *)
Lemma position_rejected (i : nat) (v : value) :
  passesValidation (VStr (decimalString i)) v = false.
Proof.
  pose proof (uint_digits (Nat.to_uint i)) as Hd.
  fold (decimalString i) in Hd.
  unfold passesValidation. rewrite (digits_normalize _ Hd).
  destruct (_ || _); [reflexivity|].
  destruct (_ || _); [reflexivity|].
  destruct (eqb _ _); [reflexivity|].
  destruct (_ || _); [reflexivity|].
  destruct (_ || _); [reflexivity|].
  now rewrite (digits_letters _ Hd).
Qed.

Lemma indexedFrom_positions (A : Type) (l : list A) (i : nat)
    (p : jsstring * A) :
  In p (indexedFrom i l) -> exists j, fst p = decimalString j.
Proof.
  revert i. induction l as [|x l IH]; intros i; simpl; [contradiction|].
  intros [<-|H]; [now exists i | now apply (IH (S i))].
Qed.

Lemma pairsOf_positions (entries : list (jsstring * value)) :
  (forall e, In e entries -> exists j, fst e = decimalString j) ->
  forall p, In p (pairsOf entries) -> exists j, fst p = decimalString j.
Proof.
  intros H p Hp. unfold pairsOf in Hp.
  apply in_flat_map in Hp as [e [He Hp]].
  apply in_map_iff in Hp as [t [<- _]]. cbn [fst]. now apply H.
Qed.

(** X14: with the Latin case mapping, a JSON text that parses to anything
    but an object (an array, a string, a number, a boolean, null) imports
    nothing: the result is 0 and the store is unchanged. *)
Theorem importDatabase_non_object (text : jsstring) (data : value)
    (st : State) :
  JSON_parse text = Some data ->
  (forall props, data <> VObj props) ->
  @importDatabase latin text st = (st, 0).
Proof.
  intros Hp Hno. unfold importDatabase, importBody. rewrite Hp.
  assert (Hpos : forall entries,
            (forall e, In e entries -> exists j, fst e = decimalString j) ->
            (let (st', imported) := importEntries entries (st, 0) in
             (st', Normal imported)) = (st, Normal 0)).
  { intros entries He. rewrite importEntries_pairs, importPairs_noop;
      [reflexivity|].
    intros p Hin. destruct (pairsOf_positions _ He _ Hin) as [j ->].
    apply addWord_rejected, position_rejected. }
  destruct data as [|b|n|s|elems|props]; cbn [Object_entries].
  - reflexivity.
  - reflexivity.
  - reflexivity.
  - rewrite Hpos; [reflexivity|]. intros e. apply indexedFrom_positions.
  - rewrite Hpos; [reflexivity|]. intros e. apply indexedFrom_positions.
  - now destruct (Hno props).
Qed.

(** ** Concrete runs *)

(** A store with two sources, one of them with two translations. *)
Definition sampleOps : list operation :=
  [OpAdd (word "Katze") (word "cat");
   OpAddMany [(word " Hund", word "dog"); (word "KATZE", word "gato")]].

Lemma stored_words_invariant_witness :
  In (lit "katze", [lit "cat"; lit "gato"]) (wordDatabase (run sampleOps))
  /\ NoDup [lit "cat"; lit "gato"].
Proof.
  assert (H : In (lit "katze", [lit "cat"; lit "gato"])
                 (wordDatabase (run sampleOps)))
    by (vm_compute; tauto).
  split; [exact H|].
  apply (@stored_words_invariant latin sampleOps _ _ H).
Defined.

Lemma findTranslation_never_empty_witness :
  findTranslation (word "dog") (run sampleOps) = Some [lit "hund"]
  /\ [lit "hund"] <> [].
Proof.
  assert (H : findTranslation (word "dog") (run sampleOps)
              = Some [lit "hund"]) by (vm_compute; reflexivity).
  split; [exact H|].
  apply (@findTranslation_never_empty latin sampleOps (word "dog") _ H).
Defined.

Lemma findTranslation_blank_lists_all_witness :
  exists l, findTranslation (word "   ") (run sampleOps) = Some l
            /\ In (lit "gato") l /\ In (lit "katze") l.
Proof.
  apply (@findTranslation_blank_lists_all latin sampleOps (word "   ")
           (lit "katze") (lit "gato")).
  - reflexivity.
  - vm_compute. reflexivity.
  - vm_compute. tauto.
Defined.

Lemma rebuildReverseDatabase_inverts_witness :
  NoDup (keys (wordDatabase (run sampleOps)))
  /\ In (lit "katze")
        (getOr (reverseDatabase (rebuildReverseDatabase (run sampleOps)))
               (lit "gato")).
Proof.
  assert (H : NoDup (keys (wordDatabase (run sampleOps)))).
  { vm_compute. repeat constructor; simpl; intuition discriminate. }
  split; [exact H|].
  destruct (rebuildReverseDatabase_inverts (run sampleOps) H)
    as [_ [Hinv _]].
  apply (proj2 (Hinv (lit "katze") (lit "gato"))). vm_compute. tauto.
Defined.

(** An array of two words, printed as JSON. *)
Definition wordArray : jsstring :=
  JSON_stringify (VArr [VStr (lit "Katze"); VStr (lit "cat")]).

Lemma importDatabase_non_object_witness :
  JSON_parse wordArray = Some (VArr [VStr (lit "Katze"); VStr (lit "cat")])
  /\ importDatabase wordArray (run sampleOps) = (run sampleOps, 0).
Proof.
  assert (H : JSON_parse wordArray
              = Some (VArr [VStr (lit "Katze"); VStr (lit "cat")]))
    by (vm_compute; reflexivity).
  split; [exact H|].
  apply (@importDatabase_non_object wordArray _ (run sampleOps) H).
  discriminate.
Defined.

End StoreCoverage.

(** * Further properties of the page queries *)

Module DomCoverage.
Import JS JSFacts WocabeeDom NormalizeFacts.

Unset Implicit Arguments.

Section WithPlatform.
Context {CM : CaseMapping} {NO : NumberOps}.

(** ** [find] and [findAll] *)

Lemma dedupeNodes_In (l : list Element) (seen : list nat) (e : Element) :
  In e (dedupeNodes seen l) -> In e l.
Proof.
  revert seen. induction l as [|x l IH]; intros seen; simpl; [tauto|].
  destruct (existsb (Nat.eqb (nodeId x)) seen).
  - intros H. right. now apply (IH seen).
  - intros [H|H]; [now left | right; now apply (IH (nodeId x :: seen))].
Qed.

Lemma dedupeNodes_covers (l : list Element) (seen : list nat) (e : Element) :
  In e l ->
  In (nodeId e) seen \/ In (nodeId e) (map nodeId (dedupeNodes seen l)).
Proof.
  revert seen. induction l as [|x l IH]; intros seen; simpl; [tauto|].
  destruct (existsb (Nat.eqb (nodeId x)) seen) eqn:E.
  - intros [<-|H]; [|now apply IH].
    left. apply existsb_exists in E as [n [Hn En]].
    apply Nat.eqb_eq in En. now rewrite En.
  - intros [<-|H]; [right; now left|].
    destruct (IH (nodeId x :: seen) H) as [[K|K]|K].
    + right. left. exact K.
    + now left.
    + right. right. exact K.
Qed.

Lemma dedupeNodes_head (l : list Element) :
  hd_error (dedupeNodes [] l) = hd_error l.
Proof. destruct l; reflexivity. Qed.

(** The elements that the selectors of a list match, in query order. *)
Definition matchesOf (doc : Document) (parent : option Element)
    (sels : list string) : list Element :=
  flat_map (fun selector =>
              match querySelectorAll doc parent selector with
              | Some elements => elements
              | None => []
              end) sels.

Lemma matchesOf_In (doc : Document) (parent : option Element)
    (sels : list string) (e : Element) :
  In e (matchesOf doc parent sels)
  <-> exists sel els, In sel sels
        /\ querySelectorAll doc parent sel = Some els /\ In e els.
Proof.
  unfold matchesOf. rewrite in_flat_map. split.
  - intros [sel [Hs He]].
    destruct (querySelectorAll doc parent sel) as [els|] eqn:E;
      [|contradiction].
    now exists sel, els.
  - intros [sel [els [Hs [E He]]]]. exists sel. now rewrite E.
Qed.

Lemma find_first_match (doc : Document) (selectors : string)
    (parent : option Element) :
  find doc selectors parent
  = hd_error (matchesOf doc parent (splitSelectors selectors)).
Proof.
  unfold find, matchesOf.
  induction (splitSelectors selectors) as [|sel sels IH]; [reflexivity|].
  cbn [flat_map].
  destruct (querySelectorAll doc parent sel) as [[|e els]|];
    [exact IH | reflexivity | exact IH].
Qed.

(** X15: [findAll] returns every element that some selector of the list
    matches, once each and no other, a selector that throws counting as
    matching nothing; and [find] returns the first element of that list,
    or null when the list is empty. *)
Theorem findAll_distinct_matches (doc : Document) (selectors : string)
    (parent : option Element) :
  NoDup (map nodeId (findAll doc selectors parent))
  /\ (forall e, In e (findAll doc selectors parent) ->
        exists sel els, In sel (splitSelectors selectors)
          /\ querySelectorAll doc parent sel = Some els /\ In e els)
  /\ (forall sel els e, In sel (splitSelectors selectors) ->
        querySelectorAll doc parent sel = Some els -> In e els ->
        In (nodeId e) (map nodeId (findAll doc selectors parent)))
  /\ find doc selectors parent = hd_error (findAll doc selectors parent).
Proof.
  change (findAll doc selectors parent)
    with (dedupeNodes [] (matchesOf doc parent (splitSelectors selectors))).
  split; [apply DomClaims.dedupeNodes_spec|]. split; [|split].
  - intros e He. apply dedupeNodes_In in He. now apply matchesOf_In.
  - intros sel els e Hs Hq He.
    destruct (dedupeNodes_covers
                (matchesOf doc parent (splitSelectors selectors)) [] e)
      as [[]|K]; [|exact K].
    apply matchesOf_In. now exists sel, els.
  - rewrite dedupeNodes_head. apply find_first_match.
Qed.

(** ** What [findCurrentQuestion] returns *)

(** A text that can be a question: not empty, trimmed, and not UI text
    once lower-cased. *)
Definition questionLike (text : jsstring) : Prop :=
  text <> [] /\ trim text = text /\ isUIText (toLowerCase text) = false.

Lemma getText_trimmed (el : Element) : trim (getText el) = getText el.
Proof. unfold getText. apply trim_fixed, trim_noEdgeSpace. Qed.

Lemma isEmpty_false (s : jsstring) : isEmpty s = false -> s <> [].
Proof. destruct s; [discriminate | discriminate]. Qed.

Lemma firstSome_Some (A B : Type) (f : A -> option B) (l : list A) (y : B) :
  firstSome f l = Some y -> exists x, In x l /\ f x = Some y.
Proof.
  induction l as [|x l IH]; simpl; [discriminate|].
  destruct (f x) as [y'|] eqn:E.
  - intros H. injection H as <-. exists x. auto.
  - intros H. destruct (IH H) as [x' [H1 H2]]. exists x'. auto.
Qed.

Lemma prominentText_result (el : Element) (t : jsstring) :
  prominentText el = Some t -> questionLike t.
Proof.
  unfold prominentText.
  destruct (tagIs el _); [discriminate|].
  destruct (3 <? childCount el); [discriminate|].
  destruct (negb (isEmpty (getText el)) && _ && _) eqn:E; [|discriminate].
  destruct (isUIText (toLowerCase (getText el))) eqn:Eu; [discriminate|].
  destruct (gt (rectWidth el) zero && gt (rectHeight el) zero);
    [|discriminate].
  intros H. injection H as <-.
  apply andb_true_iff in E as [E _]. apply andb_true_iff in E as [E _].
  apply negb_true_iff in E.
  split; [now apply isEmpty_false|]. split; [apply getText_trimmed|].
  exact Eu.
Qed.

Lemma scoringText_result (el : Element) (t : jsstring) :
  scoringText el = Some t -> questionLike t.
Proof.
  unfold scoringText.
  destruct (tagIs el _); [discriminate|].
  destruct (2 <? childCount el); [discriminate|].
  destruct (isEmpty (getText el) || _ || _) eqn:E; [discriminate|].
  destruct (isUIText (toLowerCase (getText el))) eqn:Eu; [discriminate|].
  destruct (same (rectWidth el) zero || same (rectHeight el) zero);
    [discriminate|].
  intros H. injection H as <-.
  apply orb_false_iff in E as [E _]. apply orb_false_iff in E as [E _].
  split; [now apply isEmpty_false|]. split; [apply getText_trimmed|].
  exact Eu.
Qed.

Lemma scoreScan_result (doc : Document) (t : jsstring) :
  scoreScan doc = Some t -> questionLike t.
Proof.
  unfold scoreScan.
  assert (G : forall els acc,
            (forall t0, fst acc = Some t0 -> questionLike t0) ->
            forall t0, fst (fold_left (scoreStep doc) els acc) = Some t0 ->
                       questionLike t0).
  { induction els as [|el els IH]; intros acc Hacc; [exact Hacc|].
    cbn [fold_left]. apply IH. unfold scoreStep.
    destruct (scoringText el) as [text|] eqn:E; [|exact Hacc].
    destruct (gt (score doc el) (snd acc)); [|exact Hacc].
    intros t0 H. injection H as <-. now apply (scoringText_result el). }
  apply G. intros t0 H. discriminate.
Qed.

Lemma findCurrentQuestion_questionLike (doc : Document) (text : jsstring) :
  findCurrentQuestion doc = Some text -> questionLike text.
Proof.
  unfold findCurrentQuestion.
  destruct (prominentScan doc) as [t1|] eqn:E1.
  - intros H. injection H as <-. unfold prominentScan in E1.
    apply firstSome_Some in E1 as [sel [_ E1]].
    destruct (querySelectorAll doc None sel) as [els|]; [|discriminate].
    apply firstSome_Some in E1 as [el [_ E1]].
    now apply (prominentText_result el).
  - destruct (scoreScan doc) as [t2|] eqn:E2.
    + intros H. injection H as <-. now apply (scoreScan_result doc).
    + unfold configuredQuestion.
      destruct (find doc WocabeeConfig.questionWord None) as [q|];
        [|discriminate].
      destruct (negb (isEmpty (getText q))
                && negb (isUIText (toLowerCase (getText q)))) eqn:E;
        [|discriminate].
      intros H. injection H as <-.
      apply andb_true_iff in E as [Ea Eb].
      apply negb_true_iff in Ea, Eb.
      split; [now apply isEmpty_false|]. split; [apply getText_trimmed|].
      exact Eb.
Qed.

(** X16: whichever of its three strategies answers, the text that
    [findCurrentQuestion] returns is not empty, has no white space at
    either end, and is not UI text once lower-cased. *)
Theorem findCurrentQuestion_result (doc : Document) (text : jsstring) :
  findCurrentQuestion doc = Some text ->
  text <> [] /\ trim text = text /\ isUIText (toLowerCase text) = false.
Proof. apply findCurrentQuestion_questionLike. Qed.

(** ** What [extractWordPairs] returns *)

Lemma flat_map_at_most_one (A B : Type) (f : A -> list B) (l : list A) :
  (forall x, length (f x) <= 1) -> length (flat_map f l) <= length l.
Proof.
  intros H. induction l as [|x l IH]; [apply Nat.le_refl|].
  cbn [flat_map length]. rewrite length_app.
  pose proof (H x). lia.
Qed.

(** The pair that two elements give, if both have text. *)
Definition pairOf (source target : Element) : list (jsstring * jsstring) :=
  if negb (isEmpty (getText source)) && negb (isEmpty (getText target))
  then [(getText source, getText target)] else [].

(** The pairs, at most one, that a word item gives. *)
Definition pairsOfItem (doc : Document) (item : Element)
    : list (jsstring * jsstring) :=
  match find doc WocabeeConfig.sourceWord (Some item),
        find doc WocabeeConfig.targetWord (Some item) with
  | Some source, Some target => pairOf source target
  | _, _ =>
    match cellsOf doc item with
    | c0 :: c1 :: _ => pairOf c0 c1
    | _ => []
    end
  end.

Lemma extractWordPairs_items (doc : Document) :
  extractWordPairs doc
  = flat_map (pairsOfItem doc) (findAll doc WocabeeConfig.wordPair None).
Proof.
  unfold extractWordPairs. apply flat_map_ext. intros item.
  unfold pairsOfItem, pairOf. cbv zeta. reflexivity.
Qed.

Lemma pairOf_shape (source target : Element) :
  length (pairOf source target) <= 1
  /\ forall p, In p (pairOf source target) ->
       fst p <> [] /\ snd p <> []
       /\ trim (fst p) = fst p /\ trim (snd p) = snd p.
Proof.
  unfold pairOf.
  destruct (negb (isEmpty (getText source))
            && negb (isEmpty (getText target))) eqn:E.
  - split; [apply Nat.le_refl|]. intros p [<-|[]]. cbn [fst snd].
    apply andb_true_iff in E as [E1 E2]. apply negb_true_iff in E1, E2.
    split; [now apply isEmpty_false|]. split; [now apply isEmpty_false|].
    split; apply getText_trimmed.
  - split; [apply Nat.le_0_l | contradiction].
Qed.

Lemma pairsOfItem_shape (doc : Document) (item : Element) :
  length (pairsOfItem doc item) <= 1
  /\ forall p, In p (pairsOfItem doc item) ->
       fst p <> [] /\ snd p <> []
       /\ trim (fst p) = fst p /\ trim (snd p) = snd p.
Proof.
  assert (Hnone : length (@nil (jsstring * jsstring)) <= 1
                  /\ forall p, In p (@nil (jsstring * jsstring)) ->
                       fst p <> [] /\ snd p <> []
                       /\ trim (fst p) = fst p /\ trim (snd p) = snd p)
    by (split; [apply Nat.le_0_l | contradiction]).
  assert (Hcells : length (match cellsOf doc item with
                           | c0 :: c1 :: _ => pairOf c0 c1
                           | _ => []
                           end) <= 1
                   /\ forall p, In p (match cellsOf doc item with
                                      | c0 :: c1 :: _ => pairOf c0 c1
                                      | _ => []
                                      end) ->
                        fst p <> [] /\ snd p <> []
                        /\ trim (fst p) = fst p /\ trim (snd p) = snd p).
  { destruct (cellsOf doc item) as [|c0 [|c1 cs]];
      [exact Hnone | exact Hnone | apply pairOf_shape]. }
  unfold pairsOfItem.
  destruct (find doc WocabeeConfig.sourceWord (Some item)) as [source|];
    [|exact Hcells].
  destruct (find doc WocabeeConfig.targetWord (Some item)) as [target|];
    [apply pairOf_shape | exact Hcells].
Qed.

(** X26: [extractWordPairs] takes at most one pair from each word item,
    and both texts of every pair it returns are non-empty and have no
    white space at either end. *)
Theorem extractWordPairs_shape (doc : Document) :
  length (extractWordPairs doc)
  <= length (findAll doc WocabeeConfig.wordPair None)
  /\ forall p, In p (extractWordPairs doc) ->
       fst p <> [] /\ snd p <> []
       /\ trim (fst p) = fst p /\ trim (snd p) = snd p.
Proof.
  rewrite extractWordPairs_items.
  generalize (findAll doc WocabeeConfig.wordPair None). intros items.
  split.
  - apply flat_map_at_most_one. intros item. apply pairsOfItem_shape.
  - intros p Hp. apply in_flat_map in Hp as [item [_ Hp]].
    now apply (pairsOfItem_shape doc item).
Qed.

End WithPlatform.

Import LatinCase RationalNumbers Pages.
Local Open Scope string_scope.

(** A page whose only heading is the question. *)
Definition headingPage : Document :=
  page [("h1", [node 1 "H1" plain "Katze" 32])]
       [node 1 "H1" plain "Katze" 32].

Lemma findCurrentQuestion_result_witness :
  findCurrentQuestion headingPage = Some (lit "Katze")
  /\ isUIText (toLowerCase (lit "Katze")) = false.
Proof.
  assert (H : findCurrentQuestion headingPage = Some (lit "Katze"))
    by (vm_compute; reflexivity).
  split; [exact H|].
  apply (@findCurrentQuestion_result latin rationals headingPage _ H).
Defined.

End DomCoverage.

(** * Further properties of the observer *)

Module TrackerCoverage.
Import JS JSFacts Json JSMap JSMapFacts WocabeeState WocabeeDom
       WocabeeObserver StoreFacts NormalizeFacts StoreClaims StoreCoverage
       DomCoverage.

Unset Implicit Arguments.

Section WithPlatform.
Context {CM : CaseMapping} {NO : NumberOps}.

(** ** The two halves of a pass *)

(** The first half of [checkForFeedbackAndLearn]: a question that differs
    from the last one starts a new wait. *)
Definition noteQuestion (doc : Document) (w : World) : World :=
  match findCurrentQuestion doc with
  | Some currentQuestion =>
    if negb (isEmpty currentQuestion) && (0 <? length currentQuestion)
       && negb (sameQuestion currentQuestion (lastQuestion (tracker w)))
    then {| tracker := {| lastQuestion := Some currentQuestion;
                          isWaitingForResult := true |};
            store := store w; events := events w |}
    else w
  | None => w
  end.

(** The second half: the feedback on the page ends the wait. *)
Definition resolveFeedback (doc : Document) (w1 : World) : World :=
  match lastQuestion (tracker w1) with
  | None => w1
  | Some question =>
    if isEmpty question then w1 else
    let w2 :=
      if present (find doc WocabeeConfig.correctFeedback None)
         && isWaitingForResult (tracker w1)
      then learnFromCorrectAnswer doc w1 else w1 in
    if present (find doc WocabeeConfig.incorrectFeedback None)
       && isWaitingForResult (tracker w2)
    then learnFromIncorrectAnswer doc w2 else w2
  end.

Lemma pass_phases (doc : Document) (w : World) :
  checkForFeedbackAndLearn doc w = resolveFeedback doc (noteQuestion doc w).
Proof. reflexivity. Qed.

Definition idle (q : jsstring) : Tracker :=
  {| lastQuestion := Some q; isWaitingForResult := false |}.

Definition notice (q a : jsstring) (kind : LearnKind) : LearnEvent :=
  {| eventQuestion := q; eventAnswer := a; eventKind := kind |}.

Lemma learnFrom_cases (extracted : option jsstring) (kind : LearnKind)
    (w : World) (q : jsstring) :
  lastQuestion (tracker w) = Some q -> q <> [] ->
  tracker (learnFrom extracted kind w) = idle q
  /\ ((store (learnFrom extracted kind w) = store w
       /\ events (learnFrom extracted kind w) = events w)
      \/ exists a, extracted = Some a
           /\ addWord (VStr q) (VStr a) (store w)
              = (store (learnFrom extracted kind w), true)
           /\ events (learnFrom extracted kind w)
              = events w ++ [notice q a kind]).
Proof.
  intros Hq Hne. unfold learnFrom. rewrite Hq.
  destruct q as [|c0 q0]; [congruence|]. cbn [isEmpty].
  destruct extracted as [[|c r]|].
  - cbn. rewrite Hq. split; [reflexivity | now left].
  - cbn [isEmpty negb length Nat.ltb Nat.leb andb].
    destruct (addWord (VStr (c0 :: q0)) (VStr (c :: r)) (store w))
      as [st' added] eqn:E.
    cbn. rewrite Hq. split; [reflexivity|]. destruct added.
    + right. exists (c :: r). auto.
    + left. apply addWord_false in E. auto.
  - cbn. rewrite Hq. split; [reflexivity | now left].
Qed.

Lemma resolveFeedback_cases (doc : Document) (w : World) :
  resolveFeedback doc w = w
  \/ exists extracted kind q,
       lastQuestion (tracker w) = Some q /\ q <> []
       /\ resolveFeedback doc w = learnFrom extracted kind w
       /\ ((extracted = findCorrectAnswer doc /\ kind = LearnedCorrect)
           \/ (extracted = findRevealedAnswer doc
               /\ kind = LearnedCorrection)).
Proof.
  unfold resolveFeedback.
  destruct (lastQuestion (tracker w)) as [q|] eqn:Hq; [|now left].
  destruct (isEmpty q) eqn:Hne; [now left|].
  apply isEmpty_false in Hne. cbv zeta.
  destruct (present (find doc WocabeeConfig.correctFeedback None)
            && isWaitingForResult (tracker w)) eqn:Ec.
  - unfold learnFromCorrectAnswer.
    destruct (learnFrom_cases (findCorrectAnswer doc) LearnedCorrect w q
                Hq Hne) as [Ht _].
    rewrite Ht. cbn [isWaitingForResult idle]. rewrite andb_false_r.
    right. exists (findCorrectAnswer doc), LearnedCorrect, q.
    split; [reflexivity|]. split; [assumption|]. split; [reflexivity|].
    left. now split.
  - destruct (present (find doc WocabeeConfig.incorrectFeedback None)
              && isWaitingForResult (tracker w)); [|now left].
    right. exists (findRevealedAnswer doc), LearnedCorrection, q.
    split; [reflexivity|]. split; [assumption|]. split; [reflexivity|].
    right. now split.
Qed.


Lemma resolveFeedback_lastQuestion (doc : Document) (w : World) :
  lastQuestion (tracker (resolveFeedback doc w)) = lastQuestion (tracker w).
Proof.
  destruct (resolveFeedback_cases doc w)
    as [->|[extracted [kind [q [Hq [Hne [-> _]]]]]]]; [reflexivity|].
  destruct (learnFrom_cases extracted kind w q Hq Hne) as [-> _].
  now rewrite Hq.
Qed.


Lemma noteQuestion_store (doc : Document) (w : World) :
  store (noteQuestion doc w) = store w
  /\ events (noteQuestion doc w) = events w.
Proof.
  unfold noteQuestion. destruct (findCurrentQuestion doc) as [cq|]; [|auto].
  destruct (_ && _); auto.
Qed.

Lemma noteQuestion_current (doc : Document) (w : World) (cq : jsstring) :
  findCurrentQuestion doc = Some cq ->
  lastQuestion (tracker (noteQuestion doc w)) = Some cq.
Proof.
  intros H. unfold noteQuestion. rewrite H.
  destruct (findCurrentQuestion_questionLike doc cq H) as [Hne _].
  destruct cq as [|c r]; [congruence|].
  cbn [isEmpty negb length Nat.ltb Nat.leb andb].
  destruct (lastQuestion (tracker w)) as [q|] eqn:Hq; cbn [sameQuestion negb];
    [|reflexivity].
  destruct (eqb (c :: r) q) eqn:E; cbn [negb]; [|reflexivity].
  apply eqb_eq in E. now subst q.
Qed.


(** What one pass does to the store and to the notifications. *)
Lemma pass_effect (doc : Document) (w : World) :
  lastQuestion (tracker (checkForFeedbackAndLearn doc w))
  = lastQuestion (tracker (noteQuestion doc w))
  /\ ((store (checkForFeedbackAndLearn doc w) = store w
       /\ events (checkForFeedbackAndLearn doc w) = events w)
      \/ exists q a kind,
           lastQuestion (tracker (checkForFeedbackAndLearn doc w)) = Some q
           /\ addWord (VStr q) (VStr a) (store w)
              = (store (checkForFeedbackAndLearn doc w), true)
           /\ events (checkForFeedbackAndLearn doc w)
              = events w ++ [notice q a kind]
           /\ ((findCorrectAnswer doc = Some a /\ kind = LearnedCorrect)
               \/ (findRevealedAnswer doc = Some a
                   /\ kind = LearnedCorrection))).
Proof.
  rewrite pass_phases. split; [apply resolveFeedback_lastQuestion|].
  destruct (noteQuestion_store doc w) as [Hs He].
  destruct (resolveFeedback_cases doc (noteQuestion doc w))
    as [->|[extracted [kind [q [Hq [Hne [-> Hk]]]]]]]; [now left|].
  destruct (learnFrom_cases extracted kind (noteQuestion doc w) q Hq Hne)
    as [Ht [[H1 H2]|[a [Ea [H1 H2]]]]].
  - left. split; congruence.
  - right. exists q, a, kind. rewrite Ht, <- Hs, <- He.
    split; [reflexivity|]. split; [assumption|]. split; [assumption|].
    destruct Hk as [[<- ->]|[<- ->]]; auto.
Qed.

(** X18: a pass shows at most one learning notification, and shows it
    exactly when [addWord] stored a new pair: either the store and the
    notifications are as before, or [addWord] returned true for the
    question the tracker holds after the pass and the answer that
    [findCorrectAnswer] or [findRevealedAnswer] extracted, and one
    notification of that pair was added. *)
Theorem pass_learns_at_most_one_pair (doc : Document) (w : World) :
  (store (checkForFeedbackAndLearn doc w) = store w
   /\ events (checkForFeedbackAndLearn doc w) = events w)
  \/ exists q a kind,
       lastQuestion (tracker (checkForFeedbackAndLearn doc w)) = Some q
       /\ addWord (VStr q) (VStr a) (store w)
          = (store (checkForFeedbackAndLearn doc w), true)
       /\ events (checkForFeedbackAndLearn doc w)
          = events w ++ [notice q a kind]
       /\ ((findCorrectAnswer doc = Some a /\ kind = LearnedCorrect)
           \/ (findRevealedAnswer doc = Some a /\ kind = LearnedCorrection)).
Proof. apply pass_effect. Qed.

Lemma addWord_other_keys (a b : value) (st st' : State) (k : jsstring) :
  addWord a b st = (st', true) -> k <> normalizeWord a ->
  get (wordDatabase st') k = get (wordDatabase st) k.
Proof.
  intros E Hk. apply addWord_true in E as [_ [_ [Hdb _]]].
  rewrite Hdb. unfold pushed. now apply get_set_other.
Qed.

(** X19: when the page shows a question, the pass makes it the tracker's
    question before it looks at the feedback: whatever the pass learns is
    stored under that question, the translations of every other source
    are untouched, and a notification added by the pass names that
    question, also when the tracker was waiting for another one. *)
Theorem current_question_takes_over (doc : Document) (w : World)
    (cq : jsstring) :
  findCurrentQuestion doc = Some cq ->
  lastQuestion (tracker (checkForFeedbackAndLearn doc w)) = Some cq
  /\ (forall k, k <> normalizeWord (VStr cq) ->
        get (wordDatabase (store (checkForFeedbackAndLearn doc w))) k
        = get (wordDatabase (store w)) k)
  /\ (forall e, In e (events (checkForFeedbackAndLearn doc w)) ->
        In e (events w) \/ eventQuestion e = cq).
Proof.
  intros Hcq. destruct (pass_effect doc w) as [Hl Heff].
  rewrite (noteQuestion_current doc w cq Hcq) in Hl.
  split; [exact Hl|].
  destruct Heff as [[-> ->]|[q [a [kind [Hq [E [-> _]]]]]]]; [auto|].
  assert (q = cq) by congruence. subst q. split.
  - intros k Hk. now apply (addWord_other_keys _ _ _ _ k E).
  - intros e He. apply in_app_or in He as [He|[<-|[]]]; auto.
Qed.

(** ** Runs of passes *)

(** The world after a pass on each page of a list, from the start. *)
Definition observe (pages : list Document) : World :=
  fold_left (fun w doc => checkForFeedbackAndLearn doc w) pages initialWorld.

Lemma pass_store_invariant (P : State -> Prop) :
  (forall a b st, P st -> P (fst (addWord a b st))) ->
  forall doc w, P (store w) -> P (store (checkForFeedbackAndLearn doc w)).
Proof.
  intros Hadd doc w H.
  destruct (pass_effect doc w) as [_ [[-> _]|[q [a [kind [_ [E _]]]]]]];
    [assumption|].
  pose proof (Hadd (VStr q) (VStr a) (store w) H) as K.
  now rewrite E in K.
Qed.

Lemma observe_store_invariant (P : State -> Prop) :
  P emptyState ->
  (forall a b st, P st -> P (fst (addWord a b st))) ->
  forall pages, P (store (observe pages)).
Proof.
  intros Hempty Hadd pages. unfold observe.
  assert (G : forall w, P (store w) ->
            P (store (fold_left
                        (fun w doc => checkForFeedbackAndLearn doc w)
                        pages w))).
  { induction pages as [|doc pages IH]; intros w H; [assumption|].
    cbn [fold_left]. apply IH. now apply pass_store_invariant. }
  now apply G.
Qed.

(** Every notification stands for a stored pair, and there are as many of
    them as translations. *)
Definition recorded (w : World) : Prop :=
  length (events w) = totalTranslations (store w)
  /\ forall e, In e (events w) ->
       In (normalizeWord (VStr (eventAnswer e)))
          (getOr (wordDatabase (store w))
                 (normalizeWord (VStr (eventQuestion e)))).

Lemma recorded_pass (doc : Document) (w : World) :
  recorded w -> recorded (checkForFeedbackAndLearn doc w).
Proof.
  intros [Hlen Hall].
  destruct (pass_effect doc w)
    as [_ [[Hs He]|[q [a [kind [_ [E [He _]]]]]]]].
  - unfold recorded. rewrite Hs, He. now split.
  - pose proof (addWord_counts (VStr q) (VStr a) (store w)) as Hc.
    pose proof (addWord_stores (VStr q) (VStr a) (store w)) as Hst.
    pose proof (fun s t => addWord_keeps (VStr q) (VStr a) (store w) s t)
      as Hk.
    rewrite E in Hc, Hst, Hk. cbn [fst snd] in Hc, Hst, Hk.
    apply addWord_true in E as [Hv _].
    unfold recorded. rewrite He. split.
    + rewrite length_app. cbn [length]. lia.
    + intros e Hin. apply in_app_or in Hin as [Hin|[<-|[]]].
      * apply Hk. now apply Hall.
      * cbn [notice eventAnswer eventQuestion]. now apply Hst.
Qed.

Lemma recorded_observe (pages : list Document) : recorded (observe pages).
Proof.
  unfold observe.
  assert (G : forall w, recorded w ->
            recorded (fold_left
                        (fun w doc => checkForFeedbackAndLearn doc w)
                        pages w)).
  { induction pages as [|doc pages IH]; intros w H; [assumption|].
    cbn [fold_left]. apply IH. now apply recorded_pass. }
  apply G. split; [reflexivity | contradiction].
Qed.

(** X20: after the passes on any sequence of pages from the initial
    world, the number of learning notifications shown equals the number of
    translations in the store and the counter of indexed words; every
    notification names a pair that is in the store; and the reverse index
    is the inversion of the primary mapping. *)
Theorem tracker_run_invariant (pages : list Document) :
  length (events (observe pages)) = totalTranslations (store (observe pages))
  /\ wordsIndexed (store (observe pages))
     = N.of_nat (length (events (observe pages)))
  /\ (forall e, In e (events (observe pages)) ->
        In (normalizeWord (VStr (eventAnswer e)))
           (getOr (wordDatabase (store (observe pages)))
                  (normalizeWord (VStr (eventQuestion e)))))
  /\ (forall s t,
        In s (getOr (reverseDatabase (store (observe pages))) t)
        <-> In t (getOr (wordDatabase (store (observe pages))) s)).
Proof.
  destruct (recorded_observe pages) as [Hlen Hall].
  split; [exact Hlen|]. split; [|split; [exact Hall|]].
  - rewrite Hlen.
    apply (observe_store_invariant counted); [reflexivity|].
    intros a b st. apply counted_addWord.
  - apply (observe_store_invariant inverted); [apply inverted_empty|].
    intros a b st. apply inverted_addWord.
Qed.

(** ** The answer extractors *)

Lemma trim_trim (s : jsstring) : trim (trim s) = trim s.
Proof. apply trim_fixed, trim_noEdgeSpace. Qed.

(** The answer, if there is one, is trimmed. *)
Definition trimmed (o : option jsstring) : Prop :=
  match o with
  | Some answer => trim answer = answer
  | None => True
  end.

Lemma answerFromInput_trimmed (doc : Document) :
  trimmed (answerFromInput doc).
Proof.
  unfold answerFromInput.
  destruct (findAnswerInput doc) as [input|]; [|exact I].
  destruct (inputValue input) as [v|]; [|exact I].
  destruct (negb (isEmpty v) && (0 <? length (trim v))); [|exact I].
  apply trim_trim.
Qed.

Lemma answerFromActive_trimmed (doc : Document) :
  trimmed (answerFromActive doc).
Proof.
  unfold answerFromActive.
  destruct (find doc WocabeeConfig.activeAnswer None) as [el|]; [|exact I].
  cbv zeta.
  destruct (negb (isEmpty (getText el))
            && negb (isUIText (toLowerCase (getText el)))); [|exact I].
  apply getText_trimmed.
Qed.

Lemma answerFromSuccess_trimmed (doc : Document) :
  trimmed (answerFromSuccess doc).
Proof.
  unfold answerFromSuccess.
  destruct (find doc WocabeeConfig.correctFeedback None) as [el|]; [|exact I].
  cbv zeta.
  match goal with |- trimmed (if ?c then _ else _) => destruct c end;
    [|exact I].
  apply trim_trim.
Qed.

Lemma answerFromError_trimmed (doc : Document) :
  trimmed (answerFromError doc).
Proof.
  unfold answerFromError.
  destruct (find doc WocabeeConfig.incorrectFeedback None) as [el|];
    [|exact I].
  cbv zeta.
  match goal with |- trimmed (match ?c with Some _ => _ | None => _ end) =>
    destruct c end; [|exact I].
  apply trim_trim.
Qed.

Lemma findCorrectAnswer_trimmed (doc : Document) :
  trimmed (findCorrectAnswer doc).
Proof.
  unfold findCorrectAnswer.
  pose proof (answerFromInput_trimmed doc) as H1.
  destruct (answerFromInput doc); [exact H1|].
  destruct (find doc WocabeeConfig.highlightedCorrect None) as [el|];
    [apply getText_trimmed|].
  pose proof (answerFromActive_trimmed doc) as H3.
  destruct (answerFromActive doc); [exact H3|].
  apply answerFromSuccess_trimmed.
Qed.

Lemma findRevealedAnswer_trimmed (doc : Document) :
  trimmed (findRevealedAnswer doc).
Proof.
  unfold findRevealedAnswer.
  destruct (find doc WocabeeConfig.revealedAnswer None) as [el|];
    [apply getText_trimmed|].
  destruct (find doc WocabeeConfig.correctOption None) as [el|];
    [apply getText_trimmed|].
  pose proof (answerFromError_trimmed doc) as H3.
  destruct (answerFromError doc); [exact H3|].
  destruct (List.find (markedCorrect doc) (findAnswerOptions doc))
    as [opt|]; [apply getText_trimmed | exact I].
Qed.

(** X21: an answer returned by [findCorrectAnswer] or by
    [findRevealedAnswer] has no white space at either end. *)
Theorem extracted_answers_trimmed (doc : Document) (answer : jsstring) :
  findCorrectAnswer doc = Some answer
  \/ findRevealedAnswer doc = Some answer ->
  trim answer = answer.
Proof.
  intros [H|H].
  - pose proof (findCorrectAnswer_trimmed doc) as K. now rewrite H in K.
  - pose proof (findRevealedAnswer_trimmed doc) as K. now rewrite H in K.
Qed.

(** ** Indexing a vocabulary page *)

Definition asValues (p : jsstring * jsstring) : value * value :=
  (VStr (fst p), VStr (snd p)).

(** [indexVocabulary] once the pairs are read from the page. *)
Definition indexPairs (ps : list (value * value)) (st : State)
    : State * option nat :=
  (fst (addWords ps st),
   if 0 <? snd (addWords ps st) then Some (snd (addWords ps st)) else None).

Lemma indexVocabulary_addWords (doc : Document) (st : State) :
  indexVocabulary doc st
  = indexPairs (map asValues (extractWordPairs doc)) st.
Proof.
  unfold indexVocabulary, indexPairs. cbv zeta.
  change (fun p : jsstring * jsstring => (VStr (fst p), VStr (snd p)))
    with asValues.
  destruct (extractWordPairs doc) as [|p ps] eqn:E; [reflexivity|].
  cbn [length Nat.ltb Nat.leb].
  now destruct (addWords (map asValues (p :: ps)) st).
Qed.

Lemma indexPairs_gain (ps : list (value * value)) (st : State) :
  match snd (indexPairs ps st) with
  | Some added =>
    0 < added
    /\ totalTranslations (fst (indexPairs ps st))
       = totalTranslations st + added
  | None => fst (indexPairs ps st) = st
  end.
Proof.
  unfold indexPairs. cbn [fst snd].
  pose proof (addWords_gain ps st) as Hg.
  destruct (Nat.ltb_spec 0 (snd (addWords ps st))) as [H|H].
  - split; [assumption | exact Hg].
  - apply addWords_unchanged. lia.
Qed.


(** X22: [indexVocabulary] shows its notification exactly when the store
    gained translations, and the number shown is the number gained;
    without a notification the store is unchanged. *)
Theorem indexVocabulary_notifies_gain (doc : Document) (st : State) :
  match snd (indexVocabulary doc st) with
  | Some added =>
    0 < added
    /\ totalTranslations (fst (indexVocabulary doc st))
       = totalTranslations st + added
  | None => fst (indexVocabulary doc st) = st
  end.
Proof. rewrite indexVocabulary_addWords. apply indexPairs_gain. Qed.


End WithPlatform.

(** ** The throttle of [processChanges] *)

Local Open Scope Z_scope.

(** The times of the calls that get past both early returns, for a list
    of calls given by their time and content size. *)
Fixpoint processedTimes (calls : list (Z * Z)) (th : Throttle) : list Z :=
  match calls with
  | [] => []
  | (now, currentContent) :: rest =>
    let r := processChangesGuard now currentContent th in
    if snd r then now :: processedTimes rest (fst r)
    else processedTimes rest (fst r)
  end.

Lemma guard_time (now currentContent : Z) (th : Throttle) :
  lastProcessedTime th
  <= lastProcessedTime (fst (processChangesGuard now currentContent th))
  /\ (snd (processChangesGuard now currentContent th) = true ->
      lastProcessedTime th + 500 <= now
      /\ lastProcessedTime (fst (processChangesGuard now currentContent th))
         = now).
Proof.
  unfold processChangesGuard.
  destruct (Z.ltb_spec (now - lastProcessedTime th) 500);
    [cbn; split; [lia | discriminate]|].
  destruct (Z.abs (currentContent - lastContentLength th) <? 10);
    cbn; split; try lia; discriminate.
Qed.

Lemma processedTimes_after (calls : list (Z * Z)) (th : Throttle) :
  Forall (fun x => lastProcessedTime th + 500 <= x)
         (processedTimes calls th).
Proof.
  revert th. induction calls as [|[now c] calls IH]; intros th;
    [constructor|].
  cbn [processedTimes]. cbv zeta.
  destruct (guard_time now c th) as [Hmono Hgo].
  specialize (IH (fst (processChangesGuard now c th))).
  assert (Htail : Forall (fun x => lastProcessedTime th + 500 <= x)
                    (processedTimes calls
                       (fst (processChangesGuard now c th)))).
  { eapply Forall_impl; [|exact IH]. cbv beta. intros x Hx. lia. }
  destruct (snd (processChangesGuard now c th)); [|exact Htail].
  constructor; [|exact Htail]. now apply Hgo.
Qed.

(** X24: whatever the calls and the clock, two calls of [processChanges]
    that both get past its early returns are at least 500 ms apart, the
    later one at the later time; and the first is at least 500 ms after
    the time the throttle held at the start. *)
Theorem processed_calls_spaced (calls : list (Z * Z)) (th : Throttle)
    (l1 : list Z) (a : Z) (l2 : list Z) (b : Z) (l3 : list Z) :
  processedTimes calls th = l1 ++ a :: l2 ++ b :: l3 ->
  lastProcessedTime th + 500 <= a /\ a + 500 <= b.
Proof.
  revert th l1. induction calls as [|[now c] calls IH]; intros th l1 H.
  - destruct l1; discriminate.
  - pose proof (processedTimes_after ((now, c) :: calls) th) as Hall.
    rewrite H in Hall. split.
    { apply Forall_app in Hall as [_ Hall]. now inversion Hall. }
    cbn [processedTimes] in H. cbv zeta in H.
    destruct (guard_time now c th) as [Hmono Hgo].
    destruct (snd (processChangesGuard now c th)) eqn:Eg.
    + destruct (Hgo eq_refl) as [_ Hnow].
      destruct l1 as [|x l1]; cbn [app] in H.
      * injection H as <- Htail.
        pose proof (processedTimes_after calls
                      (fst (processChangesGuard now c th))) as Hafter.
        rewrite Htail, Hnow in Hafter.
        apply Forall_app in Hafter as [_ Hafter]. now inversion Hafter.
      * injection H as _ Htail. now apply (IH _ _ Htail).
    + now apply (IH _ _ H).
Qed.

(** X25: a call that gets past the time check of [processChanges] but is
    dropped because the content size moved by less than 10 still restarts
    the 500 ms window: any call within 500 ms of it is dropped at the time
    check whatever its content size, and the size remembered for
    comparison stays the old one. *)
Theorem small_change_restarts_window (now content later content' : Z)
    (th : Throttle) :
  500 <= now - lastProcessedTime th ->
  Z.abs (content - lastContentLength th) < 10 ->
  later - now < 500 ->
  let th1 := fst (processChangesGuard now content th) in
  snd (processChangesGuard now content th) = false
  /\ lastContentLength th1 = lastContentLength th
  /\ processChangesGuard later content' th1 = (th1, false).
Proof.
  intros Ht Hc Hl. cbv zeta.
  assert (E : processChangesGuard now content th
              = ({| lastProcessedTime := now;
                    lastContentLength := lastContentLength th |}, false)).
  { unfold processChangesGuard.
    destruct (Z.ltb_spec (now - lastProcessedTime th) 500); [lia|].
    destruct (Z.ltb_spec (Z.abs (content - lastContentLength th)) 10);
      [reflexivity | lia]. }
  rewrite E. cbn [fst snd lastContentLength]. split; [reflexivity|].
  split; [reflexivity|].
  unfold processChangesGuard. cbn [lastProcessedTime].
  destruct (Z.ltb_spec (later - now) 500); [reflexivity | lia].
Qed.

Close Scope Z_scope.

(** ** Concrete runs *)

Import LatinCase RationalNumbers Pages WocabeeConfig.
Local Open Scope string_scope.

(** The next question is on the page while the praise for the previous
    answer and the answer itself are still shown. *)
Definition overlapPage : Document :=
  page [("h1", [node 1 "H1" plain "Hund" 32]);
        (".correct", [node 2 "DIV" "correct" "Correct!" 16]);
        ("input" ++ attr "type" "=" "text", [textInput 3 "cat"])]
       [node 1 "H1" plain "Hund" 32; node 2 "DIV" "correct" "Correct!" 16;
        textInput 3 "cat"].

(** The tracker waits for the result of "Katze". *)
Definition waitingForKatze : World :=
  {| tracker := {| lastQuestion := Some (lit "Katze");
                   isWaitingForResult := true |};
     store := emptyState; events := [] |}.

Lemma current_question_takes_over_witness :
  findCurrentQuestion overlapPage = Some (lit "Hund")
  /\ lastQuestion (tracker (checkForFeedbackAndLearn overlapPage
                              waitingForKatze))
     = Some (lit "Hund")
  /\ get (wordDatabase (store (checkForFeedbackAndLearn overlapPage
                                 waitingForKatze))) (lit "katze")
     = None.
Proof.
  assert (H : findCurrentQuestion overlapPage = Some (lit "Hund"))
    by (vm_compute; reflexivity).
  split; [exact H|].
  destruct (@current_question_takes_over latin rationals overlapPage
              waitingForKatze (lit "Hund") H) as [H1 [H2 _]].
  split; [exact H1|].
  rewrite (H2 (lit "katze")); [reflexivity | vm_compute; discriminate].
Defined.

Lemma extracted_answers_trimmed_witness :
  findCorrectAnswer overlapPage = Some (lit "cat")
  /\ trim (lit "cat") = lit "cat".
Proof.
  assert (H : findCorrectAnswer overlapPage = Some (lit "cat"))
    by (vm_compute; reflexivity).
  split; [exact H|].
  apply (@extracted_answers_trimmed latin rationals overlapPage (lit "cat")).
  now left.
Defined.

Lemma processed_calls_spaced_witness :
  processedTimes [(1000, 50); (1200, 90); (1600, 120); (2300, 400)]%Z
                 initialThrottle
  = [1000; 1600; 2300]%Z
  /\ (1000 + 500 <= 1600)%Z.
Proof.
  assert (H : processedTimes
                [(1000, 50); (1200, 90); (1600, 120); (2300, 400)]%Z
                initialThrottle
              = ([] ++ 1000%Z :: [] ++ 1600%Z :: [2300%Z])%list)
    by reflexivity.
  split; [exact H|].
  apply (proj2 (processed_calls_spaced _ _ _ _ _ _ _ H)).
Defined.

Lemma small_change_restarts_window_witness :
  processChangesGuard 1400 900
    (fst (processChangesGuard 1000 5 initialThrottle))
  = (fst (processChangesGuard 1000 5 initialThrottle), false).
Proof.
  apply (small_change_restarts_window 1000 5 1400 900 initialThrottle);
    cbn; lia.
Defined.

End TrackerCoverage.
